(** * plot-thread: data model, header hasher, interaction pool and graph rank

    A shallow embedding of the Go package [plotthread] and the properties
    its specification states about it.  Go values are modelled as follows:

    - [byte] slices and arrays are [list byte]; a [[32]byte] identifier is a
      list whose length is 32 (see [wf_id]);
    - Go [int], [int32] and [int64] values are [Z]; where the code can wrap
      around, the wrap is written out ([wrap64]);
    - [*big.Int] values are [Z];
    - a panic is [None] in an [option], a returned [error] is [Err] in a
      [Result];
    - [float64] is the kernel's binary64 [float]. *)

From Stdlib Require Import ZArith NArith Lia List Bool.
From Stdlib Require Import Strings.Byte Strings.Ascii Strings.String.
From Stdlib Require Import Floats.PrimFloat Numbers.Cyclic.Int63.Uint63.
From stdpp Require Import base option list gmap.

Import ListNotations.
Local Open Scope Z_scope.

(** ** Results of fallible Go functions *)

Inductive Result (E A : Type) : Type :=
| Ok (a : A)
| Err (e : E).
Arguments Ok {E A} a.
Arguments Err {E A} e.


(** ** Bytes and byte-string literals *)

Definition byte_of_N (n : N) : byte :=
  match Byte.of_N (n mod 256) with
  | Some b => b
  | None => x00
  end.

Definition byte_of_Z (z : Z) : byte := byte_of_N (Z.to_N z).
Definition Z_of_byte (b : byte) : Z := Z.of_N (Byte.to_N b).

#[global] Instance byte_eq_dec : EqDecision byte.
Proof.
  intros a b. destruct (N.eq_dec (Byte.to_N a) (Byte.to_N b)) as [e | n].
  - left. apply (f_equal Byte.of_N) in e. rewrite !Byte.of_to_N in e. congruence.
  - right. congruence.
Defined.

#[global] Instance byte_countable : Countable byte :=
  inj_countable Byte.to_N Byte.of_N Byte.of_to_N.

(** [len] of a Go slice, as a Go [int]. *)
Definition len {A} (l : list A) : Z := Z.of_nat (length l).

(** The double quote character. *)
Definition dquote : byte := x22.

(** [lit s] is the byte string written [s], where an apostrophe in [s]
    stands for a double quote: [lit "{'previous':'"] is the Go literal
    that opens a JSON object and its first key. *)
Definition lit (s : string) : list byte :=
  map (fun b => if Byte.eqb b x27 then dquote else b) (list_byte_of_string s).

(** ** encoding/hex *)

Definition hextable : list byte := lit "0123456789abcdef".

Definition hex_digit (n : N) : byte := nth (N.to_nat n) hextable x00.

(** [hex.Encode]'s loop body: [hextable[v>>4]], [hextable[v&0x0f]]. *)
Definition hex_encode_byte (v : byte) : list byte :=
  [hex_digit (N.shiftr (Byte.to_N v) 4); hex_digit (N.land (Byte.to_N v) 15)].

(** [hex.EncodeToString], as bytes. *)
Definition hex_EncodeToString (src : list byte) : list byte :=
  flat_map hex_encode_byte src.

(** [reverseHexTable]: the value of a hexadecimal digit, of either case;
    every other byte maps to 0xff. *)
Definition fromHexChar (c : byte) : N :=
  let n := Byte.to_N c in
  if (48 <=? n)%N && (n <=? 57)%N then (n - 48)%N
  else if (97 <=? n)%N && (n <=? 102)%N then (n - 97 + 10)%N
  else if (65 <=? n)%N && (n <=? 70)%N then (n - 65 + 10)%N
  else 255%N.

Inductive hex_error : Type :=
| InvalidByteError (b : byte)
| ErrLength.

(** A Go [error] value: one made by [fmt.Errorf], carrying its message, or
    one returned by encoding/hex. *)
Inductive error : Type :=
| errorString (msg : list byte)
| hexError (e : hex_error).

(** [hex.Decode]: pairs of digits, left to right; the first invalid byte is
    reported; a trailing single digit is [ErrLength]. *)
Fixpoint hex_Decode (src : list byte) : Result hex_error (list byte) :=
  match src with
  | [] => Ok []
  | [p] => if (15 <? fromHexChar p)%N then Err (InvalidByteError p) else Err ErrLength
  | p :: q :: rest =>
      if (15 <? fromHexChar p)%N then Err (InvalidByteError p)
      else if (15 <? fromHexChar q)%N then Err (InvalidByteError q)
      else match hex_Decode rest with
           | Ok dst => Ok (byte_of_N (N.lor (N.shiftl (fromHexChar p) 4) (fromHexChar q)) :: dst)
           | Err e => Err e
           end
  end.

Definition hex_DecodeString (s : list byte) : Result hex_error (list byte) := hex_Decode s.

(** ** strconv *)

Definition digit_char (d : Z) : byte := byte_of_Z (48 + d).

(** The decimal digits of a natural number, most significant first. *)
Fixpoint digits_fuel (fuel : nat) (n : Z) (acc : list byte) : list byte :=
  match fuel with
  | O => acc
  | S k =>
      let acc' := digit_char (n mod 10) :: acc in
      if n <? 10 then acc' else digits_fuel k (n / 10) acc'
  end.

Definition format_uint (n : Z) : list byte := digits_fuel (S (Z.to_nat (Z.log2 n))) n [].

(** [strconv.FormatInt(i, 10)]: minimal decimal, a minus sign when negative. *)
Definition strconv_FormatInt (i : Z) : list byte :=
  if i <? 0 then lit "-" ++ format_uint (- i) else format_uint i.

(** ** math/big *)

(** [new(big.Int).SetBytes(b)]: big-endian unsigned. *)
Definition big_SetBytes (b : list byte) : Z :=
  fold_left (fun acc x => acc * 256 + Z_of_byte x) b 0.

(** [i.Bytes()]: the big-endian bytes of the absolute value, no leading zero. *)
Fixpoint bytes_fuel (fuel : nat) (n : Z) (acc : list byte) : list byte :=
  match fuel with
  | O => acc
  | S k => if n =? 0 then acc else bytes_fuel k (n / 256) (byte_of_Z (n mod 256) :: acc)
  end.

Definition big_Bytes (i : Z) : list byte :=
  bytes_fuel (S (Z.to_nat (Z.log2 (Z.abs i)))) (Z.abs i) [].

(** ** golang.org/x/crypto/sha3: SHA3-256 (FIPS 202) *)

Module Sha3.
Local Open Scope N_scope.

Definition lane_mask : N := 0xFFFFFFFFFFFFFFFF.

(** Rotate a 64-bit lane left. *)
Definition rotl (x : N) (k : N) : N :=
  N.lor (N.land (N.shiftl x k) lane_mask) (N.shiftr x (64 - k)).

Definition lane_not (x : N) : N := N.lxor x lane_mask.

(** The state is 25 lanes; lane [(x, y)] is at index [x + 5 * y]. *)
Definition lane (st : list N) (x y : nat) : N := nth ((x mod 5) + 5 * (y mod 5))%nat st 0.

Definition idx25 : list nat := seq 0 25.

Definition theta (st : list N) : list N :=
  let C := fun x => N.lxor (lane st x 0) (N.lxor (lane st x 1)
                     (N.lxor (lane st x 2) (N.lxor (lane st x 3) (lane st x 4)))) in
  let D := fun x => N.lxor (C (x + 4)%nat) (rotl (C (x + 1)%nat) 1) in
  map (fun i => N.lxor (nth i st 0) (D (i mod 5)%nat)) idx25.

Definition rotation_offsets : list N :=
  [ 0;  1; 62; 28; 27;
   36; 44;  6; 55; 20;
    3; 10; 43; 25; 39;
   41; 45; 15; 21;  8;
   18;  2; 61; 56; 14].

(** rho and pi together: [B[y, 2x+3y] = rotl(A[x, y], r[x, y])]; read
    backwards, the lane at [(X, Y)] comes from [x = (X + 3Y) mod 5],
    [y = X]. *)
Definition rho_pi (st : list N) : list N :=
  map (fun i =>
         let X := (i mod 5)%nat in
         let Y := (i / 5)%nat in
         let x := ((X + 3 * Y) mod 5)%nat in
         let y := X in
         rotl (lane st x y) (nth (x + 5 * y)%nat rotation_offsets 0)) idx25.

Definition chi (st : list N) : list N :=
  map (fun i =>
         let x := (i mod 5)%nat in
         let y := (i / 5)%nat in
         N.lxor (lane st x y)
                (N.land (lane_not (lane st (x + 1) y)) (lane st (x + 2) y))) idx25.

Definition iota (rc : N) (st : list N) : list N :=
  match st with
  | [] => []
  | a :: rest => N.lxor a rc :: rest
  end.

Definition round_constants : list N :=
  [0x0000000000000001; 0x0000000000008082; 0x800000000000808A; 0x8000000080008000;
   0x000000000000808B; 0x0000000080000001; 0x8000000080008081; 0x8000000000008009;
   0x000000000000008A; 0x0000000000000088; 0x0000000080008009; 0x000000008000000A;
   0x000000008000808B; 0x800000000000008B; 0x8000000000008089; 0x8000000000008003;
   0x8000000000008002; 0x8000000000000080; 0x000000000000800A; 0x800000008000000A;
   0x8000000080008081; 0x8000000000008080; 0x0000000080000001; 0x8000000080008008].

Definition keccak_f (st : list N) : list N :=
  fold_left (fun s rc => iota rc (chi (rho_pi (theta s)))) round_constants st.

(** A lane read from, and written as, eight little-endian bytes. *)
Definition lane_of_bytes (bs : list byte) : N :=
  fold_right (fun b acc => Byte.to_N b + 256 * acc) 0 bs.

Definition bytes_of_lane (l : N) : list byte :=
  [byte_of_N l; byte_of_N (N.shiftr l 8); byte_of_N (N.shiftr l 16);
   byte_of_N (N.shiftr l 24); byte_of_N (N.shiftr l 32); byte_of_N (N.shiftr l 40);
   byte_of_N (N.shiftr l 48); byte_of_N (N.shiftr l 56)].

(** SHA3-256 absorbs 136 bytes (17 lanes) per permutation. *)
Definition rate : nat := 136.

Definition xor_block (st : list N) (block : list byte) : list N :=
  map (fun i =>
         if (i <? 17)%nat
         then N.lxor (nth i st 0) (lane_of_bytes (take 8 (drop (8 * i) block)))
         else nth i st 0) idx25.

Fixpoint absorb (blocks : nat) (st : list N) (msg : list byte) : list N :=
  match blocks with
  | O => st
  | S k => absorb k (keccak_f (xor_block st (take rate msg))) (drop rate msg)
  end.

(** Domain suffix 0x06, zero fill, final bit 0x80 (0x86 when both fall in
    one byte). *)
Definition pad (msg : list byte) : list byte :=
  let fill := (rate - 1 - (length msg mod rate))%nat in
  match fill with
  | O => msg ++ [x86]
  | S k => msg ++ [x06] ++ repeat x00 k ++ [x80]
  end.

Definition Sum256 (msg : list byte) : list byte :=
  let p := pad msg in
  let st := absorb (length p / rate) (repeat 0 25) p in
  flat_map bytes_of_lane [nth 0 st 0; nth 1 st 0; nth 2 st 0; nth 3 st 0].
End Sha3.

Definition sha3_Sum256 (data : list byte) : list byte := Sha3.Sum256 data.

(** [hash.Hash] as the scriber uses it: the state is determined by the bytes
    written since the last reset; [Sum] leaves it unchanged. *)
Definition hash_Hash : Type := list byte.
Definition sha3_New256 : hash_Hash := [].
Definition hash_Write (h : hash_Hash) (p : list byte) : hash_Hash := h ++ p.
Definition hash_Sum (h : hash_Hash) (b : list byte) : list byte := b ++ sha3_Sum256 h.

(** ** encoding/base64, [StdEncoding] *)

Definition encodeStd : list byte :=
  lit "ABCDEFGHIJKLMNOPQRSTUVWXYZabcdefghijklmnopqrstuvwxyz0123456789+/".

Definition b64_char (n : N) : byte := nth (N.to_nat (N.land n 63)) encodeStd x00.

Fixpoint base64_EncodeToString (src : list byte) : list byte :=
  match src with
  | [] => []
  | [a] =>
      let v := N.shiftl (Byte.to_N a) 16 in
      [b64_char (N.shiftr v 18); b64_char (N.shiftr v 12)] ++ lit "=="
  | [a; b] =>
      let v := N.lor (N.shiftl (Byte.to_N a) 16) (N.shiftl (Byte.to_N b) 8) in
      [b64_char (N.shiftr v 18); b64_char (N.shiftr v 12); b64_char (N.shiftr v 6)] ++ lit "="
  | a :: b :: c :: rest =>
      let v := N.lor (N.lor (N.shiftl (Byte.to_N a) 16) (N.shiftl (Byte.to_N b) 8)) (Byte.to_N c) in
      [b64_char (N.shiftr v 18); b64_char (N.shiftr v 12); b64_char (N.shiftr v 6); b64_char v]
        ++ base64_EncodeToString rest
  end.

(** ** Machine integers *)

Definition wrap32 (z : Z) : Z := (z + 2 ^ 31) mod 2 ^ 32 - 2 ^ 31.
Definition wrap64 (z : Z) : Z := (z + 2 ^ 63) mod 2 ^ 64 - 2 ^ 63.

Definition is_int32 (z : Z) : Prop := - 2 ^ 31 <= z < 2 ^ 31.
Definition is_int64 (z : Z) : Prop := - 2 ^ 63 <= z < 2 ^ 63.

(** Go's built-in [copy(dst, src)]: the first [min(len(dst), len(src))]
    bytes of [dst] are replaced. *)
Definition go_copy (dst src : list byte) : list byte :=
  take (length dst) src ++ drop (length src) dst.

(** ** Identifiers *)

(** [type PlotID [32]byte] and [type InteractionID [32]byte]. *)
Abbreviation PlotID := (list byte).
Abbreviation InteractionID := (list byte).

Definition wf_id (id : list byte) : Prop := length id = 32%nat.

(** The zero value of a [[32]byte]. *)
Definition zero_id : list byte := replicate 32 x00.

Definition PlotID_String (id : PlotID) : list byte := hex_EncodeToString id.
Definition InteractionID_String (id : InteractionID) : list byte := hex_EncodeToString id.

Definition PlotID_MarshalJSON (id : PlotID) : Result error (list byte) :=
  Ok ([dquote] ++ PlotID_String id ++ [dquote]).

Definition InteractionID_MarshalJSON (id : InteractionID) : Result error (list byte) :=
  Ok ([dquote] ++ InteractionID_String id ++ [dquote]).

(** [b[1 : len(b)-1]] *)
Definition strip_ends (b : list byte) : list byte := take (length b - 2) (drop 1 b).

(** [func (id *PlotID) UnmarshalJSON(b []byte) error]: the new value of
    [*id], or the error (and [*id] is left as it was). *)
Definition PlotID_UnmarshalJSON (id : PlotID) (b : list byte) : Result error PlotID :=
  if negb (len b =? 64 + 2) then Err (errorString (lit "Invalid plot ID"))
  else match hex_DecodeString (strip_ends b) with
       | Err e => Err (hexError e)
       | Ok idBytes => Ok (go_copy id idBytes)
       end.

Definition InteractionID_UnmarshalJSON (id : InteractionID) (b : list byte)
  : Result error InteractionID :=
  if negb (len b =? 64 + 2) then Err (errorString (lit "Invalid interaction ID"))
  else match hex_DecodeString (strip_ends b) with
       | Err e => Err (hexError e)
       | Ok idBytes => Ok (go_copy id idBytes)
       end.

(** [func (id PlotID) GetBigInt() *big.Int] *)
Definition PlotID_GetBigInt (id : PlotID) : Z := big_SetBytes id.

(** [func (id *PlotID) SetBigInt(i *big.Int) *PlotID]; [None] is the panic
    [Too much work]. *)
Definition PlotID_SetBigInt (id : PlotID) (i : Z) : option PlotID :=
  let intBytes := big_Bytes i in
  if 32 <? len intBytes then None
  else
    let zeroed := map (fun _ => x00) id in
    Some (take (32 - length intBytes) zeroed
            ++ go_copy (drop (32 - length intBytes) zeroed) intBytes).

(** ** Interactions *)

Record Interaction : Type := mkInteraction {
  Time : Z;                 (* int64 *)
  Nonce : Z;                (* int32 *)
  From : list byte;         (* ed25519.PublicKey *)
  To : list byte;           (* ed25519.PublicKey *)
  Memo : list byte;         (* string *)
  Matures : Z;              (* int64 *)
  Expires : Z;              (* int64 *)
  Series : Z;               (* int64 *)
  Signature : list byte     (* Signature; nil is the empty list *)
}.

(** [bytes.Equal] *)
Definition bytes_Equal (a b : list byte) : bool := bool_decide (a = b).

(** The decoding of the base64 text of 43 letters [A] and one [=]: 32 zero
    bytes. *)
Definition baseKey : list byte := replicate 32 x00.

Section Series.
(** The protocol constant [PLOTS_UNTIL_NEW_SERIES]; its declaration is not
    among the sources. *)
Variable PLOTS_UNTIL_NEW_SERIES : Z.

(** Go's [/] on integers truncates toward zero: [Z.quot]. *)
Definition computeInteractionSeries (isPlotroot : bool) (height : Z) : Z :=
  if isPlotroot then
    wrap64 (wrap64 (Z.quot height PLOTS_UNTIL_NEW_SERIES) + 1)
  else
    wrap64 (wrap64 (Z.quot (wrap64 (height - 100)) PLOTS_UNTIL_NEW_SERIES) + 1).

(** [NewInteraction]; the clock reading [now] and the random [nonce] are
    inputs. *)
Definition NewInteraction (now nonce : Z) (from to : list byte)
    (matures expires height : Z) (memo : list byte) : Interaction :=
  {| Time := now;
     Nonce := nonce;
     From := from;
     To := to;
     Memo := memo;
     Matures := matures;
     Expires := expires;
     Series := computeInteractionSeries (bytes_Equal baseKey from) height;
     Signature := [] |}.
End Series.

Definition IsPlotroot (tx : Interaction) : bool := bytes_Equal baseKey (From tx).

Definition Contains (tx : Interaction) (pubKey : list byte) : bool :=
  if negb (IsPlotroot tx) && bytes_Equal pubKey (From tx) then true
  else bytes_Equal pubKey (To tx).

Definition IsMature (tx : Interaction) (height : Z) : bool :=
  if Matures tx =? 0 then true else height <=? Matures tx.

Definition IsExpired (tx : Interaction) (height : Z) : bool :=
  if Expires tx =? 0 then false else Expires tx <? height.

Definition clear_signature (tx : Interaction) : Interaction :=
  {| Time := Time tx; Nonce := Nonce tx; From := From tx; To := To tx;
     Memo := Memo tx; Matures := Matures tx; Expires := Expires tx;
     Series := Series tx; Signature := [] |}.

(** ** Plot headers *)

Record PlotHeader : Type := mkPlotHeader {
  Previous : PlotID;
  HashListRoot : InteractionID;
  HTime : Z;               (* Time int64 *)
  Target : PlotID;
  ThreadWork : PlotID;
  HNonce : Z;              (* Nonce int64 *)
  Height : Z;              (* int64 *)
  InteractionCount : Z     (* int32 *)
}.

(** The values a Go [PlotHeader] can hold. *)
Definition wf_header (hd : PlotHeader) : Prop :=
  wf_id (Previous hd) /\ wf_id (HashListRoot hd) /\ wf_id (Target hd) /\
  wf_id (ThreadWork hd) /\ is_int64 (HTime hd) /\ is_int64 (HNonce hd) /\
  is_int64 (Height hd) /\ is_int32 (InteractionCount hd).

(** *** encoding/json on a struct

    [json.Marshal] writes an opening brace, then for each exported field in
    declaration order its quoted tag, a colon and its value, the fields
    separated by commas, then a closing brace.  An integer is written by
    [strconv.AppendInt]; a type with a [MarshalJSON] method writes what the
    method returns. *)

Definition json_key (name : string) : list byte :=
  [dquote] ++ list_byte_of_string name ++ [dquote] ++ lit ":".

Definition json_int (v : Z) : Result error (list byte) := Ok (strconv_FormatInt v).

Fixpoint json_fields (first : bool) (fs : list (string * Result error (list byte)))
  : Result error (list byte) :=
  match fs with
  | [] => Ok []
  | (k, v) :: rest =>
      match v with
      | Err e => Err e
      | Ok vb =>
          match json_fields false rest with
          | Err e => Err e
          | Ok r => Ok ((if first then [] else lit ",") ++ json_key k ++ vb ++ r)
          end
      end
  end.

Definition json_object (fs : list (string * Result error (list byte)))
  : Result error (list byte) :=
  match json_fields true fs with
  | Err e => Err e
  | Ok body => Ok (lit "{" ++ body ++ lit "}")
  end.

(** [json.Marshal(header)] *)
Definition json_Marshal_PlotHeader (header : PlotHeader) : Result error (list byte) :=
  json_object
    [("previous"%string, PlotID_MarshalJSON (Previous header));
     ("hash_list_root"%string, InteractionID_MarshalJSON (HashListRoot header));
     ("time"%string, json_int (HTime header));
     ("target"%string, PlotID_MarshalJSON (Target header));
     ("thread_work"%string, PlotID_MarshalJSON (ThreadWork header));
     ("nonce"%string, json_int (HNonce header));
     ("height"%string, json_int (Height header));
     ("interaction_count"%string, json_int (InteractionCount header))].

(** [func (header PlotHeader) ID() (PlotID, error)] *)
Definition PlotHeader_ID (header : PlotHeader) : Result error PlotID :=
  match json_Marshal_PlotHeader header with
  | Err e => Err e
  | Ok headerJson => Ok (sha3_Sum256 headerJson)
  end.

(** [x.Cmp(y)] *)
Definition big_Cmp (x y : Z) : Z :=
  match x ?= y with
  | Lt => -1
  | Eq => 0
  | Gt => 1
  end.

(** [z.Div(x, y)]: Euclidean division, [y] not zero. *)
Definition big_Div (x y : Z) : Z := if 0 <? y then x / y else - (x / (- y)).

Definition computePlotWork (target : PlotID) : Z :=
  let plotWorkInt := 0 in
  let targetInt := PlotID_GetBigInt target in
  if big_Cmp targetInt plotWorkInt <=? 0 then plotWorkInt
  else
    let maxInt := 2 ^ 256 in
    let targetInt := targetInt + 1 in
    big_Div maxInt targetInt.

(** [None] is the panic of [SetBigInt]. *)
Definition computeThreadWork (target threadWork : PlotID) : option PlotID :=
  let plotWorkInt := computePlotWork target in
  let threadWorkInt := PlotID_GetBigInt threadWork in
  let threadWorkInt := threadWorkInt + plotWorkInt in
  PlotID_SetBigInt zero_id threadWorkInt.

(** [func (header PlotHeader) Compare(theirHeader *PlotHeader, thisWhen,
    theirWhen int64) bool]; [None] is [panic(err)]. *)
Definition Compare (header theirHeader : PlotHeader) (thisWhen theirWhen : Z) : option bool :=
  let thisWorkInt := PlotID_GetBigInt (ThreadWork header) in
  let theirWorkInt := PlotID_GetBigInt (ThreadWork theirHeader) in
  if 0 <? big_Cmp thisWorkInt theirWorkInt then Some true
  else if big_Cmp thisWorkInt theirWorkInt <? 0 then Some false
  else if thisWhen <? theirWhen then Some true
  else if theirWhen <? thisWhen then Some false
  else
    match PlotHeader_ID header with
    | Err _ => None
    | Ok thisID =>
        match PlotHeader_ID theirHeader with
        | Err _ => None
        | Ok theirID =>
            Some (big_Cmp (PlotID_GetBigInt thisID) (PlotID_GetBigInt theirID) <? 0)
        end
    end.

(** ** Plots *)

Record Plot : Type := mkPlot {
  Header : PlotHeader;
  Interactions : list Interaction;
  hasher : option hash_Hash   (* nil unless made by NewPlot *)
}.

Definition CheckPOW (b : Plot) (id : PlotID) : bool :=
  big_Cmp (PlotID_GetBigInt id) (PlotID_GetBigInt (Target (Header b))) <=? 0.

Definition set_HashListRoot (hd : PlotHeader) (r : InteractionID) : PlotHeader :=
  {| Previous := Previous hd; HashListRoot := r; HTime := HTime hd; Target := Target hd;
     ThreadWork := ThreadWork hd; HNonce := HNonce hd; Height := Height hd;
     InteractionCount := InteractionCount hd |}.

Definition set_InteractionCount (hd : PlotHeader) (c : Z) : PlotHeader :=
  {| Previous := Previous hd; HashListRoot := HashListRoot hd; HTime := HTime hd;
     Target := Target hd; ThreadWork := ThreadWork hd; HNonce := HNonce hd;
     Height := Height hd; InteractionCount := c |}.

Section Plots.
(** [json.Marshal] on an [Interaction], a function of encoding/json. *)
Variable json_Marshal_Interaction : Interaction -> Result error (list byte).
(** The protocol constant; its declaration is not among the sources. *)
Variable MAX_INTERACTIONS_PER_PLOT : Z.

(** [func (tx Interaction) ID() (InteractionID, error)] *)
Definition Interaction_ID (tx : Interaction) : Result error InteractionID :=
  let tx := clear_signature tx in
  match json_Marshal_Interaction tx with
  | Err e => Err e
  | Ok txJson => Ok (sha3_Sum256 txJson)
  end.

Definition addPlotrootToHashListRoot (hasher : hash_Hash) (plotroot : Interaction)
  : Result error InteractionID :=
  let rootHashWithoutPlotroot := hash_Sum hasher [] in
  match Interaction_ID plotroot with
  | Err e => Err e
  | Ok id =>
      let rootHash := sha3_New256 in
      let rootHash := hash_Write rootHash id in
      let rootHash := hash_Write rootHash rootHashWithoutPlotroot in
      Ok (go_copy zero_id (hash_Sum rootHash []))
  end.

(** The loop over [interactions[1:]]: the hasher after the loop and, when an
    id could not be computed, the error returned from inside it. *)
Fixpoint hash_ids (hasher : hash_Hash) (txs : list Interaction) : hash_Hash * option error :=
  match txs with
  | [] => (hasher, None)
  | tx :: rest =>
      match Interaction_ID tx with
      | Err e => (hasher, Some e)
      | Ok id => hash_ids (hash_Write hasher id) rest
      end
  end.

(** [computeHashListRoot]: the hasher as the call leaves it, and what is
    returned; [None] is the panic of [interactions[1:]] on an empty slice. *)
Definition computeHashListRoot (hasher : option hash_Hash) (interactions : list Interaction)
  : option (hash_Hash * Result error InteractionID) :=
  let hasher := match hasher with None => sha3_New256 | Some h => h end in
  match interactions with
  | [] => None
  | plotroot :: others =>
      match hash_ids hasher others with
      | (hasher, Some e) => Some (hasher, Err e)
      | (hasher, None) => Some (hasher, addPlotrootToHashListRoot hasher plotroot)
      end
  end.

(** [NewPlot]; the clock reading and the random nonce are inputs. *)
Definition NewPlot (now nonce : Z) (previous : PlotID) (height : Z)
    (target threadWork : PlotID) (interactions : list Interaction)
  : option (Result error Plot) :=
  if MAX_INTERACTIONS_PER_PLOT <? len interactions
  then Some (Err (errorString (lit "Interaction list size exceeds limit per plot")))
  else
    '(hasher, r) ← computeHashListRoot (Some sha3_New256) interactions;
    match r with
    | Err e => Some (Err e)
    | Ok hashListRoot =>
        newThreadWork ← computeThreadWork target threadWork;
        Some (Ok {| Header := {| Previous := previous;
                                 HashListRoot := hashListRoot;
                                 HTime := now;
                                 Target := target;
                                 ThreadWork := newThreadWork;
                                 HNonce := nonce;
                                 Height := height;
                                 InteractionCount := wrap32 (len interactions) |};
                    Interactions := interactions;
                    hasher := Some hasher |})
    end.

(** [AddInteraction]: the plot as the call leaves it and the error returned;
    [None] is a panic (no hasher, or no plotroot). *)
Definition AddInteraction (b : Plot) (id : InteractionID) (tx : Interaction)
  : option (Plot * option error) :=
  h ← hasher b;
  let h := hash_Write h id in
  plotroot ← head (Interactions b);
  match addPlotrootToHashListRoot h plotroot with
  | Err e =>
      Some ({| Header := set_HashListRoot (Header b) zero_id;
               Interactions := Interactions b;
               hasher := Some h |}, Some e)
  | Ok root =>
      Some ({| Header := set_InteractionCount (set_HashListRoot (Header b) root)
                           (wrap32 (InteractionCount (Header b) + 1));
               Interactions := Interactions b ++ [tx];
               hasher := Some h |}, None)
  end.
End Plots.

(** ** The header hasher *)

Record PlotHeaderHasher : Type := mkPlotHeaderHasher {
  (* these can change per attempt *)
  previousHashListRoot : InteractionID;
  previousTime : Z;
  previousNonce : Z;
  previousInteractionCount : Z;
  (* offsets of mutable fields in the buffer *)
  hashListRootOffset : Z;
  timeOffset : Z;
  nonceOffset : Z;
  interactionCountOffset : Z;
  (* used for calculating a running offset *)
  timeLen : Z;
  nonceLen : Z;
  txCountLen : Z;
  (* used for hashing *)
  initialized : bool;
  bufLen : Z;
  buffer : list byte;
  resultBuf : list byte;
  result : Z;
  hashesPerAttempt : Z
}.

(** Static fields *)
Definition hdrPrevious : list byte := lit "{'previous':'".
Definition hdrHashListRoot : list byte := lit "','hash_list_root':'".
Definition hdrTime : list byte := lit "','time':".
Definition hdrTarget : list byte := lit ",'target':'".
Definition hdrThreadWork : list byte := lit "','thread_work':'".
Definition hdrNonce : list byte := lit "','nonce':".
Definition hdrHeight : list byte := lit ",'height':".
Definition hdrInteractionCount : list byte := lit ",'interaction_count':".
Definition hdrEnd : list byte := lit "}".

Definition NewPlotHeaderHasher : PlotHeaderHasher :=
  let bufLen := len hdrPrevious + len hdrHashListRoot + len hdrTime + len hdrTarget in
  let bufLen := bufLen + (len hdrThreadWork + len hdrNonce + len hdrHeight
                          + len hdrInteractionCount) in
  let bufLen := bufLen + (len hdrEnd + 4 * 64 + 3 * 19 + 10) in
  {| previousHashListRoot := zero_id;
     previousTime := 0;
     previousNonce := 0;
     previousInteractionCount := 0;
     hashListRootOffset := 0;
     timeOffset := 0;
     nonceOffset := 0;
     interactionCountOffset := 0;
     timeLen := 0;
     nonceLen := 0;
     txCountLen := 0;
     initialized := false;
     bufLen := 0;
     buffer := replicate (Z.to_nat bufLen) x00;
     resultBuf := zero_id;
     result := 0;
     hashesPerAttempt := 1 |}.

(** *** Slices of the buffer

    [h.buffer] is a slice whose length is its capacity.  The code writes to
    it through [copy] and [hex.Encode] on [h.buffer[off:]], and through
    [append] on [h.buffer[:n]]: an [append] that fits the capacity writes
    into the array of [h.buffer] itself, one that does not fit copies the
    slice to a new array and leaves [h.buffer] alone. *)

(** Bytes [off .. off + len d) of [buf] replaced by [d]. *)
Definition overwrite (buf : list byte) (off : Z) (d : list byte) : list byte :=
  take (Z.to_nat off) buf ++ d ++ drop (Z.to_nat off + length d) buf.

Inductive slice : Type :=
| Shared (n : Z)                 (* h.buffer[:n], on the array of h.buffer *)
| Detached (data : list byte).   (* a reallocated copy *)

Definition slice_len (s : slice) : Z :=
  match s with
  | Shared n => n
  | Detached d => len d
  end.

(** [h.buffer[:n]]; out of range panics. *)
Definition slice_to (hbuf : list byte) (n : Z) : option slice :=
  if (0 <=? n) && (n <=? len hbuf) then Some (Shared n) else None.

(** [append(s, d...)]: the array of [h.buffer] after the call, and the
    slice returned. *)
Definition go_append (hbuf : list byte) (s : slice) (d : list byte) : list byte * slice :=
  match s with
  | Shared n =>
      if n + len d <=? len hbuf then (overwrite hbuf n d, Shared (n + len d))
      else (hbuf, Detached (take (Z.to_nat n) hbuf ++ d))
  | Detached x => (hbuf, Detached (x ++ d))
  end.

(** [strconv.AppendInt(s, i, 10)] *)
Definition strconv_AppendInt (hbuf : list byte) (s : slice) (i : Z) : list byte * slice :=
  go_append hbuf s (strconv_FormatInt i).

(** [len(s[k:])]; out of range panics. *)
Definition len_from (s : slice) (k : Z) : option Z :=
  if (0 <=? k) && (k <=? slice_len s) then Some (slice_len s - k) else None.

(** [copy(h.buffer[off:], src)]: copies what fits; [off] out of range
    panics. *)
Definition copy_at (hbuf : list byte) (off : Z) (src : list byte) : option (list byte) :=
  if (0 <=? off) && (off <=? len hbuf)
  then Some (overwrite hbuf off (take (Z.to_nat (len hbuf - off)) src))
  else None.

(** [hex.Encode(h.buffer[off:], src)]: the buffer and the count written; a
    destination too short panics. *)
Definition hex_Encode_at (hbuf : list byte) (off : Z) (src : list byte)
  : option (list byte * Z) :=
  if (0 <=? off) && (off <=? len hbuf) && (2 * len src <=? len hbuf - off)
  then Some (overwrite hbuf off (hex_EncodeToString src), 2 * len src)
  else None.

(** [initBuffer]; [None] is a panic. *)
Definition initBuffer (h : PlotHeaderHasher) (header : PlotHeader) : option PlotHeaderHasher :=
  (* previous *)
  buf ← copy_at (buffer h) 0 hdrPrevious;
  let n := len hdrPrevious in
  '(buf, written) ← hex_Encode_at buf n (Previous header);
  let n := n + written in
  (* hash_list_root *)
  buf ← copy_at buf n hdrHashListRoot;
  let n := n + len hdrHashListRoot in
  let hashListRootOffset' := n in
  '(buf, written) ← hex_Encode_at buf n (HashListRoot header);
  let n := n + written in
  (* time *)
  buf ← copy_at buf n hdrTime;
  let n := n + len hdrTime in
  let timeOffset' := n in
  s ← slice_to buf n;
  let '(buf, sl) := strconv_AppendInt buf s (HTime header) in
  timeLen' ← len_from sl n;
  let n := n + timeLen' in
  (* target *)
  let '(buf, sl) := go_append buf sl hdrTarget in
  let n := n + len hdrTarget in
  '(buf, written) ← hex_Encode_at buf n (Target header);
  let n := n + written in
  (* thread_work *)
  buf ← copy_at buf n hdrThreadWork;
  let n := n + len hdrThreadWork in
  '(buf, written) ← hex_Encode_at buf n (ThreadWork header);
  let n := n + written in
  (* nonce *)
  buf ← copy_at buf n hdrNonce;
  let n := n + len hdrNonce in
  let nonceOffset' := n in
  s ← slice_to buf n;
  let '(buf, sl) := strconv_AppendInt buf s (HNonce header) in
  nonceLen' ← len_from sl n;
  let n := n + nonceLen' in
  (* height *)
  let '(buf, sl) := go_append buf sl hdrHeight in
  let n := n + len hdrHeight in
  let '(buf, sl) := strconv_AppendInt buf sl (Height header) in
  k ← len_from sl n;
  let n := n + k in
  (* interaction_count *)
  let '(buf, sl) := go_append buf sl hdrInteractionCount in
  let n := n + len hdrInteractionCount in
  let interactionCountOffset' := n in
  let '(buf, sl) := strconv_AppendInt buf sl (InteractionCount header) in
  txCountLen' ← len_from sl n;
  let n := n + txCountLen' in
  let '(buf, sl) := go_append buf sl hdrEnd in
  k ← len_from sl n;
  Some {| previousHashListRoot := HashListRoot header;
          previousTime := HTime header;
          previousNonce := HNonce header;
          previousInteractionCount := InteractionCount header;
          hashListRootOffset := hashListRootOffset';
          timeOffset := timeOffset';
          nonceOffset := nonceOffset';
          interactionCountOffset := interactionCountOffset';
          timeLen := timeLen';
          nonceLen := nonceLen';
          txCountLen := txCountLen';
          initialized := true;
          bufLen := k + n;
          buffer := buf;
          resultBuf := resultBuf h;
          result := result h;
          hashesPerAttempt := hashesPerAttempt h |}.

(** The branch of [Update] taken once the buffer is initialized: each field
    that changed, or that has moved, is written again.  The four blocks of
    that branch follow, each returning the fields it assigns and the buffer
    as it leaves it; [deviceScribing] is the constant [false]. *)
Definition deviceScribing : bool := false.

(** hash_list_root: fixed width, written in place. *)
Definition update_hash_list_root (h : PlotHeaderHasher) (header : PlotHeader)
  : option (InteractionID * list byte) :=
  if bool_decide (previousHashListRoot h ≠ HashListRoot header) then
    '(buf, _) ← hex_Encode_at (buffer h) (hashListRootOffset h) (HashListRoot header);
    Some (HashListRoot header, buf)
  else Some (previousHashListRoot h, buffer h).

(** time: [previousTime], [timeLen], [offset] and the buffer. *)
Definition update_time (h : PlotHeaderHasher) (header : PlotHeader) (offset : Z)
    (buf : list byte) : option (Z * Z * Z * list byte) :=
  if bool_decide (previousTime h ≠ HTime header) then
    (* write out the new value *)
    let n := timeOffset h in
    s ← slice_to buf n;
    let '(buf, sl) := strconv_AppendInt buf s (HTime header) in
    timeLen' ← len_from sl n;
    let n := n + timeLen' in
    (* did time shrink or grow in length? *)
    let offset := timeLen' - timeLen h in
    buf ← (if bool_decide (offset ≠ 0) then
             (* shift everything below up or down *)
             (* target *)
             buf ← copy_at buf n hdrTarget;
             let n := n + len hdrTarget in
             '(buf, written) ← hex_Encode_at buf n (Target header);
             let n := n + written in
             (* thread_work *)
             buf ← copy_at buf n hdrThreadWork;
             let n := n + len hdrThreadWork in
             '(buf, written) ← hex_Encode_at buf n (ThreadWork header);
             let n := n + written in
             (* start of nonce *)
             copy_at buf n hdrNonce
           else Some buf);
    Some (HTime header, timeLen', offset, buf)
  else Some (previousTime h, timeLen h, offset, buf).

(** nonce: [previousNonce], [nonceOffset], [nonceLen], [offset] and the
    buffer. *)
Definition update_nonce (h : PlotHeaderHasher) (header : PlotHeader) (offset : Z)
    (buf : list byte) : option (Z * Z * Z * Z * list byte) :=
  if bool_decide (offset ≠ 0)
     || (negb deviceScribing && bool_decide (previousNonce h ≠ HNonce header)) then
    (* write out the new value (or old value at a new location) *)
    let nonceOffset' := nonceOffset h + offset in
    let n := nonceOffset' in
    s ← slice_to buf n;
    let '(buf, sl) := strconv_AppendInt buf s (HNonce header) in
    nonceLen' ← len_from sl n;
    (* did nonce shrink or grow in length? *)
    let offset := offset + (nonceLen' - nonceLen h) in
    let buf :=
      if bool_decide (offset ≠ 0) then
        (* shift everything below up or down *)
        (* height *)
        let '(buf, sl) := go_append buf sl hdrHeight in
        let '(buf, sl) := strconv_AppendInt buf sl (Height header) in
        (* start of interaction_count *)
        let '(buf, sl) := go_append buf sl hdrInteractionCount in
        buf
      else buf in
    Some (HNonce header, nonceOffset', nonceLen', offset, buf)
  else Some (previousNonce h, nonceOffset h, nonceLen h, offset, buf).

(** interaction_count: [previousInteractionCount],
    [interactionCountOffset], [txCountLen], [offset] and the buffer. *)
Definition update_interaction_count (h : PlotHeaderHasher) (header : PlotHeader)
    (offset : Z) (buf : list byte) : option (Z * Z * Z * Z * list byte) :=
  if bool_decide (offset ≠ 0)
     || bool_decide (previousInteractionCount h ≠ InteractionCount header) then
    (* write out the new value (or old value at a new location) *)
    let interactionCountOffset' := interactionCountOffset h + offset in
    let n := interactionCountOffset' in
    s ← slice_to buf n;
    let '(buf, sl) := strconv_AppendInt buf s (InteractionCount header) in
    txCountLen' ← len_from sl n;
    (* did count shrink or grow in length? *)
    let offset := offset + (txCountLen' - txCountLen h) in
    let buf :=
      if bool_decide (offset ≠ 0) then
        (* shift the footer up or down *)
        let '(buf, sl) := go_append buf sl hdrEnd in
        buf
      else buf in
    Some (InteractionCount header, interactionCountOffset', txCountLen', offset, buf)
  else Some (previousInteractionCount h, interactionCountOffset h, txCountLen h, offset, buf).

Definition updateBuffer (h : PlotHeaderHasher) (header : PlotHeader) : option PlotHeaderHasher :=
  '(previousHashListRoot', buf) ← update_hash_list_root h header;
  let offset := 0 in
  '(previousTime', timeLen', offset, buf) ← update_time h header offset buf;
  '(previousNonce', nonceOffset', nonceLen', offset, buf) ← update_nonce h header offset buf;
  '(previousInteractionCount', interactionCountOffset', txCountLen', offset, buf) ←
    update_interaction_count h header offset buf;
  (* it's possible (likely) we did a bunch of encoding with no net impact to
     the buffer length *)
  Some {| previousHashListRoot := previousHashListRoot';
          previousTime := previousTime';
          previousNonce := previousNonce';
          previousInteractionCount := previousInteractionCount';
          hashListRootOffset := hashListRootOffset h;
          timeOffset := timeOffset h;
          nonceOffset := nonceOffset';
          interactionCountOffset := interactionCountOffset';
          timeLen := timeLen';
          nonceLen := nonceLen';
          txCountLen := txCountLen';
          initialized := initialized h;
          bufLen := bufLen h + offset;
          buffer := buf;
          resultBuf := resultBuf h;
          result := result h;
          hashesPerAttempt := hashesPerAttempt h |}.

(** [h.buffer[:n]] as data; out of range panics. *)
Definition slice_data (hbuf : list byte) (n : Z) : option (list byte) :=
  if (0 <=? n) && (n <=? len hbuf) then Some (take (Z.to_nat n) hbuf) else None.

(** [Update]: the hasher as the call leaves it and the two values returned;
    [None] is a panic. *)
Definition Update (scriberNum : Z) (h : PlotHeaderHasher) (header : PlotHeader)
  : option (PlotHeaderHasher * (Z * Z)) :=
  h ← (if negb (initialized h) then initBuffer h header else updateBuffer h header);
  (* hash it *)
  data ← slice_data (buffer h) (bufLen h);
  let hasher := hash_Write sha3_New256 data in
  let resultBuf' := go_copy (resultBuf h) (hash_Sum hasher []) in
  let result' := big_SetBytes resultBuf' in
  Some ({| previousHashListRoot := previousHashListRoot h;
           previousTime := previousTime h;
           previousNonce := previousNonce h;
           previousInteractionCount := previousInteractionCount h;
           hashListRootOffset := hashListRootOffset h;
           timeOffset := timeOffset h;
           nonceOffset := nonceOffset h;
           interactionCountOffset := interactionCountOffset h;
           timeLen := timeLen h;
           nonceLen := nonceLen h;
           txCountLen := txCountLen h;
           initialized := initialized h;
           bufLen := bufLen h;
           buffer := buffer h;
           resultBuf := resultBuf';
           result := result';
           hashesPerAttempt := hashesPerAttempt h |},
        (result', hashesPerAttempt h)).

(** The scriber's use of the hasher: [Update] after each version of the
    header, from a fresh hasher; for each call, the integer returned and the
    buffer prefix [h.buffer[:h.bufLen]] the call leaves. *)
Fixpoint run_updates (h : PlotHeaderHasher) (headers : list PlotHeader)
  : option (list (Z * list byte)) :=
  match headers with
  | [] => Some []
  | header :: rest =>
      '(h, (r, _)) ← Update 0 h header;
      tl ← run_updates h rest;
      Some ((r, take (Z.to_nat (bufLen h)) (buffer h)) :: tl)
  end.

(** ** The in-memory interaction queue *)

(** A [*list.Element] of container/list: the address that identifies the
    element, and its [Value]. *)
Record Element : Type := mkElement {
  addr : nat;
  Value : Interaction
}.

(** [l.Remove(e)]: the element leaves the list if it is in it. *)
Definition list_Remove (e : Element) (l : list Element) : list Element :=
  filter (fun x => addr x ≠ addr e) l.

Section Queue.
(** The imbalance cache and its [Apply] method are not among the sources:
    [Apply] takes the cache and an interaction, and returns the cache as it
    leaves it with the pair [(ok, err)] merged into one [Result]. *)
Variable ImbalanceCache : Type.
Variable Apply : ImbalanceCache -> Interaction -> ImbalanceCache * Result error bool.

Record InteractionQueueMemory : Type := mkQueue {
  txMap : gmap (list byte) Element;
  txQueue : list Element;
  imbalanceCache : ImbalanceCache;
  next_addr : nat            (* the next address the allocator hands out *)
}.

Definition NewInteractionQueueMemory (cache : ImbalanceCache) : InteractionQueueMemory :=
  {| txMap := ∅; txQueue := []; imbalanceCache := cache; next_addr := 0 |}.

Definition insufficient_imbalance_error (id : InteractionID) (tx : Interaction) : error :=
  errorString (lit "Interaction " ++ InteractionID_String id ++ lit " sender "
                 ++ base64_EncodeToString (From tx) ++ lit " has insufficient imbalance").

(** [Add]: the queue as the call leaves it, and the pair returned. *)
Definition Add (t : InteractionQueueMemory) (id : InteractionID) (tx : Interaction)
  : InteractionQueueMemory * (bool * option error) :=
  match txMap t !! id with
  | Some _ => (t, (false, None))    (* already exists *)
  | None =>
      let '(cache, r) := Apply (imbalanceCache t) tx in
      match r with
      | Err err =>
          ({| txMap := txMap t; txQueue := txQueue t; imbalanceCache := cache;
              next_addr := next_addr t |}, (false, Some err))
      | Ok false =>
          ({| txMap := txMap t; txQueue := txQueue t; imbalanceCache := cache;
              next_addr := next_addr t |},
           (false, Some (insufficient_imbalance_error id tx)))
      | Ok true =>
          let e := {| addr := next_addr t; Value := tx |} in
          ({| txMap := <[id := e]> (txMap t);
              txQueue := txQueue t ++ [e];
              imbalanceCache := cache;
              next_addr := S (next_addr t) |}, (true, None))
      end
  end.

(** The loop of [AddBatch], [i] running from [n - 1] down to 0; [None] is
    the panic of an index out of range. *)
Fixpoint AddBatch_loop (n : nat) (ids : list InteractionID) (txs : list Interaction)
    (t : InteractionQueueMemory) : option InteractionQueueMemory :=
  match n with
  | O => Some t
  | S i =>
      id ← ids !! i;
      tx ← txs !! i;
      let queue :=
        match txMap t !! id with
        | Some e => list_Remove e (txQueue t)   (* remove it from its current position *)
        | None => txQueue t
        end in
      let e := {| addr := next_addr t; Value := tx |} in
      AddBatch_loop i ids txs
        {| txMap := <[id := e]> (txMap t);
           txQueue := e :: queue;
           imbalanceCache := imbalanceCache t;
           next_addr := S (next_addr t) |}
  end.

(** [AddBatch]: the queue as the call leaves it and the error returned,
    which is always nil. *)
Definition AddBatch (t : InteractionQueueMemory) (ids : list InteractionID)
    (txs : list Interaction) (height : Z) : option (InteractionQueueMemory * option error) :=
  t ← AddBatch_loop (length txs) ids txs t;
  Some (t, None).

(** [Get]; a negative limit panics in [make]. *)
Definition Get (t : InteractionQueueMemory) (limit : Z) : option (list Interaction) :=
  if (limit =? 0) || (len (txQueue t) <? limit) then Some (map Value (txQueue t))
  else if limit <? 0 then None
  else Some (map Value (take (Z.to_nat limit) (txQueue t))).

Definition Exists (t : InteractionQueueMemory) (id : InteractionID) : bool :=
  bool_decide (is_Some (txMap t !! id)).

Definition ExistsSigned (t : InteractionQueueMemory) (id : InteractionID)
    (signature : list byte) : bool :=
  match txMap t !! id with
  | Some e => bytes_Equal (Signature (Value e)) signature
  | None => false
  end.

Definition Len (t : InteractionQueueMemory) : Z := len (txQueue t).
End Queue.

Arguments txMap {ImbalanceCache} _.
Arguments txQueue {ImbalanceCache} _.
Arguments imbalanceCache {ImbalanceCache} _.
Arguments next_addr {ImbalanceCache} _.
Arguments mkQueue {ImbalanceCache} _ _ _ _.
Arguments AddBatch_loop {ImbalanceCache} _ _ _ _.
Arguments AddBatch {ImbalanceCache} _ _ _ _.
Arguments Get {ImbalanceCache} _ _.
Arguments Exists {ImbalanceCache} _ _.
Arguments Len {ImbalanceCache} _.
Arguments Add {ImbalanceCache} _ _ _ _.
Arguments NewInteractionQueueMemory {ImbalanceCache} _.

(** ** The interaction graph and its ranking *)

Record node : Type := mkNode {
  label : list byte;
  ranking : float;
  outbound : float
}.

Record Graph : Type := mkGraph {
  index : gmap (list byte) N;
  nodes : gmap N node;
  edges : gmap N (gmap N float)
}.

Definition NewGraph : Graph := {| index := ∅; nodes := ∅; edges := ∅ |}.

(** [uint32(len(graph.index))] *)
Definition next_index (g : Graph) : N := (N.of_nat (size (index g)) mod 2 ^ 32)%N.

(** The first two statements of [Link]: a label seen for the first time
    gets the next index and a node. *)
Definition ensure_node (g : Graph) (name : list byte) : Graph :=
  match index g !! name with
  | Some _ => g
  | None =>
      let i := next_index g in
      {| index := <[name := i]> (index g);
         nodes := <[i := {| label := name; ranking := 0; outbound := 0 |}]> (nodes g);
         edges := edges g |}
  end.

(** [Link]; [None] is the panic of a nil node. *)
Definition Link (g : Graph) (source target : list byte) (weight : float) : option Graph :=
  let g := ensure_node g source in
  let g := ensure_node g target in
  let sIndex := default 0%N (index g !! source) in
  let tIndex := default 0%N (index g !! target) in
  let out := default ∅ (edges g !! sIndex) in
  nd ← nodes g !! sIndex;
  Some {| index := index g;
          nodes := <[sIndex := {| label := label nd; ranking := ranking nd;
                                  outbound := outbound nd + weight |}]> (nodes g);
          edges := <[sIndex := <[tIndex := (default 0 (out !! tIndex) + weight)%float]> out]>
                     (edges g) |}.

Definition set_ranking (r : float) (nd : node) : node :=
  {| label := label nd; ranking := r; outbound := outbound nd |}.

(** A loop body that can panic, run over a list. *)
Fixpoint foldM {A S : Type} (f : S -> A -> option S) (l : list A) (s : S) : option S :=
  match l with
  | [] => Some s
  | a :: rest => s' ← f s a; foldM f rest s'
  end.

(** Go leaves the order of a [range] over a map unspecified; here a map is
    ranged over in the order of [map_to_list]. *)
Definition range {V} (m : gmap N V) : list (N * V) := map_to_list m.

(** The edge weights of each source with positive outbound weight, divided
    by that weight. *)
Definition normalize (g : Graph) : option (gmap N (gmap N float)) :=
  foldM (fun nw '(source, targets) =>
           nd ← nodes g !! source;
           if (0 <? outbound nd)%float
           then Some (<[source := (fun w => w / outbound nd)%float <$> targets]> nw)
           else Some nw)
        (range (edges g)) ∅.

(** One pass of the loop of [Rank]: the nodes after the pass, and its delta. *)
Definition rank_pass (alpha inverse : float) (nw : gmap N (gmap N float))
    (nds : gmap N node) : option (gmap N node * float) :=
  (* snapshot, leak, and reset *)
  let snapshot := ranking <$> nds in
  let leak := fold_left (fun leak '(_, value) =>
                           if (outbound value =? 0)%float then (leak + ranking value)%float
                           else leak) (range nds) 0%float in
  let zeroed := set_ranking 0 <$> nds in
  let leak := (leak * alpha)%float in
  (* spread *)
  spread ← foldM (fun cur '(source, _) =>
                    cur ← foldM (fun cur '(target, weight) =>
                                   nd ← cur !! target;
                                   Some (<[target := set_ranking
                                            (ranking nd + alpha * default 0 (snapshot !! source) * weight)%float
                                            nd]> cur))
                                (range (default ∅ (nw !! source))) cur;
                    nd ← cur !! source;
                    Some (<[source := set_ranking
                             (ranking nd + ((1 - alpha) * inverse + leak * inverse))%float nd]> cur))
                 (range nds) zeroed;
  (* delta *)
  let delta := fold_left (fun d '(key, value) =>
                            (d + abs (ranking value - default 0 (snapshot !! key)))%float)
                         (range spread) 0%float in
  Some (spread, delta).

(** How a run of a loop that need not terminate can end. *)
Inductive run (A : Type) : Type :=
| Done (a : A)
| Panic
| OutOfFuel.
Arguments Done {A} a.
Arguments Panic {A}.
Arguments OutOfFuel {A}.

(** The loop [for delta > epsilon], with at most [fuel] passes. *)
Fixpoint rank_loop (fuel : nat) (alpha epsilon inverse : float)
    (nw : gmap N (gmap N float)) (nds : gmap N node) (delta : float) : run (gmap N node) :=
  if (epsilon <? delta)%float then
    match fuel with
    | O => OutOfFuel
    | S k =>
        match rank_pass alpha inverse nw nds with
        | None => Panic
        | Some (nds, delta) => rank_loop k alpha epsilon inverse nw nds delta
        end
    end
  else Done nds.

Definition float_of_len (n : nat) : float := of_uint63 (Uint63.of_Z (Z.of_nat n)).

(** [Rank]: the graph as the call leaves it. *)
Definition Rank (fuel : nat) (alpha epsilon : float) (g : Graph) : run Graph :=
  let delta := 1%float in
  let inverse := (1 / float_of_len (size (nodes g)))%float in
  match normalize g with
  | None => Panic
  | Some nw =>
      let nds := set_ranking inverse <$> nodes g in
      match rank_loop fuel alpha epsilon inverse nw nds delta with
      | Done nds => Done {| index := index g; nodes := nds; edges := edges g |}
      | Panic => Panic
      | OutOfFuel => OutOfFuel
      end
  end.

(** [1e-6] as a [float64]. *)
Definition epsilon_1e6 : float := 0x1.0c6f7a0b5ed8dp-20%float.

(** ** Statements of the specification, to compare the code with *)

(** A sum that saturates at [2^256 - 1]. *)
Definition saturating_sum_256 (a b : Z) : Z := Z.min (a + b) (2 ^ 256 - 1).

(** The series by the mathematical floor ([Z.div] rounds down). *)
Definition series_by_floor (plots_until_new_series : Z) (isPlotroot : bool) (h : Z) : Z :=
  if isPlotroot then h / plots_until_new_series + 1
  else (h - 100) / plots_until_new_series + 1.

(** A byte that is a hexadecimal digit, of either case. *)
Definition is_hex_char (c : byte) : Prop :=
  let n := Byte.to_N c in
  (48 <= n <= 57)%N \/ (97 <= n <= 102)%N \/ (65 <= n <= 70)%N.

(** [sub] occurs in [s]. *)
Definition contains (s sub : list byte) : Prop := exists pre post, s = pre ++ sub ++ post.

(** ** Sample values *)

Definition target_one : PlotID := replicate 31 x00 ++ [x01].
Definition work_max : PlotID := replicate 32 xff.
Definition work_max_less_one : PlotID := replicate 31 xff ++ [xfe].

(** The serialisation of a header laid out as the hasher's buffer is: the
    static fields with the values between them. *)
Definition header_layout (hd : PlotHeader) : list byte :=
  hdrPrevious ++ hex_EncodeToString (Previous hd)
    ++ hdrHashListRoot ++ hex_EncodeToString (HashListRoot hd)
    ++ hdrTime ++ strconv_FormatInt (HTime hd)
    ++ hdrTarget ++ hex_EncodeToString (Target hd)
    ++ hdrThreadWork ++ hex_EncodeToString (ThreadWork hd)
    ++ hdrNonce ++ strconv_FormatInt (HNonce hd)
    ++ hdrHeight ++ strconv_FormatInt (Height hd)
    ++ hdrInteractionCount ++ strconv_FormatInt (InteractionCount hd)
    ++ hdrEnd.

Definition sample_header (work : PlotID) (nonce : Z) : PlotHeader :=
  {| Previous := zero_id; HashListRoot := zero_id; HTime := 1718344737;
     Target := target_one; ThreadWork := work; HNonce := nonce; Height := 0;
     InteractionCount := 1 |}.

(** Sixty-six bytes with valid hexadecimal in the middle and no quote at
    either end. *)
Definition unquoted_id_text : list byte := lit "x" ++ replicate 64 "0"%byte ++ lit "y".

Section Scribing.
Variable json_Marshal_Interaction : Interaction -> Result error (list byte).

(** The scriber appending interactions to a plot one at a time: the id of
    each is computed and passed to [AddInteraction]; the first error stops
    the loop. *)
Fixpoint AddInteractions (b : Plot) (txs : list Interaction) : option (Result error Plot) :=
  match txs with
  | [] => Some (Ok b)
  | tx :: rest =>
      match Interaction_ID json_Marshal_Interaction tx with
      | Err e => Some (Err e)
      | Ok id =>
          '(b, err) ← AddInteraction json_Marshal_Interaction b id tx;
          match err with
          | Some e => Some (Err e)
          | None => AddInteractions b rest
          end
      end
  end.
End Scribing.

(** A stand-in for encoding/json on interactions, for examples: the time
    and the nonce, separated by a comma. *)
Definition sample_json_Marshal_Interaction (tx : Interaction) : Result error (list byte) :=
  Ok (strconv_FormatInt (Time tx) ++ lit "," ++ strconv_FormatInt (Nonce tx)).

Definition sample_tx (n : Z) (from : list byte) : Interaction :=
  {| Time := 1718344707; Nonce := n; From := from; To := replicate 32 x07; Memo := [];
     Matures := 0; Expires := 0; Series := 1; Signature := [] |}.

(** ** The pool: invariant and statements *)

(** An element of the queue is indexed under one of [ids] when the index
    maps that id to the element (elements are told apart by address). *)
Definition indexed_under (m : gmap (list byte) Element) (ids : list InteractionID)
    (e : Element) : Prop :=
  List.Exists (fun id => addr <$> (m !! id) = Some (addr e)) ids.

#[global] Instance indexed_under_dec m ids e : Decision (indexed_under m ids e).
Proof. unfold indexed_under. apply _. Defined.

(** Every element the queue or the index refers to has been allocated. *)
Definition queue_ok {C : Type} (t : InteractionQueueMemory C) : Prop :=
  (forall e, e ∈ txQueue t -> (addr e < next_addr t)%nat) /\
  (forall id e, txMap t !! id = Some e -> (addr e < next_addr t)%nat).

(** An [Apply] whose ledger lookup fails. *)
Definition Apply_unavailable (c : unit) (tx : Interaction) : unit * Result error bool :=
  (c, Err (errorString (lit "ledger unavailable"))).

(** An [Apply] that accepts everything. *)
Definition Apply_accept (c : unit) (tx : Interaction) : unit * Result error bool := (c, Ok true).

Definition sample_id (n : Z) : InteractionID := replicate 31 x00 ++ [byte_of_Z n].

(** The pool of scenario S5: one interaction [B], added through [Add]. *)
Definition pool_B : InteractionQueueMemory unit :=
  fst (Add Apply_accept (NewInteractionQueueMemory tt) (sample_id 9) (sample_tx 9 (replicate 32 x09))).

(** ** The indexer's use of the graph *)

Definition pubKeyToString (ppk : list byte) : list byte := base64_EncodeToString ppk.

(** The loop of [indexRepresentations]: one [Link] per interaction, with
    weight 1 when the plot is connected and -1 when it is disconnected. *)
Fixpoint indexInteractions (g : Graph) (txs : list Interaction) (increment : bool)
  : option Graph :=
  match txs with
  | [] => Some g
  | tx :: rest =>
      g ← Link g (pubKeyToString (From tx)) (pubKeyToString (To tx))
             (if increment then 1 else -1)%float;
      indexInteractions g rest increment
  end.

Definition transfer (from to : list byte) : Interaction :=
  {| Time := 1718344707; Nonce := 1; From := from; To := to; Memo := [];
     Matures := 0; Expires := 0; Series := 1; Signature := [] |}.

Definition key_A : list byte := replicate 32 x0a.
Definition key_B : list byte := replicate 32 x0b.

(** A plotroot paying A, then A paying B and B paying A. *)
Definition back_and_forth : list Interaction :=
  [transfer baseKey key_A; transfer key_A key_B; transfer key_B key_A].

Definition back_and_forth_graph : Graph :=
  Eval vm_compute in default NewGraph (indexInteractions NewGraph back_and_forth true).

Definition back_and_forth_weights : gmap N (gmap N float) :=
  Eval vm_compute in default ∅ (normalize back_and_forth_graph).

Definition one_third : float := Eval vm_compute in (1 / float_of_len 3)%float.

(** The rankings after the first and after the second pass of [Rank]. *)
Definition back_and_forth_odd : gmap N node * float :=
  Eval vm_compute in
    default (∅, 0%float)
      (rank_pass 1 one_third back_and_forth_weights
         (set_ranking one_third <$> nodes back_and_forth_graph)).

Definition back_and_forth_even : gmap N node * float :=
  Eval vm_compute in
    default (∅, 0%float)
      (rank_pass 1 one_third back_and_forth_weights (fst back_and_forth_odd)).

(** ** The buffer of the header hasher: proof vocabulary *)

(** [written P b b0]: the buffer [b] starts with [P] and is, beyond [P], as
    the buffer [b0] was. *)
Definition written (P b b0 : list byte) : Prop :=
  P `prefix_of` b /\ drop (length P) b = drop (length P) b0 /\ length b = length b0.

(** The header fits the buffer of a new hasher. *)
Definition fits (hd : PlotHeader) : Prop :=
  len (header_layout hd) <= len (buffer NewPlotHeaderHasher).

(** Two versions of a header that differ only in the fields the scriber
    mutates. *)
Definition same_fixed_fields (a b : PlotHeader) : Prop :=
  Previous a = Previous b /\ Target a = Target b /\ ThreadWork a = ThreadWork b /\
  Height a = Height b.

(** A header whose serialisation is one byte longer than the buffer. *)
Definition overlong_header : PlotHeader :=
  {| Previous := zero_id; HashListRoot := zero_id; HTime := - 2 ^ 63;
     Target := target_one; ThreadWork := zero_id; HNonce := 2 ^ 63 - 1;
     Height := 2 ^ 63 - 1; InteractionCount := 2 ^ 31 - 1 |}.

(** The layout in pieces: what precedes the value of [hash_list_root], of
    [time], of [nonce] and of [interaction_count], as functions of the
    values written so far. *)
Definition seg_head (hd : PlotHeader) : list byte :=
  hdrPrevious ++ hex_EncodeToString (Previous hd) ++ hdrHashListRoot.

Definition seg_to_time (hd : PlotHeader) (r : InteractionID) : list byte :=
  seg_head hd ++ hex_EncodeToString r ++ hdrTime.

Definition seg_mid (hd : PlotHeader) : list byte :=
  hdrTarget ++ hex_EncodeToString (Target hd)
    ++ hdrThreadWork ++ hex_EncodeToString (ThreadWork hd) ++ hdrNonce.

Definition seg_to_nonce (hd : PlotHeader) (r : InteractionID) (t : Z) : list byte :=
  seg_to_time hd r ++ strconv_FormatInt t ++ seg_mid hd.

Definition seg_low (hd : PlotHeader) : list byte :=
  hdrHeight ++ strconv_FormatInt (Height hd) ++ hdrInteractionCount.

Definition seg_to_count (hd : PlotHeader) (r : InteractionID) (t n : Z) : list byte :=
  seg_to_nonce hd r t ++ strconv_FormatInt n ++ seg_low hd.

Definition layout_of (hd : PlotHeader) (r : InteractionID) (t n c : Z) : list byte :=
  seg_to_count hd r t n ++ strconv_FormatInt c ++ hdrEnd.

(** What [Update] maintains between calls, for the header [hd] of the last
    call. *)
Record hasher_inv (h : PlotHeaderHasher) (hd : PlotHeader) : Prop := {
  inv_initialized : initialized h = true;
  inv_cap : len (buffer h) = len (buffer NewPlotHeaderHasher);
  inv_prefix : header_layout hd `prefix_of` buffer h;
  inv_bufLen : bufLen h = len (header_layout hd);
  inv_root : previousHashListRoot h = HashListRoot hd;
  inv_time : previousTime h = HTime hd;
  inv_nonce : previousNonce h = HNonce hd;
  inv_count : previousInteractionCount h = InteractionCount hd;
  inv_rootOffset : hashListRootOffset h = len (seg_head hd);
  inv_timeOffset : timeOffset h = len (seg_to_time hd (HashListRoot hd));
  inv_nonceOffset : nonceOffset h = len (seg_to_nonce hd (HashListRoot hd) (HTime hd));
  inv_countOffset :
    interactionCountOffset h
      = len (seg_to_count hd (HashListRoot hd) (HTime hd) (HNonce hd));
  inv_timeLen : timeLen h = len (strconv_FormatInt (HTime hd));
  inv_nonceLen : nonceLen h = len (strconv_FormatInt (HNonce hd));
  inv_txCountLen : txCountLen h = len (strconv_FormatInt (InteractionCount hd));
  inv_resultBuf : length (resultBuf h) = 32%nat
}.

(** A hasher as [NewPlotHeaderHasher] returns it, before its first use. *)
Definition hasher_ready (h : PlotHeaderHasher) : Prop :=
  initialized h = false /\ len (buffer h) = len (buffer NewPlotHeaderHasher) /\
  length (resultBuf h) = 32%nat.

(** What a full re-serialisation of the header gives: the id as an integer,
    and the canonical JSON. *)
Definition reserialised (hd : PlotHeader) (res : Z * list byte) : Prop :=
  exists id json,
    PlotHeader_ID hd = Ok id /\ json_Marshal_PlotHeader hd = Ok json /\
    res = (PlotID_GetBigInt id, json).

Definition scribing_header (root : InteractionID) (time nonce count : Z) : PlotHeader :=
  {| Previous := zero_id; HashListRoot := root; HTime := time; Target := target_one;
     ThreadWork := work_max; HNonce := nonce; Height := 7; InteractionCount := count |}.

(** ** More of the package: the rest of the header, interaction, pool and
       graph code *)

(** *** [PlotHeader.IDFast]

    The header's [hasher] field is not marshaled and is kept apart from the
    record [PlotHeader]: [IDFast] takes its value ([None] is nil) and returns
    the hasher the header holds after the call with the two values
    returned. *)
Definition IDFast (hasher : option PlotHeaderHasher) (header : PlotHeader) (scriberNum : Z)
  : option (PlotHeaderHasher * (Z * Z)) :=
  let h := match hasher with
           | None => NewPlotHeaderHasher
           | Some h => h
           end in
  Update scriberNum h header.

(** Successive calls of [IDFast] on one header object as the scriber
    mutates it: the values each call returns. *)
Fixpoint run_IDFast (hasher : option PlotHeaderHasher) (versions : list PlotHeader)
  : option (list (Z * Z)) :=
  match versions with
  | [] => Some []
  | header :: rest =>
      '(h, r) ← IDFast hasher header 0;
      rs ← run_IDFast (Some h) rest;
      Some (r :: rs)
  end.

(** A slice of the hasher's buffer that is within it. *)
Definition slice_ok (b : list byte) (s : slice) : Prop :=
  match s with
  | Shared n => 0 <= n <= len b
  | Detached _ => True
  end.

(** *** Signing and verifying interactions *)

Definition set_Signature (tx : Interaction) (sig : list byte) : Interaction :=
  {| Time := Time tx; Nonce := Nonce tx; From := From tx; To := To tx;
     Memo := Memo tx; Matures := Matures tx; Expires := Expires tx;
     Series := Series tx; Signature := sig |}.

Section Signing.
Variable json_Marshal_Interaction : Interaction -> Result error (list byte).
(** [ed25519.Sign(privateKey, message)] and
    [ed25519.Verify(publicKey, message, sig)] of golang.org/x/crypto; [None]
    is their panic on a key of the wrong length. *)
Variable ed25519_Sign : list byte -> list byte -> option (list byte).
Variable ed25519_Verify : list byte -> list byte -> list byte -> option bool.

(** [func (tx *Interaction) Sign(privKey ed25519.PrivateKey) error]: the
    interaction as the call leaves it, and the error. *)
Definition Sign (tx : Interaction) (privKey : list byte) : option (Interaction * option error) :=
  match Interaction_ID json_Marshal_Interaction tx with
  | Err e => Some (tx, Some e)
  | Ok id =>
      sig ← ed25519_Sign privKey id;
      Some (set_Signature tx sig, None)
  end.

(** [func (tx Interaction) Verify() (bool, error)] *)
Definition Verify (tx : Interaction) : option (bool * option error) :=
  match Interaction_ID json_Marshal_Interaction tx with
  | Err e => Some (false, Some e)
  | Ok id =>
      ok ← ed25519_Verify (From tx) id (Signature tx);
      Some (ok, None)
  end.
End Signing.

(** *** Removing from the pool *)

Section QueueRemoval.
Variable ImbalanceCache : Type.
Variable Apply : ImbalanceCache -> Interaction -> ImbalanceCache * Result error bool.
(** [ImbalanceCache.Reset] and [checkInteractionSeries] are not among the
    sources. *)
Variable Reset : ImbalanceCache -> ImbalanceCache.
Variable checkInteractionSeries : Interaction -> Z -> bool.
Variable json_Marshal_Interaction : Interaction -> Result error (list byte).

(** [t.txQueue.Remove(e); delete(t.txMap, id)] *)
Definition remove_element (t : InteractionQueueMemory ImbalanceCache) (id : InteractionID)
    (e : Element) : InteractionQueueMemory ImbalanceCache :=
  {| txMap := delete id (txMap t);
     txQueue := list_Remove e (txQueue t);
     imbalanceCache := imbalanceCache t;
     next_addr := next_addr t |}.

Definition set_imbalanceCache (t : InteractionQueueMemory ImbalanceCache)
    (cache : ImbalanceCache) : InteractionQueueMemory ImbalanceCache :=
  {| txMap := txMap t; txQueue := txQueue t; imbalanceCache := cache;
     next_addr := next_addr t |}.

(** The loop of [RemoveBatch]. *)
Definition RemoveBatch_loop (ids : list InteractionID)
    (t : InteractionQueueMemory ImbalanceCache) : InteractionQueueMemory ImbalanceCache :=
  fold_left (fun t id =>
               match txMap t !! id with
               | None => t                      (* not in the queue *)
               | Some e => remove_element t id e  (* remove it *)
               end) ids t.

(** The removal in the loop of [reprocessQueue]: the id is computed from
    the interaction, and the element is looked up without a check; a nil
    element makes [Remove] panic. *)
Definition invalidate (t : InteractionQueueMemory ImbalanceCache) (tx : Interaction)
  : option (InteractionQueueMemory ImbalanceCache * option error) :=
  match Interaction_ID json_Marshal_Interaction tx with
  | Err err => Some (t, Some err)
  | Ok id =>
      e ← txMap t !! id;
      Some (remove_element t id e, None)
  end.

(** The loop of [reprocessQueue] over the copy of the queue. *)
Fixpoint reprocess_loop (tmpQueue : list Interaction) (height : Z)
    (t : InteractionQueueMemory ImbalanceCache)
  : option (InteractionQueueMemory ImbalanceCache * option error) :=
  match tmpQueue with
  | [] => Some (t, None)
  | tx :: rest =>
      if negb (checkInteractionSeries tx (wrap64 (height + 1)))
         || negb (IsMature tx (wrap64 (height + 1)))
         || IsExpired tx (wrap64 (height + 1))
      then
        (* interaction has been invalidated. remove and continue *)
        '(t, err) ← invalidate t tx;
        match err with
        | Some err => Some (t, Some err)
        | None => reprocess_loop rest height t
        end
      else
        (* check imbalance *)
        let '(cache, r) := Apply (imbalanceCache t) tx in
        let t := set_imbalanceCache t cache in
        match r with
        | Err err => Some (t, Some err)
        | Ok false =>
            '(t, err) ← invalidate t tx;
            match err with
            | Some err => Some (t, Some err)
            | None => reprocess_loop rest height t
            end
        | Ok true => reprocess_loop rest height t
        end
  end.

(** [reprocessQueue]: the queue as the call leaves it and the error
    returned; [None] is a panic. *)
Definition reprocessQueue (t : InteractionQueueMemory ImbalanceCache) (height : Z)
  : option (InteractionQueueMemory ImbalanceCache * option error) :=
  (* invalidate the cache *)
  let t := set_imbalanceCache t (Reset (imbalanceCache t)) in
  let tmpQueue := map Value (txQueue t) in
  reprocess_loop tmpQueue height t.

(** [RemoveBatch] *)
Definition RemoveBatch (t : InteractionQueueMemory ImbalanceCache) (ids : list InteractionID)
    (height : Z) (more : bool)
  : option (InteractionQueueMemory ImbalanceCache * option error) :=
  let t := RemoveBatch_loop ids t in
  if more then Some (t, None)
  else reprocessQueue t height.

(** The check of the loop of [reprocessQueue] that does not involve the
    imbalance cache. *)
Definition valid_at (tx : Interaction) (height : Z) : bool :=
  checkInteractionSeries tx height && IsMature tx height && negb (IsExpired tx height).

(** The index and the list describe the same elements, which have
    distinct addresses, and each element is indexed under the id of its
    interaction. *)
Definition queue_by_ID (t : InteractionQueueMemory ImbalanceCache) : Prop :=
  NoDup (addr <$> txQueue t) /\
  (forall e, e ∈ txQueue t -> exists id, txMap t !! id = Some e) /\
  (forall id e, txMap t !! id = Some e ->
     e ∈ txQueue t /\ Interaction_ID json_Marshal_Interaction (Value e) = Ok id).
End QueueRemoval.

Arguments ExistsSigned {ImbalanceCache} _ _ _.
Arguments remove_element {ImbalanceCache} _ _ _.
Arguments set_imbalanceCache {ImbalanceCache} _ _.
Arguments RemoveBatch_loop {ImbalanceCache} _ _.
Arguments invalidate {ImbalanceCache} _ _ _.
Arguments reprocess_loop {ImbalanceCache} _ _ _ _ _ _.
Arguments reprocessQueue {ImbalanceCache} _ _ _ _ _ _.
Arguments RemoveBatch {ImbalanceCache} _ _ _ _ _ _ _ _.
Arguments queue_by_ID {ImbalanceCache} _ _.

(** *** The graph: rankings of keys *)

(** [func (g *Graph) rankings(pubKeys []ed25519.PublicKey) map[string]float64];
    [None] is the panic of a nil node. *)
Definition rankings (g : Graph) (pubKeys : list (list byte)) : option (gmap (list byte) float) :=
  if 0 <? len pubKeys then
    foldM (fun rnks key =>
             let keyStr := pubKeyToString key in
             let index := default 0%N (index g !! keyStr) in
             nd ← nodes g !! index;
             Some (<[keyStr := ranking nd]> rnks))
          pubKeys ∅
  else
    (* return all keys *)
    foldM (fun rnks '(key, id) =>
             nd ← nodes g !! id;
             Some (<[key := ranking nd]> rnks))
          (map_to_list (index g)) ∅.

(** [func (graph *Graph) Reset()] *)
Definition Graph_Reset (g : Graph) : Graph := NewGraph.

(** A graph as calls of [Link] build it: labels are numbered from 0 in the
    order they were first seen, every index has its node, which carries
    the label, and edges join nodes of the graph. *)
Definition graph_ok (g : Graph) : Prop :=
  (forall name i, index g !! name = Some i ->
     (i < N.of_nat (size (index g)))%N /\
     exists nd, nodes g !! i = Some nd /\ label nd = name) /\
  (forall i nd, nodes g !! i = Some nd -> index g !! label nd = Some i) /\
  (forall s out, edges g !! s = Some out ->
     is_Some (nodes g !! s) /\ forall t w, out !! t = Some w -> is_Some (nodes g !! t)) /\
  (forall i, (i < N.of_nat (size (index g)))%N -> is_Some (nodes g !! i)).

(** *** Sample values *)

(** A stand-in for ed25519, for examples: a private key is a 32-byte seed
    followed by the public key, and the signature of a message is the
    public key followed by the message. *)
Definition sample_ed25519_Sign (privateKey message : list byte) : option (list byte) :=
  if len privateKey =? 64 then Some (drop 32 privateKey ++ message) else None.

Definition sample_ed25519_Verify (publicKey message sig : list byte) : option bool :=
  if len publicKey =? 32 then Some (bool_decide (sig = publicKey ++ message)) else None.

Definition sample_private_key (publicKey : list byte) : list byte :=
  replicate 32 x01 ++ publicKey.

(** The id of an interaction under the stand-in for encoding/json. *)
Definition sample_ID (tx : Interaction) : InteractionID :=
  match Interaction_ID sample_json_Marshal_Interaction tx with
  | Ok id => id
  | Err _ => zero_id
  end.

(** An interaction that cannot be included above height [expires]. *)
Definition expiring_tx (n expires : Z) : Interaction :=
  {| Time := 1718344707; Nonce := n; From := key_A; To := key_B; Memo := [];
     Matures := 0; Expires := expires; Series := 1; Signature := [] |}.

(** A pool of two interactions added under their ids, the second of which
    expires after height 3. *)
Definition pool_indexed : InteractionQueueMemory unit :=
  let t := NewInteractionQueueMemory tt in
  let t := fst (Add Apply_accept t (sample_ID (sample_tx 1 key_A)) (sample_tx 1 key_A)) in
  fst (Add Apply_accept t (sample_ID (expiring_tx 2 3)) (expiring_tx 2 3)).



(** The header [scribing_header] makes, at another height. *)
Definition scribing_header_at (height : Z) (root : InteractionID) (time nonce count : Z)
  : PlotHeader :=
  {| Previous := zero_id; HashListRoot := root; HTime := time; Target := target_one;
     ThreadWork := work_max; HNonce := nonce; Height := height; InteractionCount := count |}.

(** * Properties *)

(** ** Bytes and big integers *)

Lemma Z_of_byte_range (b : byte) : 0 <= Z_of_byte b < 256.
Proof.
  unfold Z_of_byte. pose proof (Byte.to_N_bounded b). lia.
Qed.

Lemma Z_of_byte_inj (a b : byte) : Z_of_byte a = Z_of_byte b -> a = b.
Proof.
  unfold Z_of_byte. intros H. apply N2Z.inj in H.
  apply (f_equal Byte.of_N) in H. rewrite !Byte.of_to_N in H. congruence.
Qed.

Lemma Z_of_byte_of_Z (z : Z) : 0 <= z < 256 -> Z_of_byte (byte_of_Z z) = z.
Proof.
  intros Hz. unfold Z_of_byte, byte_of_Z, byte_of_N.
  assert (Hm : (Z.to_N z mod 256 = Z.to_N z)%N) by (apply N.mod_small; lia).
  rewrite Hm. destruct (Byte.of_N (Z.to_N z)) as [b |] eqn:E.
  - apply Byte.to_of_N in E. lia.
  - apply Byte.of_N_None_iff in E. lia.
Qed.

Lemma len_app {A} (a b : list A) : len (a ++ b) = len a + len b.
Proof. unfold len. rewrite length_app. lia. Qed.

Lemma len_nonneg {A} (a : list A) : 0 <= len a.
Proof. unfold len. lia. Qed.

Lemma big_SetBytes_snoc (l : list byte) (x : byte) :
  big_SetBytes (l ++ [x]) = big_SetBytes l * 256 + Z_of_byte x.
Proof. unfold big_SetBytes. by rewrite fold_left_app. Qed.

Lemma big_SetBytes_range (l : list byte) : 0 <= big_SetBytes l < 256 ^ len l.
Proof.
  induction l as [| x l IH] using rev_ind.
  - unfold len. cbn. lia.
  - rewrite big_SetBytes_snoc, len_app.
    change (len [x]) with 1. pose proof (Z_of_byte_range x). pose proof (len_nonneg l).
    rewrite Z.pow_add_r by lia. change (256 ^ 1) with 256. lia.
Qed.

Lemma big_SetBytes_inj (a b : list byte) :
  length a = length b -> big_SetBytes a = big_SetBytes b -> a = b.
Proof.
  revert b. induction a as [| x a IH] using rev_ind; intros b Hlen Heq.
  - destruct b; [done | discriminate].
  - destruct b as [| y b _] using rev_ind.
    + rewrite length_app in Hlen. cbn in Hlen. lia.
    + rewrite !length_app in Hlen. cbn in Hlen.
      rewrite !big_SetBytes_snoc in Heq.
      pose proof (Z_of_byte_range x). pose proof (Z_of_byte_range y).
      assert (big_SetBytes a = big_SetBytes b) by lia.
      assert (Z_of_byte x = Z_of_byte y) by lia.
      f_equal; [apply IH; [lia | done] | f_equal; by apply Z_of_byte_inj].
Qed.

Lemma big_SetBytes_app (a b : list byte) :
  big_SetBytes (a ++ b) = big_SetBytes a * 256 ^ len b + big_SetBytes b.
Proof.
  induction b as [| x b IH] using rev_ind.
  - rewrite app_nil_r. unfold len. cbn. lia.
  - rewrite app_assoc, !big_SetBytes_snoc, IH, len_app.
    change (len [x]) with 1. pose proof (len_nonneg b).
    rewrite Z.pow_add_r by lia. change (256 ^ 1) with 256. lia.
Qed.

Lemma big_SetBytes_zeros (n : nat) : big_SetBytes (replicate n x00) = 0.
Proof.
  induction n as [| n IH]; [done |].
  change (replicate (S n) x00) with ([x00] ++ replicate n x00).
  rewrite big_SetBytes_app, IH. cbn. lia.
Qed.

(** [bytes_fuel] writes the base-256 digits of [n] in front of [acc]. *)
Lemma bytes_fuel_value (fuel : nat) : forall n acc,
  0 <= n < 256 ^ Z.of_nat fuel ->
  big_SetBytes (bytes_fuel fuel n acc) = n * 256 ^ len acc + big_SetBytes acc.
Proof.
  induction fuel as [| k IH]; intros n acc Hn.
  - change (256 ^ Z.of_nat 0) with 1 in Hn. assert (n = 0) by lia. subst.
    cbn [bytes_fuel]. lia.
  - cbn [bytes_fuel]. destruct (Z.eqb_spec n 0) as [-> | Hnz]; [lia |].
    rewrite IH.
    + change (byte_of_Z (n mod 256) :: acc) with ([byte_of_Z (n mod 256)] ++ acc).
      rewrite big_SetBytes_app, len_app. change (len [byte_of_Z (n mod 256)]) with 1.
      pose proof (len_nonneg acc). rewrite Z.pow_add_r by lia. change (256 ^ 1) with 256.
      change (big_SetBytes [byte_of_Z (n mod 256)]) with (0 * 256 + Z_of_byte (byte_of_Z (n mod 256))).
      rewrite Z_of_byte_of_Z by (apply Z.mod_pos_bound; lia).
      pose proof (Z.div_mod n 256). lia.
    + rewrite Nat2Z.inj_succ, Z.pow_succ_r in Hn by lia.
      split; [apply Z.div_pos; lia | apply Z.div_lt_upper_bound; lia].
Qed.

Lemma bytes_fuel_length (fuel : nat) : forall n acc k,
  0 <= n < 256 ^ Z.of_nat fuel -> 0 <= k ->
  (len (bytes_fuel fuel n acc) <= k + len acc <-> n < 256 ^ k).
Proof.
  induction fuel as [| f IH]; intros n acc k Hn Hk.
  - change (256 ^ Z.of_nat 0) with 1 in Hn. assert (n = 0) by lia. subst.
    cbn [bytes_fuel]. pose proof (Z.pow_pos_nonneg 256 k). lia.
  - cbn [bytes_fuel]. destruct (Z.eqb_spec n 0) as [-> | Hnz].
    + pose proof (Z.pow_pos_nonneg 256 k). lia.
    + rewrite Nat2Z.inj_succ, Z.pow_succ_r in Hn by lia.
      assert (Hq : 0 <= n / 256 < 256 ^ Z.of_nat f)
        by (split; [apply Z.div_pos; lia | apply Z.div_lt_upper_bound; lia]).
      destruct (Z.eq_dec k 0) as [-> | Hk0].
      * pose proof (len_nonneg (bytes_fuel f (n / 256) (byte_of_Z (n mod 256) :: acc))).
        assert (Hge : len (byte_of_Z (n mod 256) :: acc) <= len (bytes_fuel f (n / 256) (byte_of_Z (n mod 256) :: acc))).
        { clear. generalize (byte_of_Z (n mod 256) :: acc) as a. generalize (n / 256) as m.
          induction f as [| f IHf]; intros m a; cbn [bytes_fuel]; [lia |].
          destruct (m =? 0); [lia |].
          etransitivity; [| apply IHf]. unfold len. cbn. lia. }
        unfold len in *. cbn [length] in *. change (256 ^ 0) with 1. lia.
      * specialize (IH (n / 256) (byte_of_Z (n mod 256) :: acc) (k - 1) Hq ltac:(lia)).
        replace (len (byte_of_Z (n mod 256) :: acc)) with (1 + len acc) in IH
          by (unfold len; cbn [length]; lia).
        replace (k - 1 + (1 + len acc)) with (k + len acc) in IH by lia.
        rewrite IH. replace k with (Z.succ (k - 1)) at 2 by lia.
        rewrite Z.pow_succ_r by lia.
        pose proof (Z.div_mod n 256 ltac:(lia)). pose proof (Z.mod_pos_bound n 256 ltac:(lia)).
        split; intros; [| apply Z.div_lt_upper_bound; lia].
        assert (n / 256 + 1 <= 256 ^ (k - 1)) by lia. nia.
Qed.

Lemma big_Bytes_fuel_ok (n : Z) : 0 <= n -> n < 256 ^ Z.of_nat (S (Z.to_nat (Z.log2 n))).
Proof.
  intros Hn. destruct (Z.eq_dec n 0) as [-> | Hnz]; [cbn; lia |].
  pose proof (Z.log2_nonneg n). pose proof (Z.log2_spec n ltac:(lia)) as [_ Hlt].
  rewrite Nat2Z.inj_succ, Z2Nat.id by lia.
  eapply Z.lt_le_trans; [exact Hlt |].
  change 256 with (2 ^ 8). rewrite <- Z.pow_mul_r by lia.
  apply Z.pow_le_mono_r; lia.
Qed.

Lemma big_Bytes_value (n : Z) : 0 <= n -> big_SetBytes (big_Bytes n) = n.
Proof.
  intros Hn. unfold big_Bytes. rewrite Z.abs_eq by done.
  rewrite bytes_fuel_value by (split; [done | by apply big_Bytes_fuel_ok]).
  change (len []) with 0. change (big_SetBytes []) with 0. lia.
Qed.

Lemma big_Bytes_length (n k : Z) : 0 <= n -> 0 <= k -> (len (big_Bytes n) <= k <-> n < 256 ^ k).
Proof.
  intros Hn Hk. unfold big_Bytes. rewrite Z.abs_eq by done.
  rewrite <- (bytes_fuel_length (S (Z.to_nat (Z.log2 n))) n [] k);
    [| split; [done | by apply big_Bytes_fuel_ok] | done].
  change (len (@nil byte)) with 0. by rewrite Z.add_0_r.
Qed.

Lemma go_copy_same_length (dst src : list byte) :
  length dst = length src -> go_copy dst src = src.
Proof.
  intros H. unfold go_copy. rewrite H, firstn_all, <- H, skipn_all. apply app_nil_r.
Qed.

Lemma PlotID_GetBigInt_nonneg (id : PlotID) : 0 <= PlotID_GetBigInt id.
Proof. apply big_SetBytes_range. Qed.

Lemma PlotID_GetBigInt_bound (id : PlotID) : wf_id id -> PlotID_GetBigInt id < 2 ^ 256.
Proof.
  intros H. pose proof (big_SetBytes_range id) as [_ Hlt].
  unfold wf_id in H. unfold len in Hlt. rewrite H in Hlt. exact Hlt.
Qed.

(** On 32-byte arrays the big-integer view is one-to-one. *)
Lemma PlotID_GetBigInt_inj (a b : PlotID) :
  wf_id a -> wf_id b -> PlotID_GetBigInt a = PlotID_GetBigInt b -> a = b.
Proof. unfold wf_id. intros Ha Hb. apply big_SetBytes_inj. congruence. Qed.

Lemma PlotID_SetBigInt_fits (id : PlotID) (i : Z) :
  wf_id id -> 0 <= i < 2 ^ 256 ->
  exists r, PlotID_SetBigInt id i = Some r /\ wf_id r /\ PlotID_GetBigInt r = i.
Proof.
  intros Hid [H0 Hlt]. unfold PlotID_SetBigInt.
  assert (Hlen : len (big_Bytes i) <= 32) by (apply big_Bytes_length; [lia | lia | exact Hlt]).
  destruct (Z.ltb_spec 32 (len (big_Bytes i))) as [? | _]; [lia |].
  eexists. split; [reflexivity |].
  assert (Hz : map (fun _ : byte => x00) id = replicate 32 x00).
  { unfold wf_id in Hid. rewrite <- Hid. clear. induction id; cbn; congruence. }
  rewrite Hz. unfold len in Hlen.
  rewrite go_copy_same_length by (rewrite length_drop, length_replicate; lia).
  rewrite take_replicate. split.
  - unfold wf_id. rewrite length_app, length_replicate. lia.
  - unfold PlotID_GetBigInt. rewrite big_SetBytes_app, big_SetBytes_zeros, big_Bytes_value; lia.
Qed.

Lemma PlotID_SetBigInt_overflow (id : PlotID) (i : Z) :
  2 ^ 256 <= i -> PlotID_SetBigInt id i = None.
Proof.
  intros H. unfold PlotID_SetBigInt.
  destruct (Z.ltb_spec 32 (len (big_Bytes i))) as [_ | Hle]; [done |].
  apply big_Bytes_length in Hle; lia.
Qed.

(** ** Plot work and thread work *)

(** [computePlotWork] as a function of the target's integer value. *)
Lemma computePlotWork_formula (target : PlotID) :
  computePlotWork target =
    if PlotID_GetBigInt target =? 0 then 0 else 2 ^ 256 / (PlotID_GetBigInt target + 1).
Proof.
  unfold computePlotWork, big_Cmp, big_Div.
  pose proof (PlotID_GetBigInt_nonneg target) as H.
  destruct (Z.compare_spec (PlotID_GetBigInt target) 0) as [E | E | E].
  - rewrite E. reflexivity.
  - lia.
  - destruct (Z.eqb_spec (PlotID_GetBigInt target) 0); [lia |].
    cbn [Z.leb Z.compare]. destruct (Z.ltb_spec 0 (PlotID_GetBigInt target + 1)); [done | lia].
Qed.

Lemma computePlotWork_nonneg (target : PlotID) : 0 <= computePlotWork target.
Proof.
  rewrite computePlotWork_formula. pose proof (PlotID_GetBigInt_nonneg target).
  destruct (_ =? 0); [lia |]. apply Z.div_pos; lia.
Qed.

(** C4, as stated, fails: with previous thread work [2^256 - 1] and target 1
    (plot work [2^255]) the exact sum is at least [2^256], and
    [computeThreadWork] panics instead of returning a saturated value. *)
Lemma C4_counterexample :
  wf_id target_one /\ wf_id work_max /\
  2 ^ 256 <= PlotID_GetBigInt work_max + computePlotWork target_one /\
  computeThreadWork target_one work_max = None.
Proof. vm_compute. repeat split; congruence. Qed.

(** C4, amended: [computeThreadWork] returns the exact sum
    [thread_work(prev) + plot_work(target)] as a 32-byte big-endian value
    whenever that sum is below [2^256]; when the sum is [2^256] or more it
    panics ([SetBigInt]'s guard) and returns nothing. *)
Theorem C4_computeThreadWork_exact_or_panic (target threadWork : PlotID) :
  let sum := PlotID_GetBigInt threadWork + computePlotWork target in
  (sum < 2 ^ 256 ->
     exists r, computeThreadWork target threadWork = Some r /\ wf_id r /\
               PlotID_GetBigInt r = sum /\ sum = saturating_sum_256 (PlotID_GetBigInt threadWork) (computePlotWork target)) /\
  (2 ^ 256 <= sum -> computeThreadWork target threadWork = None).
Proof.
  cbv zeta. unfold computeThreadWork.
  pose proof (PlotID_GetBigInt_nonneg threadWork). pose proof (computePlotWork_nonneg target).
  split.
  - intros Hlt.
    destruct (PlotID_SetBigInt_fits zero_id (PlotID_GetBigInt threadWork + computePlotWork target))
      as (r & Hr & Hwf & Hval); [reflexivity | lia |].
    exists r. repeat split; try done. unfold saturating_sum_256. lia.
  - apply PlotID_SetBigInt_overflow.
Qed.

(** C5, as stated, fails in both directions: target 0 is below target 1 but
    has less work (0 against [2^255]); and the two largest targets have the
    same work, 1, so more-or-equal work does not give a smaller-or-equal
    target. *)
Lemma C5_counterexample :
  (PlotID_GetBigInt zero_id <= PlotID_GetBigInt target_one /\
   computePlotWork zero_id < computePlotWork target_one) /\
  (computePlotWork work_max >= computePlotWork work_max_less_one /\
   PlotID_GetBigInt work_max_less_one < PlotID_GetBigInt work_max).
Proof. vm_compute. repeat split; congruence. Qed.

(** C5, amended: [computePlotWork(t)] is [floor(2^256 / (t + 1))] for
    [t > 0] and 0 for [t = 0]; over nonzero targets it is antitone
    ([t1 <= t2] gives [work(t1) >= work(t2)]), and strictly more work
    means a strictly smaller target. *)
Theorem C5_computePlotWork_antitone (t1 t2 : PlotID) :
  let T1 := PlotID_GetBigInt t1 in
  let T2 := PlotID_GetBigInt t2 in
  computePlotWork t1 = (if T1 =? 0 then 0 else 2 ^ 256 / (T1 + 1)) /\
  computePlotWork t2 = (if T2 =? 0 then 0 else 2 ^ 256 / (T2 + 1)) /\
  (0 < T1 -> T1 <= T2 -> computePlotWork t1 >= computePlotWork t2) /\
  (0 < T2 -> computePlotWork t1 > computePlotWork t2 -> T1 < T2).
Proof.
  cbv zeta. rewrite !computePlotWork_formula.
  pose proof (PlotID_GetBigInt_nonneg t1). pose proof (PlotID_GetBigInt_nonneg t2).
  assert (Hmono : forall a b, 0 < a -> a <= b -> 2 ^ 256 / (b + 1) <= 2 ^ 256 / (a + 1)).
  { intros a b Ha Hab. apply Z.div_le_compat_l; lia. }
  repeat split.
  - intros H1 H12.
    destruct (Z.eqb_spec (PlotID_GetBigInt t1) 0); [lia |].
    destruct (Z.eqb_spec (PlotID_GetBigInt t2) 0); [lia |].
    apply Z.le_ge, Hmono; lia.
  - intros H2 Hgt.
    destruct (Z.eqb_spec (PlotID_GetBigInt t2) 0); [lia |].
    destruct (Z.eqb_spec (PlotID_GetBigInt t1) 0).
    + pose proof (Z.div_pos (2 ^ 256) (PlotID_GetBigInt t2 + 1)). lia.
    + destruct (Z.lt_ge_cases (PlotID_GetBigInt t1) (PlotID_GetBigInt t2)) as [? | Hge]; [done |].
      pose proof (Hmono _ _ H2 Hge). lia.
Qed.

(** ** The series of a new interaction *)

Lemma wrap64_small (z : Z) : is_int64 z -> wrap64 z = z.
Proof.
  unfold is_int64, wrap64. intros H.
  rewrite Z.mod_small by lia. lia.
Qed.

Lemma bytes_Equal_true (a b : list byte) : bytes_Equal a b = true <-> a = b.
Proof. unfold bytes_Equal. apply bool_decide_eq_true. Qed.

(** [computeInteractionSeries] without the wrap-around, which cannot occur
    for a height that is not negative and a series length of two or more. *)
Lemma computeInteractionSeries_quot (P : Z) (isPlotroot : bool) (h : Z) :
  1 < P -> 0 <= h < 2 ^ 63 ->
  computeInteractionSeries P isPlotroot h =
    if isPlotroot then Z.quot h P + 1 else Z.quot (h - 100) P + 1.
Proof.
  intros HP Hh. unfold computeInteractionSeries. destruct isPlotroot.
  - assert (0 <= Z.quot h P <= h / 2).
    { rewrite Z.quot_div_nonneg by lia. split; [apply Z.div_pos; lia |].
      transitivity (h / P); [lia |]. apply Z.div_le_compat_l; lia. }
    assert (h / 2 < 2 ^ 62) by (apply Z.div_lt_upper_bound; lia).
    rewrite (wrap64_small (Z.quot h P)) by (unfold is_int64; lia).
    apply wrap64_small. unfold is_int64. lia.
  - rewrite (wrap64_small (h - 100)) by (unfold is_int64; lia).
    assert (- 100 <= Z.quot (h - 100) P <= Z.max 0 (h - 100)).
    { destruct (Z.le_gt_cases 100 h).
      - rewrite Z.quot_div_nonneg by lia. split.
        + pose proof (Z.div_pos (h - 100) P). lia.
        + transitivity (h - 100); [| lia]. apply Z.div_le_upper_bound; nia.
      - rewrite <- (Z.opp_involutive (h - 100)), Z.quot_opp_l by lia.
        rewrite Z.quot_div_nonneg by lia.
        pose proof (Z.div_pos (- (h - 100)) P).
        assert (- (h - 100) / P <= 100) by (apply Z.div_le_upper_bound; nia).
        lia. }
    rewrite (wrap64_small (Z.quot (h - 100) P)) by (unfold is_int64; lia).
    apply wrap64_small. unfold is_int64. lia.
Qed.

(** C3, as stated, fails: at height 0, with a series of 1008 plots (the
    upstream value), an ordinary sender gets series 1 from the code; the
    floor of a negative dividend would give 0. *)
Lemma C3_counterexample :
  Series (NewInteraction 1008 0 0 [x01] [x02] 0 0 0 []) = 1 /\
  series_by_floor 1008 false 0 = 0.
Proof. vm_compute. split; reflexivity. Qed.

(** Whatever the series length (two or more), the code and the floor
    differ below height 100: at height 99 the code adds 0 to 1, the floor
    adds -1. *)
Lemma computeInteractionSeries_not_floor (P : Z) :
  1 < P ->
  computeInteractionSeries P false 99 = 1 /\ series_by_floor P false 99 = 0.
Proof.
  intros HP. rewrite computeInteractionSeries_quot by lia.
  unfold series_by_floor. change (99 - 100) with (- (1)).
  rewrite Z.quot_opp_l, Z.quot_small by lia.
  assert (-(1) / P = -1) by (symmetry; apply (Z.div_unique _ _ _ (P - 1)); lia).
  lia.
Qed.

(** C3, amended: for every height [0 <= h] (an [int64]) and series length
    of two or more, the series of a new interaction is
    [floor(h / PLOTS_UNTIL_NEW_SERIES) + 1] when the sender is the 32-byte
    zero key, and otherwise [(h - 100) / PLOTS_UNTIL_NEW_SERIES + 1] with
    Go's division, which truncates toward zero: the floor when
    [h >= 100], and [1 - floor((100 - h) / PLOTS_UNTIL_NEW_SERIES)] when
    [h < 100] (so 1, not 0, when the series is longer than 100 plots). *)
Theorem C3_series_of_new_interaction (P now nonce : Z) (from to : list byte)
    (matures expires h : Z) (memo : list byte) :
  1 < P -> 0 <= h < 2 ^ 63 ->
  let series := Series (NewInteraction P now nonce from to matures expires h memo) in
  (from = replicate 32 x00 -> series = h / P + 1) /\
  (from <> replicate 32 x00 ->
     series = Z.quot (h - 100) P + 1 /\
     (100 <= h -> series = (h - 100) / P + 1) /\
     (h < 100 -> series = 1 - (100 - h) / P) /\
     (h < 100 -> 100 < P -> series = 1)).
Proof.
  intros HP Hh. cbn [NewInteraction Series].
  rewrite computeInteractionSeries_quot by lia.
  split.
  - intros ->. replace (bytes_Equal baseKey (replicate 32 x00)) with true
      by (symmetry; by apply bytes_Equal_true).
    rewrite Z.quot_div_nonneg by lia. reflexivity.
  - intros Hne. destruct (bytes_Equal baseKey from) eqn:E.
    { apply bytes_Equal_true in E. exfalso. apply Hne. by rewrite <- E. }
    assert (Hneg : h < 100 -> Z.quot (h - 100) P = - ((100 - h) / P)).
    { intros Hlt. replace (h - 100) with (- (100 - h)) by lia.
      rewrite Z.quot_opp_l, Z.quot_div_nonneg by lia. reflexivity. }
    repeat split.
    + intros Hge. rewrite Z.quot_div_nonneg by lia. reflexivity.
    + intros Hlt. rewrite Hneg by lia. lia.
    + intros Hlt HP100. rewrite Hneg by lia. rewrite Z.div_small by lia. lia.
Qed.

Lemma C3_series_of_new_interaction_witness :
  let series := Series (NewInteraction 1008 0 0 [x01] [x02] 0 0 99 []) in
  (@cons byte x01 [] = replicate 32 x00 -> series = 99 / 1008 + 1) /\
  (@cons byte x01 [] <> replicate 32 x00 ->
     series = Z.quot (99 - 100) 1008 + 1 /\
     (100 <= 99 -> series = (99 - 100) / 1008 + 1) /\
     (99 < 100 -> series = 1 - (100 - 99) / 1008) /\
     (99 < 100 -> 100 < 1008 -> series = 1)).
Proof.
  apply (C3_series_of_new_interaction 1008 0 0 [x01] [x02] 0 0 99 []); lia.
Defined.

(** ** Header identity and tip comparison *)

Lemma sha3_Sum256_length (data : list byte) : length (sha3_Sum256 data) = 32%nat.
Proof.
  unfold sha3_Sum256, Sha3.Sum256. cbv zeta.
  generalize (Sha3.absorb (length (Sha3.pad data) / Sha3.rate) (repeat 0%N 25) (Sha3.pad data)).
  intros st. reflexivity.
Qed.

(** [json.Marshal] cannot fail on a header, and writes the layout the
    hasher keeps in its buffer. *)
Lemma json_Marshal_PlotHeader_layout (hd : PlotHeader) :
  json_Marshal_PlotHeader hd = Ok (header_layout hd).
Proof.
  unfold json_Marshal_PlotHeader, json_object, json_fields, header_layout.
  unfold PlotID_MarshalJSON, InteractionID_MarshalJSON, json_int, PlotID_String,
    InteractionID_String.
  generalize (hex_EncodeToString (Previous hd)) (hex_EncodeToString (HashListRoot hd))
    (hex_EncodeToString (Target hd)) (hex_EncodeToString (ThreadWork hd))
    (strconv_FormatInt (HTime hd)) (strconv_FormatInt (HNonce hd))
    (strconv_FormatInt (Height hd)) (strconv_FormatInt (InteractionCount hd)).
  intros p r g w t n h c. f_equal.
  repeat (rewrite <- ?app_assoc; cbn).
  reflexivity.
Qed.

Lemma PlotHeader_ID_ok (hd : PlotHeader) :
  PlotHeader_ID hd = Ok (sha3_Sum256 (header_layout hd)).
Proof. unfold PlotHeader_ID. by rewrite json_Marshal_PlotHeader_layout. Qed.

Lemma PlotHeader_ID_wf (hd : PlotHeader) (id : PlotID) : PlotHeader_ID hd = Ok id -> wf_id id.
Proof. rewrite PlotHeader_ID_ok. intros [= <-]. apply sha3_Sum256_length. Qed.

Lemma big_Cmp_pos (x y : Z) : (0 <? big_Cmp x y) = true <-> y < x.
Proof. unfold big_Cmp. destruct (Z.compare_spec x y); cbn; split; (lia || discriminate). Qed.

Lemma big_Cmp_neg (x y : Z) : (big_Cmp x y <? 0) = true <-> x < y.
Proof. unfold big_Cmp. destruct (Z.compare_spec x y); cbn; split; (lia || discriminate). Qed.

(** What [Compare] returns, in terms of the three keys. *)
Lemma Compare_spec (a b : PlotHeader) (ta tb : Z) :
  let wa := PlotID_GetBigInt (ThreadWork a) in
  let wb := PlotID_GetBigInt (ThreadWork b) in
  let ia := PlotID_GetBigInt (sha3_Sum256 (header_layout a)) in
  let ib := PlotID_GetBigInt (sha3_Sum256 (header_layout b)) in
  Compare a b ta tb =
    Some (bool_decide (wb < wa \/ (wa = wb /\ ta < tb) \/ (wa = wb /\ ta = tb /\ ia < ib))).
Proof.
  cbv zeta. unfold Compare. rewrite !PlotHeader_ID_ok.
  set (wa := PlotID_GetBigInt (ThreadWork a)). set (wb := PlotID_GetBigInt (ThreadWork b)).
  set (ia := PlotID_GetBigInt _). set (ib := PlotID_GetBigInt _).
  destruct (0 <? big_Cmp wa wb) eqn:E1.
  { apply big_Cmp_pos in E1. f_equal. symmetry. apply bool_decide_eq_true. lia. }
  assert (~ wb < wa) by (intros Hx; apply big_Cmp_pos in Hx; congruence).
  destruct (big_Cmp wa wb <? 0) eqn:E2.
  { apply big_Cmp_neg in E2. f_equal. symmetry. apply bool_decide_eq_false. lia. }
  assert (~ wa < wb) by (intros Hx; apply big_Cmp_neg in Hx; congruence).
  destruct (Z.ltb_spec ta tb).
  { f_equal. symmetry. apply bool_decide_eq_true. lia. }
  destruct (Z.ltb_spec tb ta).
  { f_equal. symmetry. apply bool_decide_eq_false. lia. }
  f_equal. destruct (big_Cmp ia ib <? 0) eqn:E3; symmetry.
  - apply big_Cmp_neg in E3. apply bool_decide_eq_true. lia.
  - assert (~ ia < ib) by (intros Hx; apply big_Cmp_neg in Hx; congruence).
    apply bool_decide_eq_false. lia.
Qed.

(** C9: [Compare(a, b, ta, tb)] never panics and returns true exactly when
    a's thread work is greater, or the works are equal and [ta < tb], or
    works and timestamps are equal and a's id is the smaller 256-bit
    big-endian integer; so unless the headers agree on thread work, stored
    timestamp and id, exactly one of [Compare(a, b, ta, tb)] and
    [Compare(b, a, tb, ta)] is true. *)
Theorem C9_Compare_total_order (a b : PlotHeader) (ta tb : Z) :
  wf_id (ThreadWork a) -> wf_id (ThreadWork b) ->
  exists ida idb r r',
    PlotHeader_ID a = Ok ida /\ PlotHeader_ID b = Ok idb /\
    Compare a b ta tb = Some r /\ Compare b a tb ta = Some r' /\
    let wa := PlotID_GetBigInt (ThreadWork a) in
    let wb := PlotID_GetBigInt (ThreadWork b) in
    let ia := PlotID_GetBigInt ida in
    let ib := PlotID_GetBigInt idb in
    (r = true <-> (wa > wb \/ (wa = wb /\ ta < tb) \/ (wa = wb /\ ta = tb /\ ia < ib))) /\
    (~ (ThreadWork a = ThreadWork b /\ ta = tb /\ ida = idb) -> r = negb r').
Proof.
  intros Hwa Hwb.
  exists (sha3_Sum256 (header_layout a)), (sha3_Sum256 (header_layout b)).
  eexists _, _. rewrite !PlotHeader_ID_ok, !Compare_spec.
  repeat split; try reflexivity.
  - intros H. apply bool_decide_eq_true in H. lia.
  - intros H. apply bool_decide_eq_true. lia.
  - intros Hne.
    assert (Hkeys : PlotID_GetBigInt (ThreadWork a) <> PlotID_GetBigInt (ThreadWork b)
                    \/ ta <> tb
                    \/ PlotID_GetBigInt (sha3_Sum256 (header_layout a))
                       <> PlotID_GetBigInt (sha3_Sum256 (header_layout b))).
    { destruct (Z.eq_dec (PlotID_GetBigInt (ThreadWork a)) (PlotID_GetBigInt (ThreadWork b)))
        as [Ew | ?]; [| by left].
      destruct (Z.eq_dec ta tb) as [Et | ?]; [| right; by left].
      right; right. intros Ei. apply Hne. repeat split; try done.
      - by apply PlotID_GetBigInt_inj.
      - apply PlotID_GetBigInt_inj; [apply sha3_Sum256_length .. | done]. }
    match goal with |- bool_decide ?P = negb (bool_decide ?Q) =>
      destruct (bool_decide_reflect P) as [HP | HP];
      destruct (bool_decide_reflect Q) as [HQ | HQ]; cbn; try reflexivity; exfalso; lia
    end.
Qed.

Lemma C9_Compare_total_order_witness :
  exists ida idb r r',
    PlotHeader_ID (sample_header work_max 7) = Ok ida /\
    PlotHeader_ID (sample_header work_max 8) = Ok idb /\
    Compare (sample_header work_max 7) (sample_header work_max 8) 5 5 = Some r /\
    Compare (sample_header work_max 8) (sample_header work_max 7) 5 5 = Some r' /\
    let wa := PlotID_GetBigInt (ThreadWork (sample_header work_max 7)) in
    let wb := PlotID_GetBigInt (ThreadWork (sample_header work_max 8)) in
    let ia := PlotID_GetBigInt ida in
    let ib := PlotID_GetBigInt idb in
    (r = true <-> (wa > wb \/ (wa = wb /\ 5 < 5) \/ (wa = wb /\ 5 = 5 /\ ia < ib))) /\
    (~ (ThreadWork (sample_header work_max 7) = ThreadWork (sample_header work_max 8)
        /\ 5 = 5 /\ ida = idb) -> r = negb r').
Proof.
  apply (C9_Compare_total_order (sample_header work_max 7) (sample_header work_max 8) 5 5);
    reflexivity.
Defined.

(** ** Decoding identifiers *)

Lemma fromHexChar_valid (c : byte) : (15 <? fromHexChar c)%N = false <-> is_hex_char c.
Proof.
  unfold fromHexChar, is_hex_char. cbv zeta.
  destruct (N.leb_spec 48 (Byte.to_N c)), (N.leb_spec (Byte.to_N c) 57),
    (N.leb_spec 97 (Byte.to_N c)), (N.leb_spec (Byte.to_N c) 102),
    (N.leb_spec 65 (Byte.to_N c)), (N.leb_spec (Byte.to_N c) 70);
    cbn [andb]; rewrite N.ltb_ge || rewrite N.ltb_nlt; lia.
Qed.

(** On an even number of bytes [hex.Decode] succeeds exactly when every
    byte is a hexadecimal digit, and then returns half as many bytes. *)
Lemma hex_Decode_even (n : nat) : forall src,
  length src = (2 * n)%nat ->
  ((exists dst, hex_Decode src = Ok dst) <-> Forall is_hex_char src) /\
  (forall dst, hex_Decode src = Ok dst -> length dst = n).
Proof.
  induction n as [| n IH]; intros src Hlen.
  - destruct src; [| discriminate]. cbn. split; [split; eauto | by intros dst [= <-]].
  - destruct src as [| p [| q rest]]; try (cbn in Hlen; lia).
    assert (Hrest : length rest = (2 * n)%nat) by (cbn in Hlen; lia).
    destruct (IH rest Hrest) as [IH1 IH2].
    cbn [hex_Decode]. rewrite !Forall_cons, <- !fromHexChar_valid.
    destruct (15 <? fromHexChar p)%N.
    { split; [split; [by intros [? ?] | by intros [? _]] | by intros]. }
    destruct (15 <? fromHexChar q)%N.
    { split; [split; [by intros [? ?] | by intros (_ & ? & _)] | by intros]. }
    destruct (hex_Decode rest) as [dst | e].
    + split.
      * split; [intros _; repeat split; apply IH1; eauto | eauto].
      * intros d [= <-]. cbn. f_equal. by apply IH2.
    + split; [| by intros].
      split; [by intros [? ?] |].
      intros (_ & _ & HF). apply IH1 in HF as [? ?]. discriminate.
Qed.

Lemma strip_ends_66 (b : list byte) : length b = 66%nat -> strip_ends b = take 64 (drop 1 b).
Proof. intros H. unfold strip_ends. by rewrite H. Qed.

Lemma UnmarshalJSON_errors (b : list byte) :
  (exists e, hex_DecodeString (strip_ends b) = Err e) \/ length b <> 66%nat <->
  length b <> 66%nat \/ ~ Forall is_hex_char (take 64 (drop 1 b)).
Proof.
  destruct (decide (length b = 66%nat)) as [H66 | ?]; [| tauto].
  rewrite strip_ends_66 by done.
  assert (Hlen : length (take 64 (drop 1 b)) = (2 * 32)%nat)
    by (rewrite length_take, length_drop; lia).
  destruct (hex_Decode_even 32 _ Hlen) as [Hiff _]. unfold hex_DecodeString.
  split.
  - intros [[e He] | ?]; [| by left]. right. intros HF.
    apply Hiff in HF as [d Hd]. congruence.
  - intros [? | HF]; [by right |]. left.
    destruct (hex_Decode (take 64 (drop 1 b))) as [d | e]; [| eauto].
    exfalso. apply HF, Hiff. eauto.
Qed.

Lemma len_eqb_66 (b : list byte) : negb (len b =? 64 + 2) = true <-> length b <> 66%nat.
Proof.
  unfold len. rewrite negb_true_iff.
  destruct (Z.eqb_spec (Z.of_nat (length b)) (64 + 2)); split; intros; (done || lia).
Qed.

(** C10: [InteractionID.UnmarshalJSON] and [PlotID.UnmarshalJSON] return
    an error exactly when the input is not 66 bytes long or its middle 64
    bytes are not all hexadecimal digits; the first and the last byte are
    never looked at: some 66-byte input without a quote at either end is
    accepted by both. *)
Theorem C10_UnmarshalJSON_errors (id b : list byte) :
  ((exists e, PlotID_UnmarshalJSON id b = Err e) <->
     (length b <> 66%nat \/ ~ Forall is_hex_char (take 64 (drop 1 b)))) /\
  ((exists e, InteractionID_UnmarshalJSON id b = Err e) <->
     (length b <> 66%nat \/ ~ Forall is_hex_char (take 64 (drop 1 b)))) /\
  (length unquoted_id_text = 66%nat /\
   head unquoted_id_text <> Some dquote /\ last unquoted_id_text <> Some dquote /\
   Forall is_hex_char (take 64 (drop 1 unquoted_id_text)) /\
   (exists r, PlotID_UnmarshalJSON id unquoted_id_text = Ok r) /\
   (exists r, InteractionID_UnmarshalJSON id unquoted_id_text = Ok r)).
Proof.
  assert (Hcode : forall msg,
             (exists e, (if negb (len b =? 64 + 2) then Err (errorString msg)
                         else match hex_DecodeString (strip_ends b) with
                              | Err e => Err (hexError e)
                              | Ok idBytes => Ok (go_copy id idBytes)
                              end) = Err e)
             <-> (length b <> 66%nat \/ ~ Forall is_hex_char (take 64 (drop 1 b)))).
  { intros msg. rewrite <- UnmarshalJSON_errors.
    destruct (negb (len b =? 64 + 2)) eqn:E.
    - apply len_eqb_66 in E. split; [by right | eauto].
    - assert (length b = 66%nat).
      { destruct (decide (length b = 66%nat)); [done |].
        apply len_eqb_66 in n. congruence. }
      destruct (hex_DecodeString (strip_ends b)) as [d | e].
      + split; [by intros [? ?] | intros [[? ?] | ?]; done].
      + split; eauto. }
  split; [apply Hcode |]. split; [apply Hcode |].
  split; [reflexivity |].
  split; [by vm_compute |]. split; [by vm_compute |].
  split.
  - change (take 64 (drop 1 unquoted_id_text)) with (replicate 64 "0"%byte).
    apply Forall_replicate. unfold is_hex_char. cbn. lia.
  - split; eexists; reflexivity.
Qed.

(** ** The hash list root *)

Section HashListRoot.
Variable json_Marshal_Interaction : Interaction -> Result error (list byte).
Variable MAX_INTERACTIONS_PER_PLOT : Z.

Local Abbreviation ID := (Interaction_ID json_Marshal_Interaction).
Local Abbreviation has_id := (fun (tx : Interaction) (id : InteractionID) => ID tx = Ok id).

Lemma Interaction_ID_wf (tx : Interaction) (id : InteractionID) : ID tx = Ok id -> wf_id id.
Proof.
  unfold Interaction_ID. destruct (json_Marshal_Interaction _); [| done].
  intros [= <-]. apply sha3_Sum256_length.
Qed.

Lemma hash_ids_ok (txs : list Interaction) (ids : list InteractionID) :
  Forall2 has_id txs ids ->
  forall h, hash_ids json_Marshal_Interaction h txs = (h ++ concat ids, None).
Proof.
  induction 1 as [| tx id txs ids Hid _ IH]; intros h; cbn.
  - by rewrite app_nil_r.
  - rewrite Hid, IH. unfold hash_Write. by rewrite <- app_assoc.
Qed.

Lemma addPlotrootToHashListRoot_ok (h : hash_Hash) (plotroot : Interaction) (id0 : InteractionID) :
  ID plotroot = Ok id0 ->
  addPlotrootToHashListRoot json_Marshal_Interaction h plotroot
    = Ok (sha3_Sum256 (id0 ++ sha3_Sum256 h)).
Proof.
  intros Hid. unfold addPlotrootToHashListRoot. rewrite Hid.
  unfold hash_Write, hash_Sum, sha3_New256. cbn [app].
  by rewrite go_copy_same_length by (by rewrite sha3_Sum256_length).
Qed.

(** The batch computation, in closed form. *)
Lemma computeHashListRoot_ok (h : option hash_Hash) (plotroot : Interaction)
    (others : list Interaction) (id0 : InteractionID) (ids : list InteractionID) :
  ID plotroot = Ok id0 -> Forall2 has_id others ids ->
  computeHashListRoot json_Marshal_Interaction h (plotroot :: others)
    = Some (default [] h ++ concat ids,
            Ok (sha3_Sum256 (id0 ++ sha3_Sum256 (default [] h ++ concat ids)))).
Proof.
  intros H0 Hids. unfold computeHashListRoot.
  replace (match h with Some h0 => h0 | None => sha3_New256 end) with (default [] h)
    by (by destruct h).
  by rewrite (hash_ids_ok _ _ Hids), (addPlotrootToHashListRoot_ok _ _ _ H0).
Qed.

(** [AddInteraction] keeps the root equal to the plotroot's id mixed with
    the hash of everything the running hasher has seen. *)
Lemma AddInteractions_ok (r : list Interaction) (ids : list InteractionID) :
  Forall2 has_id r ids ->
  forall (b : Plot) (h : hash_Hash) (plotroot : Interaction) (others : list Interaction)
         (id0 : InteractionID),
    hasher b = Some h -> Interactions b = plotroot :: others -> ID plotroot = Ok id0 ->
    HashListRoot (Header b) = sha3_Sum256 (id0 ++ sha3_Sum256 h) ->
    exists b', AddInteractions json_Marshal_Interaction b r = Some (Ok b') /\
               hasher b' = Some (h ++ concat ids) /\
               Interactions b' = Interactions b ++ r /\
               HashListRoot (Header b') = sha3_Sum256 (id0 ++ sha3_Sum256 (h ++ concat ids)).
Proof.
  induction 1 as [| tx id r ids Hid _ IH]; intros b h plotroot others id0 Hh Hint H0 Hroot.
  - exists b. cbn. by rewrite !app_nil_r.
  - cbn [AddInteractions]. rewrite Hid. unfold AddInteraction.
    rewrite Hh. cbn [mbind option_bind]. rewrite Hint. cbn [mbind option_bind head].
    rewrite (addPlotrootToHashListRoot_ok _ _ _ H0). cbn [mbind option_bind].
    edestruct IH as (b' & Hb' & Hh' & Hint' & Hroot');
      [| | exact H0 | | exists b'; split; [exact Hb' |]].
    + reflexivity.
    + reflexivity.
    + reflexivity.
    + cbn in Hh', Hint', Hroot'. unfold hash_Write in *.
      rewrite <- ?app_assoc in *. cbn [concat]. rewrite <- ?app_assoc.
      repeat split; done.
Qed.

(** What [NewPlot] leaves for the scriber to continue from. *)
Lemma NewPlot_ok (now nonce : Z) (previous : PlotID) (height : Z)
    (target threadWork : PlotID) (plotroot : Interaction) (others : list Interaction)
    (id0 : InteractionID) (ids : list InteractionID) :
  len (plotroot :: others) <= MAX_INTERACTIONS_PER_PLOT ->
  ID plotroot = Ok id0 -> Forall2 has_id others ids ->
  is_Some (computeThreadWork target threadWork) ->
  exists b,
    NewPlot json_Marshal_Interaction MAX_INTERACTIONS_PER_PLOT now nonce previous height
            target threadWork (plotroot :: others) = Some (Ok b) /\
    hasher b = Some (concat ids) /\ Interactions b = plotroot :: others /\
    HashListRoot (Header b) = sha3_Sum256 (id0 ++ sha3_Sum256 (concat ids)).
Proof.
  intros Hmax H0 Hids [tw Htw]. unfold NewPlot.
  destruct (Z.ltb_spec MAX_INTERACTIONS_PER_PLOT (len (plotroot :: others))) as [? | _]; [lia |].
  rewrite (computeHashListRoot_ok _ _ _ _ _ H0 Hids). cbn [mbind option_bind default app].
  rewrite Htw. cbn [mbind option_bind].
  eexists. split; [reflexivity |]. repeat split.
Qed.

(** C2: a plot built by [NewPlot] from a non-empty prefix of L, extended
    with the remaining interactions one at a time by [AddInteraction], has
    the hash list root that [computeHashListRoot] computes over all of L,
    namely [H(id(L[0]) || H(id(L[1]) || ... || id(L[N-1])))] with H SHA3-256. *)
Theorem C2_hash_list_root_incremental (now nonce : Z) (previous : PlotID) (height : Z)
    (target threadWork : PlotID) (p r : list Interaction)
    (id0 : InteractionID) (ids : list InteractionID) :
  p <> [] -> len p <= MAX_INTERACTIONS_PER_PLOT ->
  Forall2 has_id (p ++ r) (id0 :: ids) ->
  is_Some (computeThreadWork target threadWork) ->
  exists b b' h,
    NewPlot json_Marshal_Interaction MAX_INTERACTIONS_PER_PLOT now nonce previous height
            target threadWork p = Some (Ok b) /\
    AddInteractions json_Marshal_Interaction b r = Some (Ok b') /\
    computeHashListRoot json_Marshal_Interaction None (p ++ r)
      = Some (h, Ok (HashListRoot (Header b'))) /\
    HashListRoot (Header b') = sha3_Sum256 (id0 ++ sha3_Sum256 (concat ids)) /\
    Interactions b' = p ++ r.
Proof.
  intros Hp Hmax Hids Htw.
  destruct p as [| plotroot others]; [done |]. clear Hp.
  cbn [app] in Hids. apply Forall2_cons_1 in Hids as [H0 Hids].
  apply Forall2_app_inv_l in Hids as (ids1 & ids2 & Hids1 & Hids2 & ->).
  destruct (NewPlot_ok now nonce previous height target threadWork plotroot others id0 ids1
              Hmax H0 Hids1 Htw) as (b & Hb & Hh & Hint & Hroot).
  destruct (AddInteractions_ok r ids2 Hids2 b _ _ _ _ Hh Hint H0 Hroot)
    as (b' & Hb' & Hh' & Hint' & Hroot').
  exists b, b'. eexists. split; [exact Hb |]. split; [exact Hb' |].
  change ((plotroot :: others) ++ r) with (plotroot :: (others ++ r)).
  rewrite (computeHashListRoot_ok None _ _ _ (ids1 ++ ids2) H0) by (by apply Forall2_app).
  cbn [default app]. rewrite Hroot', Hint', Hint, concat_app.
  repeat split; reflexivity.
Qed.
End HashListRoot.

Lemma C2_hash_list_root_incremental_witness :
  let json := sample_json_Marshal_Interaction in
  let p := [sample_tx 1 baseKey; sample_tx 2 (replicate 32 x09)] in
  let r := [sample_tx 3 (replicate 32 x09); sample_tx 4 (replicate 32 x0a)] in
  exists b b' h,
    NewPlot json 10000 1718344737 7 zero_id 1 target_one zero_id p = Some (Ok b) /\
    AddInteractions json b r = Some (Ok b') /\
    computeHashListRoot json None (p ++ r) = Some (h, Ok (HashListRoot (Header b'))) /\
    HashListRoot (Header b')
      = sha3_Sum256 (sha3_Sum256 (lit "1718344707,1")
                       ++ sha3_Sum256 (concat [sha3_Sum256 (lit "1718344707,2");
                                               sha3_Sum256 (lit "1718344707,3");
                                               sha3_Sum256 (lit "1718344707,4")])) /\
    Interactions b' = p ++ r.
Proof.
  cbv zeta.
  apply (C2_hash_list_root_incremental sample_json_Marshal_Interaction 10000
           1718344737 7 zero_id 1 target_one zero_id
           [sample_tx 1 baseKey; sample_tx 2 (replicate 32 x09)]
           [sample_tx 3 (replicate 32 x09); sample_tx 4 (replicate 32 x0a)]).
  - discriminate.
  - vm_compute. discriminate.
  - repeat constructor.
  - vm_compute. eauto.
Defined.

(** ** The interaction pool *)

Section Pool.
Context {ImbalanceCache : Type}.
Variable Apply : ImbalanceCache -> Interaction -> ImbalanceCache * Result error bool.

Lemma insufficient_imbalance_message (id : InteractionID) (tx : Interaction) :
  exists msg, insufficient_imbalance_error id tx = errorString msg /\
              contains msg (lit "insufficient imbalance").
Proof.
  unfold insufficient_imbalance_error. eexists. split; [reflexivity |].
  exists (lit "Interaction " ++ InteractionID_String id ++ lit " sender "
            ++ base64_EncodeToString (From tx) ++ lit " has "), [].
  rewrite <- !app_assoc, app_nil_r. reflexivity.
Qed.

(** C6, amended: [Add(id, tx)] returns [(false, nil)] and changes nothing
    when [id] is in the queue; otherwise it applies [tx] to the imbalance
    cache, and (a) when that returns an error, returns [(false, err)] with
    that error, the queue unchanged; (b) when that reports insufficient
    balance, returns false with an error whose message contains
    [insufficient imbalance], the queue contents and length unchanged;
    (c) when that succeeds, appends [tx] to the back, indexes it under
    [id] and returns [(true, nil)]. *)
Theorem C6_Add_outcomes (t : InteractionQueueMemory ImbalanceCache) (id : InteractionID)
    (tx : Interaction) :
  let t' := fst (Add Apply t id tx) in
  let ok := fst (snd (Add Apply t id tx)) in
  let err := snd (snd (Add Apply t id tx)) in
  (Exists t id = true -> t' = t /\ ok = false /\ err = None) /\
  (Exists t id = false ->
     (forall e, snd (Apply (imbalanceCache t) tx) = Err e ->
        ok = false /\ err = Some e /\
        txQueue t' = txQueue t /\ txMap t' = txMap t /\ Len t' = Len t) /\
     (snd (Apply (imbalanceCache t) tx) = Ok false ->
        ok = false /\
        (exists msg, err = Some (errorString msg) /\
                     contains msg (lit "insufficient imbalance")) /\
        txQueue t' = txQueue t /\ txMap t' = txMap t /\ Len t' = Len t) /\
     (snd (Apply (imbalanceCache t) tx) = Ok true ->
        ok = true /\ err = None /\
        Get t' 0 = Some (map Value (txQueue t) ++ [tx]) /\
        Value <$> (txMap t' !! id) = Some tx /\
        (forall id', id' <> id -> txMap t' !! id' = txMap t !! id') /\
        Exists t' id = true /\ Len t' = Len t + 1)).
Proof.
  cbv zeta. unfold Exists, Add.
  destruct (txMap t !! id) as [e |] eqn:Hid.
  - split; [done |]. intros H. exfalso. revert H.
    rewrite bool_decide_eq_false. intros H. apply H. eauto.
  - split.
    { rewrite bool_decide_eq_true. intros [? ?]. done. }
    intros _. destruct (Apply (imbalanceCache t) tx) as [cache r]. cbn [snd].
    repeat split; intros; subst r; cbn [fst snd txQueue txMap Len]; try done.
    + destruct (insufficient_imbalance_message id tx) as (msg & -> & Hc). eauto.
    + unfold Get. cbn. by rewrite map_app.
    + by rewrite lookup_insert_eq.
    + by rewrite lookup_insert_ne.
    + apply bool_decide_eq_true. rewrite lookup_insert_eq. eauto.
    + unfold Len. cbn. rewrite len_app. reflexivity.
Qed.

(** [Add] keeps the invariant. *)
Lemma Add_queue_ok (t : InteractionQueueMemory ImbalanceCache) (id : InteractionID)
    (tx : Interaction) :
  queue_ok t -> queue_ok (fst (Add Apply t id tx)).
Proof.
  intros [Hq Hm]. unfold Add.
  destruct (txMap t !! id); [done |].
  destruct (Apply (imbalanceCache t) tx) as [cache [[] | e]]; cbn [fst]; try done.
  split; cbn.
  - intros e He. apply elem_of_app in He as [He | He].
    + apply Hq in He. lia.
    + apply list_elem_of_singleton in He. subst. cbn. lia.
  - intros id' e. rewrite lookup_insert. case_decide.
    + intros [= <-]. cbn. lia.
    + intros He. apply Hm in He. lia.
Qed.
End Pool.

(** C6, as stated, fails: when the id is new and applying the interaction
    to the imbalance cache returns an error (a failed ledger lookup) rather
    than reporting insufficient balance, the interaction is not appended and
    [Add] returns [(false, err)], not [(true, nil)]. *)
Lemma C6_counterexample :
  let t := NewInteractionQueueMemory tt in
  let tx := sample_tx 1 (replicate 32 x09) in
  Exists t (sample_id 1) = false /\
  snd (Apply_unavailable (imbalanceCache t) tx) <> Ok false /\
  Add Apply_unavailable t (sample_id 1) tx
    = (t, (false, Some (errorString (lit "ledger unavailable")))) /\
  Get (fst (Add Apply_unavailable t (sample_id 1) tx)) 0 = Some [] /\
  ~ contains (lit "ledger unavailable") (lit "insufficient imbalance").
Proof.
  cbv zeta. repeat split; try done.
  intros (pre & post & H). apply (f_equal length) in H.
  rewrite !length_app in H. cbn in H. lia.
Qed.

Lemma filter_all {A : Type} (P : A -> Prop) `{forall x, Decision (P x)} (l : list A) :
  (forall x, P x) -> filter P l = l.
Proof.
  intros HP. induction l as [| x l IH]; [done |].
  rewrite filter_cons_True by done. by f_equal.
Qed.

Section PoolBatch.
Context {ImbalanceCache : Type}.
Implicit Types (t s : InteractionQueueMemory ImbalanceCache).

Lemma indexed_under_snoc (m : gmap (list byte) Element) (ids : list InteractionID)
    (id : InteractionID) (e : Element) :
  indexed_under m (ids ++ [id]) e <->
  indexed_under m ids e \/ addr <$> (m !! id) = Some (addr e).
Proof.
  unfold indexed_under. rewrite Exists_app, Exists_cons, Exists_nil. tauto.
Qed.

Lemma indexed_under_insert_fresh (m : gmap (list byte) Element) (ids : list InteractionID)
    (id : InteractionID) (e x : Element) :
  id ∉ ids -> indexed_under (<[id := e]> m) ids x <-> indexed_under m ids x.
Proof.
  intros Hid. unfold indexed_under. rewrite !Exists_exists.
  split; intros (id' & Hin & Hl); exists id'; (split; [done |]);
    rewrite lookup_insert_ne in * by (intros ->; apply Hid; by apply list_elem_of_In);
    done.
Qed.

(** The loop of [AddBatch] over the indices below [n]: the batch's first
    [n] interactions end up in front, in order, followed by what the queue
    held before less the elements indexed under the batch's first [n] ids. *)
Lemma AddBatch_loop_spec (ids : list InteractionID) (txs : list Interaction) (n : nat) :
  forall s,
    (n <= length ids)%nat -> (n <= length txs)%nat -> NoDup (take n ids) -> queue_ok s ->
    exists s',
      AddBatch_loop n ids txs s = Some s' /\
      map Value (txQueue s')
        = take n txs
            ++ map Value (filter (fun e => ~ indexed_under (txMap s) (take n ids) e) (txQueue s)) /\
      queue_ok s' /\
      (forall i id tx, (i < n)%nat -> ids !! i = Some id -> txs !! i = Some tx ->
                       Value <$> (txMap s' !! id) = Some tx) /\
      (forall id, id ∉ take n ids -> txMap s' !! id = txMap s !! id).
Proof.
  induction n as [| i IH]; intros s Hni Hnt Hnd [Hq Hm].
  - exists s. cbn [AddBatch_loop]. rewrite !take_0. cbn [app]. repeat split; try done.
    + f_equal. symmetry. apply filter_all.
      intros x. unfold indexed_under. rewrite Exists_nil. tauto.
    + intros; lia.
  - destruct (lookup_lt_is_Some_2 ids i ltac:(lia)) as [id Hid].
    destruct (lookup_lt_is_Some_2 txs i ltac:(lia)) as [tx Htx].
    rewrite (take_S_r _ _ _ Hid) in Hnd. apply NoDup_app in Hnd as (Hnd & Hfresh & _).
    assert (Hid_fresh : id ∉ take i ids).
    { intros Hin. apply (Hfresh _ Hin). by apply list_elem_of_singleton. }
    simpl AddBatch_loop.
    rewrite Hid, Htx. cbn [mbind option_bind].
    set (e := {| addr := next_addr s; Value := tx |}).
    set (q1 := match txMap s !! id with
               | Some e0 => list_Remove e0 (txQueue s)
               | None => txQueue s
               end).
    set (s1 := {| txMap := <[id := e]> (txMap s); txQueue := e :: q1;
                  imbalanceCache := imbalanceCache s; next_addr := S (next_addr s) |}).
    assert (Hq1 : forall x, x ∈ q1 -> x ∈ txQueue s).
    { intros x. unfold q1, list_Remove. destruct (txMap s !! id); [| done].
      rewrite list_elem_of_filter. tauto. }
    assert (Hok1 : queue_ok s1).
    { split; cbn.
      - intros x Hx. apply elem_of_cons in Hx as [-> | Hx]; [cbn; lia |].
        apply Hq1, Hq in Hx. lia.
      - intros id' x. rewrite lookup_insert. case_decide.
        + intros [= <-]. cbn. lia.
        + intros Hx. apply Hm in Hx. lia. }
    destruct (IH s1 ltac:(lia) ltac:(lia) Hnd Hok1) as (s' & Hs' & Hval & Hok' & Hnew & Hold).
    exists s'. split; [exact Hs' |]. split; [| split; [exact Hok' | split]].
    + rewrite Hval, (take_S_r _ _ _ Htx), <- app_assoc. f_equal.
      cbn [txQueue txMap s1].
      rewrite filter_cons_True.
      2:{ rewrite indexed_under_insert_fresh by done.
          unfold indexed_under. rewrite Exists_exists. intros (id' & _ & Hl).
          destruct (txMap s !! id') as [x |] eqn:Hx; [| done].
          apply Hm in Hx. cbn in Hl. injection Hl as Hl. lia. }
      cbn [map app Value e]. f_equal. f_equal.
      rewrite (take_S_r _ _ _ Hid).
      unfold q1, list_Remove. destruct (txMap s !! id) as [e0 |] eqn:He0.
      * rewrite list_filter_filter. apply list_filter_iff. intros x.
        rewrite indexed_under_snoc, indexed_under_insert_fresh, He0 by done.
        cbn. split.
        -- intros [H1 H2] [H3 | [= H3]]; [tauto | lia].
        -- intros H1. split; [tauto |]. intros H2. apply H1. right. by rewrite H2.
      * apply list_filter_iff. intros x.
        rewrite indexed_under_snoc, indexed_under_insert_fresh, He0 by done.
        cbn. split; [intros H1 [H2 | H2]; [tauto | done] | tauto].
    + intros j id' tx' Hj Hid' Htx'. destruct (decide (j = i)) as [-> | Hne].
      * assert (id' = id) by congruence. assert (tx' = tx) by congruence. subst.
        rewrite Hold by done. cbn. by rewrite lookup_insert_eq.
      * apply (Hnew j); [lia | done | done].
    + intros id' Hid'. rewrite (take_S_r _ _ _ Hid) in Hid'.
      rewrite Hold by (intros ?; apply Hid', elem_of_app; by left).
      cbn. apply lookup_insert_ne. intros ->. apply Hid', elem_of_app. right.
      by apply list_elem_of_singleton.
Qed.

(** C7, amended: for a batch of matching lengths whose ids are pairwise
    distinct, after [AddBatch(ids, txs, height)] the queue holds [txs[0]],
    ..., [txs[n-1]], then its prior contents without the entries that were
    indexed under one of [ids]; every id of the batch is indexed to its
    interaction; nothing is dropped for series, maturity, expiry or
    imbalance. *)
Theorem C7_AddBatch_order (t : InteractionQueueMemory ImbalanceCache)
    (ids : list InteractionID) (txs : list Interaction) (height : Z) :
  queue_ok t -> length ids = length txs -> NoDup ids ->
  exists t',
    AddBatch t ids txs height = Some (t', None) /\
    Get t' 0
      = Some (txs ++ map Value (filter (fun e => ~ indexed_under (txMap t) ids e) (txQueue t))) /\
    (forall i id tx, ids !! i = Some id -> txs !! i = Some tx ->
                     Value <$> (txMap t' !! id) = Some tx) /\
    queue_ok t'.
Proof.
  intros Hok Hlen Hnd.
  destruct (AddBatch_loop_spec ids txs (length txs) t) as (t' & Ht' & Hval & Hok' & Hnew & _);
    [lia | lia | by rewrite <- Hlen, firstn_all | done |].
  exists t'. unfold AddBatch. rewrite Ht'. cbn [mbind option_bind].
  split; [done |]. split; [| split; [| done]].
  - unfold Get. cbn [Z.eqb orb]. rewrite Hval, firstn_all.
    by rewrite <- Hlen, firstn_all.
  - intros i id tx Hid Htx. apply (Hnew i); [| done | done].
    by apply lookup_lt_Some in Htx.
Qed.

(** [AddBatch] panics when [ids] is shorter than [txs]. *)
Lemma AddBatch_short_ids (t : InteractionQueueMemory ImbalanceCache)
    (ids : list InteractionID) (txs : list Interaction) (height : Z) :
  (length ids < length txs)%nat -> AddBatch t ids txs height = None.
Proof.
  intros Hlt. unfold AddBatch. destruct txs as [| tx txs' _] using rev_ind.
  - cbn in Hlt. lia.
  - rewrite length_app in *. cbn [length] in *.
    replace (length txs' + 1)%nat with (S (length txs')) by lia.
    simpl AddBatch_loop.
    rewrite (lookup_ge_None_2 ids) by lia. reflexivity.
Qed.
End PoolBatch.

(** The empty queue satisfies the invariant. *)
Lemma NewInteractionQueueMemory_ok {C : Type} (cache : C) :
  queue_ok (NewInteractionQueueMemory cache).
Proof. split; cbn; [intros e He; by apply elem_of_nil in He | intros id e; by rewrite lookup_empty]. Qed.

Lemma pool_B_ok : queue_ok pool_B.
Proof. apply Add_queue_ok, NewInteractionQueueMemory_ok. Qed.

(** C7, as stated, fails for a batch that names one id twice: of the two
    interactions only the first stays in the queue. *)
Lemma C7_counterexample :
  let ids := [sample_id 1; sample_id 1] in
  let txs := [sample_tx 1 (replicate 32 x09); sample_tx 2 (replicate 32 x09)] in
  length ids = length txs /\
  (AddBatch pool_B ids txs 5 ≫= fun r => Get (fst r) 0)
    = Some [sample_tx 1 (replicate 32 x09); sample_tx 9 (replicate 32 x09)] /\
  txs ++ [sample_tx 9 (replicate 32 x09)]
    <> [sample_tx 1 (replicate 32 x09); sample_tx 9 (replicate 32 x09)].
Proof. cbv zeta. split; [done |]. split; [vm_compute; reflexivity | discriminate]. Qed.

(** Scenario S5, first step: from the pool [B], [add_batch] of [tx1, tx2]
    yields [tx1, tx2, B]. *)
Lemma C7_AddBatch_order_witness :
  exists t',
    AddBatch pool_B [sample_id 1; sample_id 2]
             [sample_tx 1 (replicate 32 x09); sample_tx 2 (replicate 32 x09)] 5 = Some (t', None) /\
    Get t' 0
      = Some ([sample_tx 1 (replicate 32 x09); sample_tx 2 (replicate 32 x09)]
                ++ map Value (filter (fun e => ~ indexed_under (txMap pool_B)
                                                   [sample_id 1; sample_id 2] e)
                                     (txQueue pool_B))) /\
    (forall i id tx, [sample_id 1; sample_id 2] !! i = Some id ->
                     [sample_tx 1 (replicate 32 x09); sample_tx 2 (replicate 32 x09)] !! i = Some tx ->
                     Value <$> (txMap t' !! id) = Some tx) /\
    queue_ok t'.
Proof.
  apply (C7_AddBatch_order pool_B [sample_id 1; sample_id 2]
           [sample_tx 1 (replicate 32 x09); sample_tx 2 (replicate 32 x09)] 5).
  - exact pool_B_ok.
  - reflexivity.
  - apply (bool_decide_unpack _). vm_compute. exact I.
Defined.

Example S5_add_batch :
  (AddBatch pool_B [sample_id 1; sample_id 2]
            [sample_tx 1 (replicate 32 x09); sample_tx 2 (replicate 32 x09)] 5
     ≫= fun r => Get (fst r) 0)
  = Some [sample_tx 1 (replicate 32 x09); sample_tx 2 (replicate 32 x09);
          sample_tx 9 (replicate 32 x09)].
Proof. vm_compute. reflexivity. Qed.

(** ** Ranking *)

Lemma back_and_forth_indexed :
  indexInteractions NewGraph back_and_forth true = Some back_and_forth_graph.
Proof. vm_compute. reflexivity. Qed.

Lemma back_and_forth_normalize :
  normalize back_and_forth_graph = Some back_and_forth_weights.
Proof. vm_compute. reflexivity. Qed.

Lemma back_and_forth_first_pass :
  rank_pass 1 one_third back_and_forth_weights
    (set_ranking one_third <$> nodes back_and_forth_graph) = Some back_and_forth_odd.
Proof. vm_compute. reflexivity. Qed.

Lemma back_and_forth_odd_pass :
  rank_pass 1 one_third back_and_forth_weights (fst back_and_forth_odd)
    = Some back_and_forth_even.
Proof. vm_compute. reflexivity. Qed.

Lemma back_and_forth_even_pass :
  rank_pass 1 one_third back_and_forth_weights (fst back_and_forth_even)
    = Some back_and_forth_odd.
Proof. vm_compute. reflexivity. Qed.

Lemma back_and_forth_deltas :
  (epsilon_1e6 <? snd back_and_forth_odd)%float = true /\
  (epsilon_1e6 <? snd back_and_forth_even)%float = true /\
  (epsilon_1e6 <? 1)%float = true.
Proof. vm_compute. repeat split. Qed.

(** Once in either of the two states the loop never leaves them. *)
Lemma back_and_forth_oscillates (fuel : nat) :
  rank_loop fuel 1 epsilon_1e6 one_third back_and_forth_weights
    (fst back_and_forth_odd) (snd back_and_forth_odd) = OutOfFuel /\
  rank_loop fuel 1 epsilon_1e6 one_third back_and_forth_weights
    (fst back_and_forth_even) (snd back_and_forth_even) = OutOfFuel.
Proof.
  destruct back_and_forth_deltas as (Hodd & Heven & _).
  induction fuel as [| k [IHodd IHeven]]; cbn [rank_loop]; rewrite Hodd, Heven; [done |].
  rewrite back_and_forth_odd_pass, back_and_forth_even_pass.
  destruct back_and_forth_odd as [a da], back_and_forth_even as [b db]. cbn in *.
  by rewrite IHodd, IHeven.
Qed.

(** C8 fails on the code: after a plotroot pays A, A pays B and B pays A,
    the rankings of A and B swap between two thirds and one third on every
    pass, the delta stays at two thirds, and [Rank(1.0, 1e-6)] never
    returns, whatever number of passes it is given. *)
Theorem C8_Rank_does_not_terminate :
  exists g,
    indexInteractions NewGraph back_and_forth true = Some g /\
    (forall fuel, Rank fuel 1 epsilon_1e6 g = OutOfFuel) /\
    (index g !! pubKeyToString baseKey, index g !! pubKeyToString key_A,
     index g !! pubKeyToString key_B) = (Some 0%N, Some 1%N, Some 2%N) /\
    map (fun i => ranking <$> (fst back_and_forth_odd !! i)) [0; 1; 2]%N
      = [Some 0; Some 0x1.5555555555555p-1; Some 0x1.5555555555555p-2]%float /\
    map (fun i => ranking <$> (fst back_and_forth_even !! i)) [0; 1; 2]%N
      = [Some 0; Some 0x1.5555555555555p-2; Some 0x1.5555555555555p-1]%float.
Proof.
  exists back_and_forth_graph. split; [exact back_and_forth_indexed |].
  split; [| repeat split; vm_compute; reflexivity].
  intros fuel. unfold Rank. rewrite back_and_forth_normalize.
  change (1 / float_of_len (size (nodes back_and_forth_graph)))%float with one_third.
  destruct fuel as [| k].
  - cbn [rank_loop]. destruct back_and_forth_deltas as (_ & _ & ->). reflexivity.
  - cbn [rank_loop]. destruct back_and_forth_deltas as (_ & _ & ->).
    rewrite back_and_forth_first_pass.
    destruct (back_and_forth_oscillates k) as [Hodd _].
    destruct back_and_forth_odd as [nds delta]. cbn [fst snd] in Hodd.
    by rewrite Hodd.
Qed.

(** Scenario S6: on the two-node cycle both rankings are one half. *)
Example S6_two_node_cycle :
  (g ← indexInteractions NewGraph [transfer key_A key_B; transfer key_B key_A] true;
   match Rank 1 1 epsilon_1e6 g with
   | Done g => Some (map (fun kv => ranking (snd kv)) (range (nodes g)))
   | _ => None
   end) = Some [0.5; 0.5]%float.
Proof. vm_compute. reflexivity. Qed.

(** ** The header hasher *)

(** *** Writing into the buffer *)

Lemma written_refl (P b : list byte) : P `prefix_of` b -> written P b b.
Proof. by repeat split. Qed.

Lemma written_length (P b b0 : list byte) : written P b b0 -> len b = len b0.
Proof. intros (_ & _ & H). unfold len. by rewrite H. Qed.

Lemma written_fits (P b b0 : list byte) : written P b b0 -> len P <= len b.
Proof. intros ([r ->] & _ & _). rewrite len_app. pose proof (len_nonneg r). lia. Qed.

Lemma overwrite_prefix (P r d : list byte) (off : Z) :
  off = len P -> (length d <= length r)%nat ->
  overwrite (P ++ r) off d = P ++ d ++ drop (length d) r.
Proof.
  intros -> Hd. unfold overwrite, len. rewrite Nat2Z.id.
  rewrite take_app_length, drop_app_add'. reflexivity. reflexivity.
Qed.

(** A write at the end of what has been written extends it. *)
Lemma overwrite_written (P b b0 : list byte) (off : Z) (d : list byte) :
  written P b b0 -> off = len P -> len P + len d <= len b ->
  written (P ++ d) (overwrite b off d) b0.
Proof.
  intros ([r ->] & Hdrop & Hlen) Hoff Hfit.
  rewrite len_app in Hfit. unfold len in Hfit.
  rewrite overwrite_prefix by (done || lia).
  rewrite drop_app_length in Hdrop. split; [| split].
  - exists (drop (length d) r). by rewrite <- app_assoc.
  - rewrite app_assoc, drop_app_length.
    rewrite Hdrop, drop_drop, length_app. reflexivity.
  - rewrite <- Hlen, !length_app, length_drop. lia.
Qed.

(** Where the old content beyond what has been written is already right,
    it counts as written. *)
Lemma written_keep (P P0 T b b0 : list byte) :
  written P b b0 -> (P0 ++ T) `prefix_of` b0 -> length P0 = length P ->
  written (P ++ T) b b0.
Proof.
  intros ([r ->] & Hdrop & Hlen) [r0 ->] HP.
  rewrite drop_app_length in Hdrop. rewrite <- app_assoc, <- HP, drop_app_length in Hdrop.
  subst r. split; [| split].
  - exists r0. by rewrite <- app_assoc.
  - rewrite app_assoc, drop_app_length.
    rewrite !length_app, <- HP, <- length_app, drop_app_length. reflexivity.
  - exact Hlen.
Qed.

Lemma written_prefix (P b b0 : list byte) : written P b b0 -> P `prefix_of` b.
Proof. by intros (? & _). Qed.

Lemma len_overwrite (b : list byte) (off : Z) (d : list byte) :
  0 <= off -> off + len d <= len b -> len (overwrite b off d) = len b.
Proof.
  intros H0 Hfit. unfold overwrite, len in *.
  rewrite !length_app, length_take, length_drop. lia.
Qed.

(** The primitives, when what they write fits the buffer. *)
Lemma copy_at_fit (b : list byte) (off : Z) (d : list byte) :
  0 <= off -> off + len d <= len b -> copy_at b off d = Some (overwrite b off d).
Proof.
  intros H0 Hfit. unfold copy_at. pose proof (len_nonneg d).
  destruct (Z.leb_spec 0 off); [| lia]. destruct (Z.leb_spec off (len b)); [| lia].
  cbn [andb]. rewrite firstn_all2; [done |]. unfold len in *. lia.
Qed.

Lemma hex_Encode_at_fit (b : list byte) (off : Z) (src : list byte) :
  0 <= off -> off + 2 * len src <= len b ->
  hex_Encode_at b off src = Some (overwrite b off (hex_EncodeToString src), 2 * len src).
Proof.
  intros H0 Hfit. unfold hex_Encode_at. pose proof (len_nonneg src).
  destruct (Z.leb_spec 0 off); [| lia]. destruct (Z.leb_spec off (len b)); [| lia].
  destruct (Z.leb_spec (2 * len src) (len b - off)); [done | lia].
Qed.

Lemma slice_to_fit (b : list byte) (n : Z) :
  0 <= n <= len b -> slice_to b n = Some (Shared n).
Proof.
  intros H. unfold slice_to.
  destruct (Z.leb_spec 0 n); [| lia]. destruct (Z.leb_spec n (len b)); [done | lia].
Qed.

Lemma go_append_fit (b : list byte) (n : Z) (d : list byte) :
  n + len d <= len b -> go_append b (Shared n) d = (overwrite b n d, Shared (n + len d)).
Proof. intros H. unfold go_append. destruct (Z.leb_spec (n + len d) (len b)); [done | lia]. Qed.

Lemma len_from_Shared (m k : Z) : 0 <= k <= m -> len_from (Shared m) k = Some (m - k).
Proof.
  intros H. unfold len_from, slice_len.
  destruct (Z.leb_spec 0 k); [| lia]. destruct (Z.leb_spec k m); [done | lia].
Qed.

Lemma len_hex_EncodeToString (src : list byte) : len (hex_EncodeToString src) = 2 * len src.
Proof.
  unfold len, hex_EncodeToString. induction src as [| x src IH]; [done |].
  cbn [flat_map]. rewrite length_app. cbn [length hex_encode_byte]. lia.
Qed.

Lemma len_id (id : list byte) : wf_id id -> len id = 32.
Proof. unfold wf_id, len. intros ->. reflexivity. Qed.

(** *** Lengths *)

Lemma len_hdrPrevious : len hdrPrevious = 13. Proof. reflexivity. Qed.
Lemma len_hdrHashListRoot : len hdrHashListRoot = 20. Proof. reflexivity. Qed.
Lemma len_hdrTime : len hdrTime = 9. Proof. reflexivity. Qed.
Lemma len_hdrTarget : len hdrTarget = 11. Proof. reflexivity. Qed.
Lemma len_hdrThreadWork : len hdrThreadWork = 17. Proof. reflexivity. Qed.
Lemma len_hdrNonce : len hdrNonce = 10. Proof. reflexivity. Qed.
Lemma len_hdrHeight : len hdrHeight = 10. Proof. reflexivity. Qed.
Lemma len_hdrInteractionCount : len hdrInteractionCount = 21. Proof. reflexivity. Qed.
Lemma len_hdrEnd : len hdrEnd = 1. Proof. reflexivity. Qed.
Lemma len_new_buffer : len (buffer NewPlotHeaderHasher) = 435. Proof. reflexivity. Qed.

Create Rewrite HintDb lens.
#[export] Hint Rewrite @len_app len_hex_EncodeToString len_hdrPrevious len_hdrHashListRoot
  len_hdrTime len_hdrTarget len_hdrThreadWork len_hdrNonce len_hdrHeight
  len_hdrInteractionCount len_hdrEnd len_new_buffer : lens.

Ltac unfold_layout :=
  unfold fits, header_layout, layout_of, seg_to_count, seg_low, seg_to_nonce, seg_mid,
    seg_to_time, seg_head in *.

Ltac solve_len :=
  repeat match goal with
         | H : wf_id ?x |- _ => apply len_id in H
         end;
  unfold_layout;
  autorewrite with lens in *;
  unfold len in *; lia.

Lemma header_layout_eq (hd : PlotHeader) :
  header_layout hd
    = layout_of hd (HashListRoot hd) (HTime hd) (HNonce hd) (InteractionCount hd).
Proof. unfold_layout. by rewrite <- !app_assoc. Qed.

Lemma layout_same_fixed_fields (a b : PlotHeader) (r : InteractionID) (t n c : Z) :
  same_fixed_fields a b ->
  seg_head a = seg_head b /\
  seg_to_time a r = seg_to_time b r /\
  seg_to_nonce a r t = seg_to_nonce b r t /\
  seg_to_count a r t n = seg_to_count b r t n /\
  layout_of a r t n c = layout_of b r t n c.
Proof. intros (H1 & H2 & H3 & H4). unfold_layout. by rewrite H1, H2, H3, H4. Qed.

Lemma len_nil {A} : len (@nil A) = 0. Proof. reflexivity. Qed.
#[export] Hint Rewrite @len_nil : lens.

(** *** Stepping through the writes *)

Ltac after_step := cbv beta iota zeta delta [mbind option_bind].

(** The write just exposed in the goal extends what [HW] says is written. *)
Ltac extend HW :=
  match goal with
  | |- context [overwrite ?b ?off ?d] =>
      match type of HW with
      | written ?P b ?b0 =>
          apply (overwrite_written P b b0 off d) in HW; [| solve_len | solve_len]
      end
  end.

Ltac with_length HW tac :=
  let Hwl := fresh "Hwl" in
  let Hwf := fresh "Hwf" in
  pose proof (written_length _ _ _ HW) as Hwl;
  pose proof (written_fits _ _ _ HW) as Hwf;
  tac; clear Hwl Hwf.

Ltac wcopy HW :=
  with_length HW ltac:(rewrite copy_at_fit by solve_len; extend HW); after_step.
Ltac whex HW :=
  with_length HW ltac:(rewrite hex_Encode_at_fit by solve_len; extend HW); after_step.
Ltac wappend HW :=
  with_length HW ltac:(unfold strconv_AppendInt; rewrite go_append_fit by solve_len; extend HW);
  after_step.
Ltac wslice HW :=
  with_length HW ltac:(rewrite slice_to_fit by solve_len); after_step.
Ltac case_offset H :=
  match goal with
  | |- context [if bool_decide (?o ≠ 0) then _ else _] =>
      destruct (bool_decide_reflect (o ≠ 0)) as [H | H]
  end.
Ltac wlen HW :=
  with_length HW ltac:(rewrite len_from_Shared by solve_len); after_step.

(** *** [initBuffer] *)

Lemma initBuffer_ok (h : PlotHeaderHasher) (hd : PlotHeader) :
  len (buffer h) = len (buffer NewPlotHeaderHasher) -> length (resultBuf h) = 32%nat ->
  wf_header hd -> fits hd ->
  exists h', initBuffer h hd = Some h' /\ hasher_inv h' hd /\
             hashesPerAttempt h' = hashesPerAttempt h.
Proof.
  intros Hcap Hres (Hp & Hr & Hg & Hw & _) Hfit.
  assert (HW : written [] (buffer h) (buffer h)) by apply written_refl, prefix_nil.
  unfold initBuffer. unfold_layout.
  wcopy HW. whex HW. wcopy HW. whex HW. wcopy HW.
  wslice HW. wappend HW. wlen HW.
  wappend HW. whex HW. wcopy HW. whex HW. wcopy HW.
  wslice HW. wappend HW. wlen HW.
  wappend HW. wappend HW. wlen HW.
  wappend HW. wappend HW. wlen HW.
  wappend HW. wlen HW.
  eexists. split; [reflexivity |]. split; [| reflexivity].
  pose proof (written_length _ _ _ HW) as Hlen.
  apply written_prefix in HW. rewrite <- !app_assoc in HW. cbn [app] in HW.
  constructor; cbn [initialized buffer bufLen previousHashListRoot previousTime previousNonce
                      previousInteractionCount hashListRootOffset timeOffset nonceOffset
                      interactionCountOffset timeLen nonceLen txCountLen resultBuf];
    unfold_layout; try done; try (by rewrite Hlen); solve_len.
Qed.

(** *** The blocks of [Update] *)

Lemma layout_split_root (hd : PlotHeader) (r : InteractionID) (t n c : Z) :
  layout_of hd r t n c
    = (seg_head hd ++ hex_EncodeToString r)
        ++ (hdrTime ++ strconv_FormatInt t ++ seg_mid hd ++ strconv_FormatInt n
              ++ seg_low hd ++ strconv_FormatInt c ++ hdrEnd).
Proof. unfold_layout. by rewrite <- !app_assoc. Qed.

Lemma layout_split_time (hd : PlotHeader) (r : InteractionID) (t n c : Z) :
  layout_of hd r t n c
    = ((seg_to_time hd r ++ strconv_FormatInt t) ++ seg_mid hd)
        ++ (strconv_FormatInt n ++ seg_low hd ++ strconv_FormatInt c ++ hdrEnd).
Proof. unfold layout_of, seg_to_count, seg_to_nonce. by rewrite <- !app_assoc. Qed.

Lemma layout_split_nonce (hd : PlotHeader) (r : InteractionID) (t n c : Z) :
  layout_of hd r t n c
    = ((seg_to_nonce hd r t ++ strconv_FormatInt n) ++ seg_low hd)
        ++ (strconv_FormatInt c ++ hdrEnd).
Proof. unfold layout_of, seg_to_count. by rewrite <- !app_assoc. Qed.

Lemma layout_split_count (hd : PlotHeader) (r : InteractionID) (t n c : Z) :
  layout_of hd r t n c = (seg_to_count hd r t n ++ strconv_FormatInt c) ++ hdrEnd.
Proof. unfold layout_of. by rewrite <- !app_assoc. Qed.

Lemma prefix_len (P b : list byte) : P `prefix_of` b -> len P <= len b.
Proof. intros [r ->]. rewrite len_app. pose proof (len_nonneg r). lia. Qed.

(** hash_list_root *)
Lemma update_hash_list_root_ok (h : PlotHeaderHasher) (hd : PlotHeader) (r' : InteractionID)
    (hd' : PlotHeader) (r : InteractionID) (t n c : Z) :
  HashListRoot hd' = r' -> wf_id r -> wf_id r' ->
  previousHashListRoot h = r -> hashListRootOffset h = len (seg_head hd) ->
  layout_of hd r t n c `prefix_of` buffer h ->
  exists b1, update_hash_list_root h hd' = Some (r', b1) /\
             len b1 = len (buffer h) /\
             layout_of hd r' t n c `prefix_of` b1.
Proof.
  intros Hr' Hr Hwr' Hprev Hoff Hpre. unfold update_hash_list_root.
  rewrite Hprev, Hr', Hoff. case_bool_decide as Hne.
  - pose proof (prefix_len _ _ Hpre) as Hfull.
    rewrite layout_split_root in Hpre.
    assert (HW : written (seg_head hd) (buffer h) (buffer h)).
    { apply written_refl. rewrite <- app_assoc in Hpre. by apply prefix_app_l in Hpre. }
    whex HW. eexists. split; [reflexivity |].
    split; [by apply written_length in HW |].
    rewrite layout_split_root. apply (written_prefix _ _ (buffer h)).
    eapply written_keep; [exact HW | exact Hpre |].
    apply Nat2Z.inj. change (len (seg_head hd ++ hex_EncodeToString r)
                             = len (seg_head hd ++ hex_EncodeToString r')).
    solve_len.
  - rewrite <- Hne. exists (buffer h). split; [reflexivity |]. split; [reflexivity | exact Hpre].
Qed.

Lemma length_eq_len {A} (a b : list A) : len a = len b -> length a = length b.
Proof. unfold len. lia. Qed.

(** time *)
Lemma update_time_ok (h : PlotHeaderHasher) (hd hd' : PlotHeader) (r : InteractionID)
    (t t' n c : Z) (b1 : list byte) :
  HTime hd' = t' -> Target hd' = Target hd -> ThreadWork hd' = ThreadWork hd ->
  wf_id (Target hd) -> wf_id (ThreadWork hd) ->
  previousTime h = t -> timeOffset h = len (seg_to_time hd r) ->
  timeLen h = len (strconv_FormatInt t) ->
  layout_of hd r t n c `prefix_of` b1 ->
  len (seg_to_nonce hd r t') <= len b1 ->
  exists tl off b2,
    update_time h hd' 0 b1 = Some (t', tl, off, b2) /\
    tl = len (strconv_FormatInt t') /\
    off = len (strconv_FormatInt t') - len (strconv_FormatInt t) /\
    written (seg_to_nonce hd r t') b2 b1.
Proof.
  intros Ht' Hg Hw Hwg Hww Hprev Hoff Htl Hpre Hfit. unfold update_time.
  rewrite Hprev, Ht', Hg, Hw, Hoff, Htl.
  rewrite layout_split_time in Hpre. apply prefix_app_l in Hpre.
  case_bool_decide as Hne.
  - assert (HW : written (seg_to_time hd r) b1 b1).
    { apply written_refl. rewrite <- !app_assoc in Hpre. by apply prefix_app_l in Hpre. }
    wslice HW. wappend HW. wlen HW. case_bool_decide as Hoff0.
    + wcopy HW. whex HW. wcopy HW. whex HW. wcopy HW.
      eexists _, _, _. split; [reflexivity |]. split; [lia |]. split; [lia |].
      unfold seg_to_nonce, seg_mid. by rewrite <- !app_assoc in *.
    + after_step. eexists _, _, _. split; [reflexivity |]. split; [lia |]. split; [lia |].
      unfold seg_to_nonce. rewrite app_assoc.
      eapply written_keep; [exact HW | exact Hpre |].
      apply length_eq_len. solve_len.
  - clear Ht'. subst t'. eexists _, _, _. split; [reflexivity |]. split; [lia |]. split; [lia |].
    apply written_refl. unfold seg_to_nonce. by rewrite app_assoc.
Qed.

(** nonce *)
Lemma update_nonce_ok (h : PlotHeaderHasher) (hd hd' : PlotHeader) (r : InteractionID)
    (t t' n n' c off : Z) (b1 b2 : list byte) :
  HNonce hd' = n' -> Height hd' = Height hd ->
  previousNonce h = n -> nonceOffset h = len (seg_to_nonce hd r t) ->
  nonceLen h = len (strconv_FormatInt n) ->
  off = len (strconv_FormatInt t') - len (strconv_FormatInt t) ->
  layout_of hd r t n c `prefix_of` b1 ->
  written (seg_to_nonce hd r t') b2 b1 ->
  len (seg_to_count hd r t' n') <= len b1 ->
  exists no nl off' b3,
    update_nonce h hd' off b2 = Some (n', no, nl, off', b3) /\
    no = len (seg_to_nonce hd r t') /\
    nl = len (strconv_FormatInt n') /\
    off' = off + (len (strconv_FormatInt n') - len (strconv_FormatInt n)) /\
    written (seg_to_count hd r t' n') b3 b1.
Proof.
  intros Hn' Hh Hprev Hoff Hnl Hoffset Hpre HW Hfit. unfold update_nonce, deviceScribing.
  rewrite Hprev, Hn', Hh, Hoff, Hnl. cbn [negb andb].
  rewrite layout_split_nonce in Hpre. apply prefix_app_l in Hpre.
  destruct (bool_decide (off ≠ 0) || bool_decide (n ≠ n')) eqn:Hrun.
  - wslice HW. wappend HW. wlen HW. case_offset Hoff0.
    + wappend HW. wappend HW. wappend HW.
      eexists _, _, _, _. split; [reflexivity |].
      split; [solve_len |]. split; [lia |]. split; [lia |].
      unfold seg_to_count, seg_low. by rewrite <- !app_assoc in *.
    + eexists _, _, _, _. split; [reflexivity |].
      split; [solve_len |]. split; [lia |]. split; [lia |].
      unfold seg_to_count. rewrite app_assoc.
      eapply written_keep; [exact HW | exact Hpre |].
      apply length_eq_len. solve_len.
  - apply orb_false_iff in Hrun as [H1 H2].
    apply bool_decide_eq_false in H1, H2.
    apply dec_stable in H1, H2. clear Hn'. subst n'.
    eexists _, _, _, _. split; [reflexivity |].
    split; [solve_len |]. split; [lia |]. split; [lia |].
    unfold seg_to_count.
    rewrite <- app_assoc in Hpre.
    eapply written_keep; [exact HW | exact Hpre | apply length_eq_len; solve_len].
Qed.

(** interaction_count *)
Lemma update_interaction_count_ok (h : PlotHeaderHasher) (hd hd' : PlotHeader)
    (r : InteractionID) (t t' n n' c c' off : Z) (b1 b3 : list byte) :
  InteractionCount hd' = c' ->
  previousInteractionCount h = c ->
  interactionCountOffset h = len (seg_to_count hd r t n) ->
  txCountLen h = len (strconv_FormatInt c) ->
  off = len (seg_to_count hd r t' n') - len (seg_to_count hd r t n) ->
  layout_of hd r t n c `prefix_of` b1 ->
  written (seg_to_count hd r t' n') b3 b1 ->
  len (layout_of hd r t' n' c') <= len b1 ->
  exists co cl off' b4,
    update_interaction_count h hd' off b3 = Some (c', co, cl, off', b4) /\
    co = len (seg_to_count hd r t' n') /\
    cl = len (strconv_FormatInt c') /\
    off' = len (layout_of hd r t' n' c') - len (layout_of hd r t n c) /\
    written (layout_of hd r t' n' c') b4 b1.
Proof.
  intros Hc' Hprev Hoff Hcl Hoffset Hpre HW Hfit. unfold update_interaction_count.
  rewrite Hprev, Hc', Hoff, Hcl.
  destruct (bool_decide (off ≠ 0) || bool_decide (c ≠ c')) eqn:Hrun.
  - wslice HW. wappend HW. wlen HW. case_offset Hoff0.
    + wappend HW.
      eexists _, _, _, _. split; [reflexivity |].
      split; [solve_len |]. split; [lia |]. split; [solve_len |].
      unfold layout_of. by rewrite <- !app_assoc in *.
    + eexists _, _, _, _. split; [reflexivity |].
      split; [solve_len |]. split; [lia |]. split; [solve_len |].
      unfold layout_of. rewrite app_assoc.
      rewrite layout_split_count in Hpre.
      eapply written_keep; [exact HW | exact Hpre |].
      apply length_eq_len. solve_len.
  - apply orb_false_iff in Hrun as [H1 H2].
    apply bool_decide_eq_false in H1, H2.
    apply dec_stable in H1, H2. clear Hc'. subst c'.
    eexists _, _, _, _. split; [reflexivity |].
    split; [solve_len |]. split; [lia |]. split; [solve_len |].
    unfold layout_of.
    eapply written_keep; [exact HW | exact Hpre | apply length_eq_len; solve_len].
Qed.

(** *** [Update] keeps the buffer equal to the serialisation *)

Lemma updateBuffer_ok (h : PlotHeaderHasher) (hd hd' : PlotHeader) :
  hasher_inv h hd -> wf_header hd -> wf_header hd' -> same_fixed_fields hd hd' -> fits hd' ->
  exists h', updateBuffer h hd' = Some h' /\ hasher_inv h' hd' /\
             resultBuf h' = resultBuf h /\ hashesPerAttempt h' = hashesPerAttempt h.
Proof.
  intros [inv_initialized0 inv_cap0 inv_prefix0 inv_bufLen0 inv_root0 inv_time0 inv_nonce0
            inv_count0 inv_rootOffset0 inv_timeOffset0 inv_nonceOffset0 inv_countOffset0
            inv_timeLen0 inv_nonceLen0 inv_txCountLen0 inv_resultBuf0]
         (Hp & Hr & Hg & Hw & _) (Hp' & Hr' & Hg' & Hw' & _) Hsame Hfit.
  destruct (layout_same_fixed_fields hd hd' (HashListRoot hd') (HTime hd') (HNonce hd')
              (InteractionCount hd') Hsame) as (_ & _ & _ & _ & Hlay).
  destruct Hsame as (Hsp & Hsg & Hsw & Hsh).
  unfold fits in Hfit. rewrite header_layout_eq, <- Hlay in Hfit. clear Hlay.
  rewrite header_layout_eq in inv_prefix0, inv_bufLen0.
  set (r := HashListRoot hd) in *. set (t := HTime hd) in *. set (n := HNonce hd) in *.
  set (c := InteractionCount hd) in *.
  set (r' := HashListRoot hd') in *. set (t' := HTime hd') in *. set (n' := HNonce hd') in *.
  set (c' := InteractionCount hd') in *.
  destruct (update_hash_list_root_ok h hd r' hd' r t n c eq_refl Hr Hr' inv_root0
              inv_rootOffset0 inv_prefix0) as (b1 & E1 & Hl1 & Hp1).
  assert (Hto : timeOffset h = len (seg_to_time hd r')) by (rewrite inv_timeOffset0; solve_len).
  assert (Hfit2 : len (seg_to_nonce hd r' t') <= len b1) by solve_len.
  destruct (update_time_ok h hd hd' r' t t' n c b1 eq_refl (eq_sym Hsg) (eq_sym Hsw) Hg Hw
              inv_time0 Hto inv_timeLen0 Hp1 Hfit2) as (tl & off2 & b2 & E2 & Htl & Hoff2 & HW2).
  assert (Hno : nonceOffset h = len (seg_to_nonce hd r' t))
    by (rewrite inv_nonceOffset0; solve_len).
  assert (Hfit3 : len (seg_to_count hd r' t' n') <= len b1) by solve_len.
  destruct (update_nonce_ok h hd hd' r' t t' n n' c off2 b1 b2 eq_refl (eq_sym Hsh)
              inv_nonce0 Hno inv_nonceLen0 Hoff2 Hp1 HW2 Hfit3)
    as (no & nl & off3 & b3 & E3 & Hno' & Hnl & Hoff3 & HW3).
  assert (Hco : interactionCountOffset h = len (seg_to_count hd r' t n))
    by (rewrite inv_countOffset0; solve_len).
  assert (Hoff3' : off3 = len (seg_to_count hd r' t' n') - len (seg_to_count hd r' t n))
    by solve_len.
  assert (Hfit4 : len (layout_of hd r' t' n' c') <= len b1) by solve_len.
  destruct (update_interaction_count_ok h hd hd' r' t t' n n' c c' off3 b1 b3 eq_refl
              inv_count0 Hco inv_txCountLen0 Hoff3' Hp1 HW3 Hfit4)
    as (co & cl & off4 & b4 & E4 & Hco' & Hcl & Hoff4 & HW4).
  unfold updateBuffer. rewrite E1. after_step. rewrite E2. after_step.
  rewrite E3. after_step. rewrite E4. after_step.
  eexists. split; [reflexivity |].
  pose proof (written_length _ _ _ HW4) as Hl4. apply written_prefix in HW4.
  assert (Hsame : same_fixed_fields hd hd') by done.
  destruct (layout_same_fixed_fields hd hd' r' t' n' c' Hsame) as (S1 & S2 & S3 & S4 & S5).
  split; [| done].
  constructor; cbn [initialized buffer bufLen previousHashListRoot previousTime previousNonce
                      previousInteractionCount hashListRootOffset timeOffset nonceOffset
                      interactionCountOffset timeLen nonceLen txCountLen resultBuf];
    rewrite ?header_layout_eq; fold r' t' n' c'; rewrite <- ?S1, <- ?S2, <- ?S3, <- ?S4, <- ?S5;
    try done; try lia; try solve_len.
Qed.

Lemma hasher_inv_prefix (h : PlotHeaderHasher) (hd : PlotHeader) :
  hasher_inv h hd ->
  slice_data (buffer h) (bufLen h) = Some (header_layout hd) /\
  take (Z.to_nat (bufLen h)) (buffer h) = header_layout hd.
Proof.
  intros Hinv. pose proof (inv_prefix _ _ Hinv) as inv_prefix0.
  pose proof (inv_bufLen _ _ Hinv) as inv_bufLen0.
  pose proof (prefix_len _ _ inv_prefix0). pose proof (len_nonneg (header_layout hd)).
  assert (Htake : take (Z.to_nat (bufLen h)) (buffer h) = header_layout hd).
  { rewrite inv_bufLen0. unfold len. rewrite Nat2Z.id.
    destruct inv_prefix0 as [rest ->]. apply take_app_length. }
  split; [| done]. unfold slice_data.
  destruct (Z.leb_spec 0 (bufLen h)); [| lia].
  destruct (Z.leb_spec (bufLen h) (len (buffer h))); [| lia].
  cbn [andb]. by rewrite Htake.
Qed.

Lemma hash_then_sum (f : list byte -> list byte) (data : list byte) :
  [] ++ f ([] ++ data) = f data.
Proof. reflexivity. Qed.

Lemma hash_Sum_Write (data : list byte) :
  hash_Sum (hash_Write sha3_New256 data) [] = sha3_Sum256 data.
Proof. exact (hash_then_sum sha3_Sum256 data). Qed.

(** One call of [Update], on a new hasher or after earlier calls. *)
Lemma Update_ok (scriberNum : Z) (h : PlotHeaderHasher) (hd' : PlotHeader) :
  hasher_ready h \/
    (exists hd, hasher_inv h hd /\ wf_header hd /\ same_fixed_fields hd hd') ->
  wf_header hd' -> fits hd' ->
  exists h',
    Update scriberNum h hd'
      = Some (h', (PlotID_GetBigInt (sha3_Sum256 (header_layout hd')), hashesPerAttempt h)) /\
    hasher_inv h' hd' /\
    take (Z.to_nat (bufLen h')) (buffer h') = header_layout hd' /\
    hashesPerAttempt h' = hashesPerAttempt h.
Proof.
  intros Hh Hwf Hfit.
  assert (Hbuf : exists h1, (if negb (initialized h) then initBuffer h hd' else updateBuffer h hd')
                            = Some h1 /\ hasher_inv h1 hd' /\
                            hashesPerAttempt h1 = hashesPerAttempt h).
  { destruct Hh as [(Hinit & Hcap & Hres) | (hd & Hinv & Hwfo & Hsame)].
    - rewrite Hinit. cbn [negb].
      destruct (initBuffer_ok h hd' Hcap Hres Hwf Hfit) as (h1 & E & Hinv & Hhpa).
      exists h1. split; [done | split; done].
    - rewrite (inv_initialized _ _ Hinv). cbn [negb].
      destruct (updateBuffer_ok h hd hd' Hinv Hwfo Hwf Hsame Hfit) as (h1 & E & Hinv1 & _ & Hh).
      exists h1. split; [done | split; done]. }
  destruct Hbuf as (h1 & E & Hinv & Hhpa). unfold Update. rewrite E. after_step.
  destruct (hasher_inv_prefix _ _ Hinv) as [Hdata Htake]. rewrite Hdata. after_step.
  rewrite hash_Sum_Write.
  pose proof (sha3_Sum256_length (header_layout hd')) as Hlen.
  revert Hlen. generalize (sha3_Sum256 (header_layout hd')). intros digest Hlen.
  rewrite go_copy_same_length by (by rewrite Hlen, (inv_resultBuf _ _ Hinv)).
  rewrite Hhpa. eexists. split; [reflexivity |].
  split; [| split; [exact Htake | reflexivity]].
  constructor; cbn [initialized buffer bufLen previousHashListRoot previousTime
    previousNonce previousInteractionCount hashListRootOffset timeOffset nonceOffset
    interactionCountOffset timeLen nonceLen txCountLen resultBuf];
    [ exact (inv_initialized _ _ Hinv) | exact (inv_cap _ _ Hinv) | exact (inv_prefix _ _ Hinv)
    | exact (inv_bufLen _ _ Hinv) | exact (inv_root _ _ Hinv) | exact (inv_time _ _ Hinv)
    | exact (inv_nonce _ _ Hinv) | exact (inv_count _ _ Hinv)
    | exact (inv_rootOffset _ _ Hinv) | exact (inv_timeOffset _ _ Hinv)
    | exact (inv_nonceOffset _ _ Hinv) | exact (inv_countOffset _ _ Hinv)
    | exact (inv_timeLen _ _ Hinv) | exact (inv_nonceLen _ _ Hinv)
    | exact (inv_txCountLen _ _ Hinv) | exact Hlen ].
Qed.

Lemma same_fixed_fields_trans (a b c : PlotHeader) :
  same_fixed_fields a b -> same_fixed_fields a c -> same_fixed_fields b c.
Proof. unfold same_fixed_fields. intros (? & ? & ? & ?) (? & ? & ? & ?). repeat split; congruence. Qed.

Lemma reserialised_layout (hd : PlotHeader) :
  reserialised hd (PlotID_GetBigInt (sha3_Sum256 (header_layout hd)), header_layout hd).
Proof.
  exists (sha3_Sum256 (header_layout hd)), (header_layout hd).
  by rewrite PlotHeader_ID_ok, json_Marshal_PlotHeader_layout.
Qed.

Lemma run_updates_ok (hds : list PlotHeader) :
  forall (h : PlotHeaderHasher) (hd : PlotHeader),
    hasher_inv h hd -> wf_header hd ->
    Forall wf_header hds -> Forall (same_fixed_fields hd) hds -> Forall fits hds ->
    exists results, run_updates h hds = Some results /\ Forall2 reserialised hds results.
Proof.
  induction hds as [| hd' hds IH]; intros h hd Hinv Hwf Hwfs Hsame Hfits.
  - exists []. by split.
  - apply Forall_cons in Hwfs as [Hwf' Hwfs]. apply Forall_cons in Hsame as [Hsame' Hsame].
    apply Forall_cons in Hfits as [Hfit' Hfits].
    destruct (Update_ok 0 h hd' (or_intror (ex_intro _ hd (conj Hinv (conj Hwf Hsame'))))
                Hwf' Hfit') as (h' & E & Hinv' & Htake & _).
    destruct (IH h' hd' Hinv' Hwf' Hwfs) as (results & Er & HF); [| done |].
    { eapply Forall_impl; [exact Hsame |]. intros x. by apply same_fixed_fields_trans. }
    cbn [run_updates]. rewrite E. after_step. rewrite Er. after_step.
    eexists. split; [reflexivity |]. constructor; [| exact HF].
    rewrite Htake. apply reserialised_layout.
Qed.

(** X1: for every plot header and every finite sequence of versions of it
    that differ in hash_list_root, time, nonce and interaction_count only,
    as long as the canonical JSON of each version fits the hasher's buffer
    (435 bytes), every call of [Update] on a hasher made by
    [NewPlotHeaderHasher] returns, the integer it returns is the SHA3-256 of
    the canonical JSON of the current version read big-endian (the value of
    [PlotHeader.ID]), and the buffer prefix of length [bufLen] it leaves is
    that canonical JSON. *)
Theorem Update_matches_ID (hd0 : PlotHeader) (hds : list PlotHeader) :
  Forall wf_header (hd0 :: hds) -> Forall (same_fixed_fields hd0) hds ->
  Forall fits (hd0 :: hds) ->
  exists results,
    run_updates NewPlotHeaderHasher (hd0 :: hds) = Some results /\
    Forall2 reserialised (hd0 :: hds) results.
Proof.
  intros Hwfs Hsame Hfits.
  apply Forall_cons in Hwfs as [Hwf Hwfs]. apply Forall_cons in Hfits as [Hfit Hfits].
  destruct (Update_ok 0 NewPlotHeaderHasher hd0) as (h & E & Hinv & Htake & _); [| done | done |].
  { left. split; [reflexivity |]. split; reflexivity. }
  destruct (run_updates_ok hds h hd0 Hinv Hwf Hwfs Hsame Hfits) as (results & Er & HF).
  cbn [run_updates]. rewrite E. after_step. rewrite Er. after_step.
  eexists. split; [reflexivity |]. constructor; [| exact HF].
  rewrite Htake. apply reserialised_layout.
Qed.

(** ** More on the header hasher *)

Lemma Update_matches_ID_witness :
  let versions :=
    [scribing_header zero_id 999999999 9 9;
     scribing_header zero_id 999999999 10 9;
     scribing_header (sample_id 5) 1000000000 10 10;
     scribing_header (sample_id 5) 1000000000 (-3) 2] in
  exists results,
    run_updates NewPlotHeaderHasher versions = Some results /\
    Forall2 reserialised versions results.
Proof.
  cbv zeta.
  apply (Update_matches_ID (scribing_header zero_id 999999999 9 9)
           [scribing_header zero_id 999999999 10 9;
            scribing_header (sample_id 5) 1000000000 10 10;
            scribing_header (sample_id 5) 1000000000 (-3) 2]).
  - repeat (apply Forall_cons; split); try apply Forall_nil;
      vm_compute; repeat split; first [reflexivity | intros H; discriminate H].
  - repeat (apply Forall_cons; split); try apply Forall_nil;
      vm_compute; repeat split; reflexivity.
  - repeat (apply Forall_cons; split); try apply Forall_nil;
      vm_compute; first [exact I | intros H; discriminate H].
Defined.

(** *** Lengths, whether or not the header fits *)

Lemma copy_at_len (b : list byte) (off : Z) (src b' : list byte) :
  copy_at b off src = Some b' -> len b' = len b.
Proof.
  unfold copy_at. destruct (Z.leb_spec 0 off); [| done].
  destruct (Z.leb_spec off (len b)); [| done]. cbn [andb]. intros [= <-].
  apply len_overwrite; [done |]. unfold len in *. rewrite length_take. lia.
Qed.

Lemma hex_Encode_at_len (b : list byte) (off : Z) (src b' : list byte) (w : Z) :
  hex_Encode_at b off src = Some (b', w) -> len b' = len b /\ w = 2 * len src.
Proof.
  unfold hex_Encode_at. destruct (Z.leb_spec 0 off); [| done].
  destruct (Z.leb_spec off (len b)); [| done].
  destruct (Z.leb_spec (2 * len src) (len b - off)); [| done]. cbn [andb]. intros [= <- <-].
  split; [| done]. apply len_overwrite; [done |]. rewrite len_hex_EncodeToString. lia.
Qed.

Lemma slice_to_ok (b : list byte) (n : Z) (s : slice) :
  slice_to b n = Some s -> slice_ok b s /\ slice_len s = n.
Proof.
  unfold slice_to. destruct (Z.leb_spec 0 n); [| done].
  destruct (Z.leb_spec n (len b)); [| done]. cbn [andb]. intros [= <-]. by cbn.
Qed.

Lemma go_append_len (b : list byte) (s : slice) (d b' : list byte) (s' : slice) :
  slice_ok b s -> go_append b s d = (b', s') ->
  len b' = len b /\ slice_len s' = slice_len s + len d /\ slice_ok b' s'.
Proof.
  intros Hs. unfold go_append. destruct s as [n | x]; cbn in Hs.
  - destruct (Z.leb_spec (n + len d) (len b)); intros [= <- <-]; cbn.
    + pose proof (len_nonneg d). rewrite len_overwrite by lia. lia.
    + split; [done |]. split; [| done]. rewrite len_app. unfold len in *.
      rewrite length_take. lia.
  - intros [= <- <-]. cbn. by rewrite len_app.
Qed.

Lemma len_from_value (s : slice) (k r : Z) : len_from s k = Some r -> r = slice_len s - k.
Proof.
  unfold len_from. destruct (Z.leb_spec 0 k); [| done].
  destruct (Z.leb_spec k (slice_len s)); [| done]. cbn [andb]. by intros [= <-].
Qed.

Lemma initBuffer_bufLen (h : PlotHeaderHasher) (hd : PlotHeader) (h' : PlotHeaderHasher) :
  initBuffer h hd = Some h' ->
  bufLen h' = len (header_layout hd) /\ len (buffer h') = len (buffer h).
Proof.
  unfold initBuffer. intros H.
  repeat match type of H with
         | (?m ≫= _) = Some _ =>
             let E := fresh "E" in
             destruct m as [? |] eqn:E; cbn [mbind option_bind] in H; [| discriminate H]
         | (let '(_, _) := ?p in _) = Some _ =>
             let E := fresh "E" in destruct p as [? ?] eqn:E
         end.
  injection H as <-.
  cbn [bufLen buffer].
  repeat match goal with
         | E : copy_at _ _ _ = Some _ |- _ => apply copy_at_len in E
         | E : hex_Encode_at _ _ _ = Some _ |- _ => apply hex_Encode_at_len in E as [? ?]
         | E : slice_to _ _ = Some _ |- _ => apply slice_to_ok in E as [? ?]
         | E : len_from _ _ = Some _ |- _ => apply len_from_value in E
         | E : strconv_AppendInt ?b ?s ?i = _, Hs : slice_ok ?b ?s |- _ =>
             unfold strconv_AppendInt in E; apply (go_append_len _ _ _ _ _ Hs) in E as (? & ? & ?)
         | E : go_append ?b ?s ?d = _, Hs : slice_ok ?b ?s |- _ =>
             apply (go_append_len _ _ _ _ _ Hs) in E as (? & ? & ?)
         end.
  split; [solve_len | unfold len in *; lia].
Qed.

(** X2: a header whose canonical JSON is longer than the buffer of a new
    hasher (435 bytes) makes the first [Update] panic: the appends of
    [initBuffer] outgrow the buffer, and [h.buffer[:h.bufLen]] is out of
    range. *)
Theorem Update_overlong_panics (scriberNum : Z) (hd : PlotHeader) :
  ~ fits hd -> Update scriberNum NewPlotHeaderHasher hd = None.
Proof.
  intros Hfit. unfold Update.
  change (initialized NewPlotHeaderHasher) with false. cbn [negb].
  destruct (initBuffer NewPlotHeaderHasher hd) as [h1 |] eqn:E; [| reflexivity].
  apply initBuffer_bufLen in E as [Hlen Hcap]. cbn [mbind option_bind].
  assert (Hdata : slice_data (buffer h1) (bufLen h1) = None).
  { unfold slice_data, fits in *. rewrite Hlen, Hcap.
    destruct (Z.leb_spec (len (header_layout hd)) (len (buffer NewPlotHeaderHasher)));
      [lia |]. by rewrite andb_false_r. }
  by rewrite Hdata.
Qed.

Lemma Update_overlong_panics_witness : Update 0 NewPlotHeaderHasher overlong_header = None.
Proof.
  apply (Update_overlong_panics 0 overlong_header).
  vm_compute. intros H. apply H. reflexivity.
Defined.

Lemma run_IDFast_ok (hds : list PlotHeader) :
  forall (h : PlotHeaderHasher) (hd : PlotHeader),
    hasher_inv h hd -> wf_header hd -> hashesPerAttempt h = 1 ->
    Forall wf_header hds -> Forall (same_fixed_fields hd) hds -> Forall fits hds ->
    run_IDFast (Some h) hds
      = Some (map (fun hd => (PlotID_GetBigInt (sha3_Sum256 (header_layout hd)), 1)) hds).
Proof.
  induction hds as [| hd' hds IH]; intros h hd Hinv Hwf Hhpa Hwfs Hsame Hfits; [done |].
  apply Forall_cons in Hwfs as [Hwf' Hwfs]. apply Forall_cons in Hsame as [Hsame' Hsame].
  apply Forall_cons in Hfits as [Hfit' Hfits].
  destruct (Update_ok 0 h hd' (or_intror (ex_intro _ hd (conj Hinv (conj Hwf Hsame'))))
              Hwf' Hfit') as (h' & E & Hinv' & _ & Hhpa').
  cbn [run_IDFast map]. unfold IDFast. rewrite E. after_step.
  rewrite (IH h' hd' Hinv' Hwf'); [by rewrite Hhpa | congruence | done | | done].
  eapply Forall_impl; [exact Hsame |]. intros x. by apply same_fixed_fields_trans.
Qed.

(** X3: [IDFast] on a header that has no hasher yet makes one, and from then
    on, while the scriber changes only hash_list_root, time, nonce and
    interaction_count and each version's canonical JSON fits 435 bytes,
    every call returns the header's [ID] as a big-endian integer together
    with a hashes-per-attempt count of 1. *)
Theorem IDFast_matches_ID (hd0 : PlotHeader) (hds : list PlotHeader) :
  Forall wf_header (hd0 :: hds) -> Forall (same_fixed_fields hd0) hds ->
  Forall fits (hd0 :: hds) ->
  exists ids,
    Forall2 (fun hd id => PlotHeader_ID hd = Ok id) (hd0 :: hds) ids /\
    run_IDFast None (hd0 :: hds) = Some (map (fun id => (PlotID_GetBigInt id, 1)) ids).
Proof.
  intros Hwfs Hsame Hfits.
  exists (map (fun hd => sha3_Sum256 (header_layout hd)) (hd0 :: hds)). split.
  { apply Forall2_fmap_r, Forall_Forall2_diag, Forall_forall. intros hd _.
    apply PlotHeader_ID_ok. }
  apply Forall_cons in Hwfs as [Hwf Hwfs]. apply Forall_cons in Hfits as [Hfit Hfits].
  destruct (Update_ok 0 NewPlotHeaderHasher hd0) as (h & E & Hinv & _ & Hhpa);
    [| done | done |].
  { left. split; [reflexivity |]. split; reflexivity. }
  cbn [run_IDFast map]. unfold IDFast. rewrite E. after_step.
  rewrite (run_IDFast_ok hds h hd0 Hinv Hwf Hhpa Hwfs Hsame Hfits). after_step.
  by rewrite map_map.
Qed.

Lemma IDFast_matches_ID_witness :
  let versions :=
    [scribing_header zero_id 1718344737 99 1;
     scribing_header zero_id 1718344737 100 1;
     scribing_header (sample_id 3) 1718344738 100 2] in
  exists ids,
    Forall2 (fun hd id => PlotHeader_ID hd = Ok id) versions ids /\
    run_IDFast None versions = Some (map (fun id => (PlotID_GetBigInt id, 1)) ids).
Proof.
  cbv zeta.
  apply (IDFast_matches_ID (scribing_header zero_id 1718344737 99 1)
           [scribing_header zero_id 1718344737 100 1;
            scribing_header (sample_id 3) 1718344738 100 2]).
  - repeat (apply Forall_cons; split); try apply Forall_nil;
      vm_compute; repeat split; first [reflexivity | intros H; discriminate H].
  - repeat (apply Forall_cons; split); try apply Forall_nil;
      vm_compute; repeat split; reflexivity.
  - repeat (apply Forall_cons; split); try apply Forall_nil;
      vm_compute; first [exact I | intros H; discriminate H].
Defined.

(** ** Identifiers: text and integer round trips *)

Lemma hex_byte_round_trip (v : byte) :
  let p := hex_digit (N.shiftr (Byte.to_N v) 4) in
  let q := hex_digit (N.land (Byte.to_N v) 15) in
  (15 <? fromHexChar p)%N = false /\ (15 <? fromHexChar q)%N = false /\
  byte_of_N (N.lor (N.shiftl (fromHexChar p) 4) (fromHexChar q)) = v.
Proof. destruct v; repeat split; reflexivity. Qed.

Lemma hex_Decode_pair (p q : byte) (rest : list byte) :
  hex_Decode (p :: q :: rest) =
    if (15 <? fromHexChar p)%N then Err (InvalidByteError p)
    else if (15 <? fromHexChar q)%N then Err (InvalidByteError q)
    else match hex_Decode rest with
         | Ok dst => Ok (byte_of_N (N.lor (N.shiftl (fromHexChar p) 4) (fromHexChar q)) :: dst)
         | Err e => Err e
         end.
Proof. reflexivity. Qed.

(** Decoding what [hex.EncodeToString] wrote gives the bytes back. *)
Lemma hex_Decode_EncodeToString (src : list byte) :
  hex_Decode (hex_EncodeToString src) = Ok src.
Proof.
  induction src as [| v src IH]; [reflexivity |].
  unfold hex_EncodeToString in *. cbn [flat_map hex_encode_byte app].
  destruct (hex_byte_round_trip v) as (Hp & Hq & Hv). cbv zeta in Hp, Hq, Hv.
  rewrite hex_Decode_pair, Hp, Hq, IH, Hv. reflexivity.
Qed.

(** X4: an identifier written by [MarshalJSON] is read back by
    [UnmarshalJSON], into any identifier, as the same 32 bytes; for plot
    ids and for interaction ids, whose text forms coincide. *)
Theorem ID_JSON_round_trip (id dst : list byte) :
  wf_id id -> wf_id dst ->
  exists b,
    PlotID_MarshalJSON id = Ok b /\ PlotID_UnmarshalJSON dst b = Ok id /\
    InteractionID_MarshalJSON id = Ok b /\ InteractionID_UnmarshalJSON dst b = Ok id /\
    len b = 66.
Proof.
  intros Hid Hdst. unfold wf_id in *.
  exists ([dquote] ++ hex_EncodeToString id ++ [dquote]).
  assert (Hhex : length (hex_EncodeToString id) = 64%nat).
  { pose proof (len_hex_EncodeToString id) as H. unfold len in H. lia. }
  assert (Hlen : length ([dquote] ++ hex_EncodeToString id ++ [dquote]) = 66%nat).
  { rewrite !length_app. cbn [length]. lia. }
  assert (Hstrip : strip_ends ([dquote] ++ hex_EncodeToString id ++ [dquote])
                   = hex_EncodeToString id).
  { rewrite strip_ends_66 by done. cbn [app drop]. rewrite <- Hhex. apply take_app_length. }
  unfold PlotID_MarshalJSON, InteractionID_MarshalJSON, PlotID_UnmarshalJSON,
    InteractionID_UnmarshalJSON, PlotID_String, InteractionID_String, hex_DecodeString.
  rewrite Hstrip, hex_Decode_EncodeToString.
  assert (Hl : len ([dquote] ++ hex_EncodeToString id ++ [dquote]) = 66)
    by (unfold len; rewrite Hlen; reflexivity).
  rewrite Hl. cbn [Z.add Z.eqb Pos.eqb Pos.add Pos.succ negb].
  rewrite go_copy_same_length by congruence. done.
Qed.

Lemma ID_JSON_round_trip_witness :
  exists b,
    PlotID_MarshalJSON target_one = Ok b /\ PlotID_UnmarshalJSON work_max b = Ok target_one /\
    InteractionID_MarshalJSON target_one = Ok b /\
    InteractionID_UnmarshalJSON work_max b = Ok target_one /\
    len b = 66.
Proof. apply (ID_JSON_round_trip target_one work_max); reflexivity. Defined.

(** X5: [SetBigInt] after [GetBigInt] gives the identifier back, whatever the
    receiver held; and [GetBigInt] after [SetBigInt] gives back the absolute
    value of an integer below [2^256] in absolute value: the sign is
    dropped. *)
Theorem BigInt_round_trip (id dst : PlotID) (i : Z) :
  wf_id id -> wf_id dst ->
  PlotID_SetBigInt dst (PlotID_GetBigInt id) = Some id /\
  (Z.abs i < 2 ^ 256 ->
   exists r, PlotID_SetBigInt dst i = Some r /\ wf_id r /\ PlotID_GetBigInt r = Z.abs i).
Proof.
  intros Hid Hdst. split.
  - destruct (PlotID_SetBigInt_fits dst (PlotID_GetBigInt id) Hdst) as (r & Hr & Hwf & Hval).
    { split; [apply PlotID_GetBigInt_nonneg | by apply PlotID_GetBigInt_bound]. }
    rewrite Hr. f_equal. by apply PlotID_GetBigInt_inj.
  - intros Hi.
    destruct (PlotID_SetBigInt_fits dst (Z.abs i) Hdst) as (r & Hr & Hwf & Hval); [lia |].
    exists r. split; [| done]. rewrite <- Hr. unfold PlotID_SetBigInt, big_Bytes.
    by rewrite Z.abs_idemp.
Qed.

Lemma BigInt_round_trip_witness :
  PlotID_SetBigInt work_max (PlotID_GetBigInt target_one) = Some target_one /\
  exists r, PlotID_SetBigInt work_max (-5) = Some r /\ wf_id r /\
            PlotID_GetBigInt r = Z.abs (-5).
Proof.
  destruct (BigInt_round_trip target_one work_max (-5)) as [Hid Hint];
    [reflexivity | reflexivity |].
  split; [exact Hid | apply Hint; reflexivity].
Defined.

(** ** Thread work and the choice of the better thread *)

(** X6: when [computeThreadWork] returns, the thread work has not
    decreased; it has grown by at least 1 for every nonzero target, and is
    unchanged for the zero target. *)
Theorem computeThreadWork_grows (target threadWork newThreadWork : PlotID) :
  wf_id target -> computeThreadWork target threadWork = Some newThreadWork ->
  PlotID_GetBigInt threadWork <= PlotID_GetBigInt newThreadWork /\
  (PlotID_GetBigInt target <> 0 ->
   PlotID_GetBigInt threadWork < PlotID_GetBigInt newThreadWork) /\
  (PlotID_GetBigInt target = 0 ->
   PlotID_GetBigInt newThreadWork = PlotID_GetBigInt threadWork).
Proof.
  intros Hwf Hnew. unfold computeThreadWork in Hnew.
  pose proof (PlotID_GetBigInt_nonneg threadWork) as Htw.
  pose proof (PlotID_GetBigInt_nonneg target) as Ht0.
  pose proof (PlotID_GetBigInt_bound target Hwf) as Ht1.
  pose proof (computePlotWork_nonneg target) as Hw.
  destruct (Z.lt_ge_cases (PlotID_GetBigInt threadWork + computePlotWork target) (2 ^ 256))
    as [Hlt | Hge].
  2:{ rewrite PlotID_SetBigInt_overflow in Hnew by lia. discriminate. }
  destruct (PlotID_SetBigInt_fits zero_id (PlotID_GetBigInt threadWork + computePlotWork target))
    as (r & Hr & _ & Hval); [reflexivity | lia |].
  rewrite Hr in Hnew. injection Hnew as <-. rewrite Hval.
  rewrite computePlotWork_formula in *.
  destruct (Z.eqb_spec (PlotID_GetBigInt target) 0) as [E | E].
  - repeat split; intros; lia.
  - assert (0 < 2 ^ 256 / (PlotID_GetBigInt target + 1)) by (apply Z.div_str_pos; lia).
    repeat split; intros; lia.
Qed.

Lemma computeThreadWork_grows_witness :
  let w := [x80] ++ replicate 30 x00 ++ [x01] in
  PlotID_GetBigInt target_one <= PlotID_GetBigInt w /\
  (PlotID_GetBigInt target_one <> 0 -> PlotID_GetBigInt target_one < PlotID_GetBigInt w) /\
  (PlotID_GetBigInt target_one = 0 -> PlotID_GetBigInt w = PlotID_GetBigInt target_one).
Proof.
  apply (computeThreadWork_grows target_one target_one ([x80] ++ replicate 30 x00 ++ [x01]));
    [reflexivity | vm_compute; reflexivity].
Defined.

(** X7: [Compare] is a strict order on stored headers: no header with its
    own timestamp is better than itself, and if a is better than b and b is
    better than c then a is better than c. *)
Theorem Compare_strict_order (a b c : PlotHeader) (ta tb tc : Z) :
  Compare a a ta ta = Some false /\
  (Compare a b ta tb = Some true -> Compare b c tb tc = Some true ->
   Compare a c ta tc = Some true).
Proof.
  rewrite !Compare_spec. split.
  - f_equal. apply bool_decide_eq_false. lia.
  - intros [= H1] [= H2]. apply bool_decide_eq_true in H1, H2.
    f_equal. apply bool_decide_eq_true. lia.
Qed.

Lemma Compare_strict_order_witness :
  let a := sample_header work_max 1 in
  let b := sample_header work_max_less_one 2 in
  let c := sample_header target_one 3 in
  Compare a a 5 5 = Some false /\ Compare a b 5 6 = Some true /\
  Compare b c 6 4 = Some true /\ Compare a c 5 4 = Some true.
Proof.
  cbv zeta.
  destruct (Compare_strict_order (sample_header work_max 1)
              (sample_header work_max_less_one 2) (sample_header target_one 3) 5 6 4)
    as [Hirr Htrans].
  split; [exact Hirr |]. split; [vm_compute; reflexivity |].
  split; [vm_compute; reflexivity |].
  apply Htrans; vm_compute; reflexivity.
Defined.

(** ** New plots and the interactions added to them *)

Lemma wrap32_succ (z : Z) : wrap32 (wrap32 z + 1) = wrap32 (z + 1).
Proof.
  unfold wrap32.
  replace (((z + 2 ^ 31) mod 2 ^ 32 - 2 ^ 31 + 1 + 2 ^ 31)) with ((z + 2 ^ 31) mod 2 ^ 32 + 1)
    by lia.
  replace (z + 1 + 2 ^ 31) with (z + 2 ^ 31 + 1) by lia.
  by rewrite Zplus_mod_idemp_l.
Qed.

Section NewPlots.
Variable json_Marshal_Interaction : Interaction -> Result error (list byte).
Variable MAX_INTERACTIONS_PER_PLOT : Z.

Local Abbreviation ID := (Interaction_ID json_Marshal_Interaction).
Local Abbreviation has_id := (fun (tx : Interaction) (id : InteractionID) => ID tx = Ok id).
Local Abbreviation NewPlot' := (NewPlot json_Marshal_Interaction MAX_INTERACTIONS_PER_PLOT).

(** X8: [NewPlot] rejects a list longer than [MAX_INTERACTIONS_PER_PLOT]
    with an error before doing anything else; it panics on an empty list
    (which has no plotroot) when the limit is not negative; and when every
    interaction has an id and the thread work stays below [2^256] it
    returns a plot that holds the interactions as given, whose header
    carries the arguments, the clock reading and the nonce drawn, the
    previous thread work plus the work of the target, and an interaction
    count equal to the length of the list as an int32. *)
Theorem NewPlot_outcomes (now nonce : Z) (previous : PlotID) (height : Z)
    (target threadWork : PlotID) (interactions : list Interaction) :
  (MAX_INTERACTIONS_PER_PLOT < len interactions ->
   NewPlot' now nonce previous height target threadWork interactions
     = Some (Err (errorString (lit "Interaction list size exceeds limit per plot")))) /\
  (len interactions <= MAX_INTERACTIONS_PER_PLOT -> interactions = [] ->
   NewPlot' now nonce previous height target threadWork interactions = None) /\
  (len interactions <= MAX_INTERACTIONS_PER_PLOT ->
   (exists ids, Forall2 has_id interactions ids) -> interactions <> [] ->
   PlotID_GetBigInt threadWork + computePlotWork target < 2 ^ 256 ->
   exists b,
     NewPlot' now nonce previous height target threadWork interactions = Some (Ok b) /\
     Interactions b = interactions /\
     Previous (Header b) = previous /\ HTime (Header b) = now /\
     Target (Header b) = target /\ HNonce (Header b) = nonce /\
     Height (Header b) = height /\
     PlotID_GetBigInt (ThreadWork (Header b))
       = PlotID_GetBigInt threadWork + computePlotWork target /\
     InteractionCount (Header b) = wrap32 (len interactions)).
Proof.
  unfold NewPlot. split; [| split].
  - intros Hmax. by destruct (Z.ltb_spec MAX_INTERACTIONS_PER_PLOT (len interactions)); [| lia].
  - intros Hmax ->.
    by destruct (Z.ltb_spec MAX_INTERACTIONS_PER_PLOT (len (@nil Interaction))); [lia |].
  - intros Hmax (ids & Hids) Hne Hsum.
    destruct (Z.ltb_spec MAX_INTERACTIONS_PER_PLOT (len interactions)) as [? | _]; [lia |].
    destruct Hids as [| plotroot id0 others ids H0 Hids]; [done |].
    rewrite (computeHashListRoot_ok _ _ _ _ _ _ H0 Hids). cbn [mbind option_bind].
    pose proof (PlotID_GetBigInt_nonneg threadWork). pose proof (computePlotWork_nonneg target).
    unfold computeThreadWork.
    destruct (PlotID_SetBigInt_fits zero_id (PlotID_GetBigInt threadWork + computePlotWork target))
      as (r & Hr & _ & Hval); [reflexivity | lia |].
    rewrite Hr. cbn [mbind option_bind]. eexists. split; [reflexivity |].
    cbn [Interactions Header Previous HTime Target HNonce Height ThreadWork InteractionCount].
    repeat split; done.
Qed.

(** X9: a successful [AddInteraction] appends the interaction, adds one to the
    header's interaction count (as an int32) and leaves every other header
    field but the hash list root as it was; so a count equal to the number
    of interactions, as [NewPlot] sets it, stays equal.  The new root is
    computed from the id passed in: neither the interaction nor the limit
    [MAX_INTERACTIONS_PER_PLOT] is consulted. *)
Theorem AddInteraction_count (b : Plot) (id : InteractionID) (tx : Interaction)
    (h : hash_Hash) (plotroot : Interaction) (others : list Interaction) (id0 : InteractionID) :
  hasher b = Some h -> Interactions b = plotroot :: others -> ID plotroot = Ok id0 ->
  exists b',
    AddInteraction json_Marshal_Interaction b id tx = Some (b', None) /\
    Interactions b' = Interactions b ++ [tx] /\
    HashListRoot (Header b') = sha3_Sum256 (id0 ++ sha3_Sum256 (h ++ id)) /\
    hasher b' = Some (h ++ id) /\
    (Previous (Header b'), HTime (Header b'), Target (Header b'), ThreadWork (Header b'),
     HNonce (Header b'), Height (Header b'))
      = (Previous (Header b), HTime (Header b), Target (Header b), ThreadWork (Header b),
         HNonce (Header b), Height (Header b)) /\
    InteractionCount (Header b') = wrap32 (InteractionCount (Header b) + 1) /\
    (InteractionCount (Header b) = wrap32 (len (Interactions b)) ->
     InteractionCount (Header b') = wrap32 (len (Interactions b'))).
Proof.
  intros Hh Hint H0. unfold AddInteraction. rewrite Hh, Hint. cbn [mbind option_bind head].
  rewrite (addPlotrootToHashListRoot_ok _ _ _ _ H0).
  eexists. split; [reflexivity |].
  cbn [Interactions Header set_InteractionCount set_HashListRoot Previous HTime Target
         ThreadWork HNonce Height InteractionCount HashListRoot hasher].
  unfold hash_Write. repeat split; try reflexivity.
  intros ->. rewrite len_app, wrap32_succ. reflexivity.
Qed.
End NewPlots.

Lemma NewPlot_outcomes_witness :
  let json := sample_json_Marshal_Interaction in
  let txs := [sample_tx 1 baseKey; sample_tx 2 (replicate 32 x09)] in
  NewPlot json 1 1718344737 7 zero_id 1 target_one zero_id txs
    = Some (Err (errorString (lit "Interaction list size exceeds limit per plot"))) /\
  NewPlot json 1 1718344737 7 zero_id 1 target_one zero_id [] = None /\
  exists b,
    NewPlot json 10000 1718344737 7 zero_id 1 target_one zero_id txs = Some (Ok b) /\
    Interactions b = txs /\
    Previous (Header b) = zero_id /\ HTime (Header b) = 1718344737 /\
    Target (Header b) = target_one /\ HNonce (Header b) = 7 /\
    Height (Header b) = 1 /\
    PlotID_GetBigInt (ThreadWork (Header b))
      = PlotID_GetBigInt zero_id + computePlotWork target_one /\
    InteractionCount (Header b) = wrap32 (len txs).
Proof.
  cbv zeta.
  split; [| split].
  - apply (NewPlot_outcomes sample_json_Marshal_Interaction 1 1718344737 7 zero_id 1
             target_one zero_id [sample_tx 1 baseKey; sample_tx 2 (replicate 32 x09)]).
    reflexivity.
  - apply (NewPlot_outcomes sample_json_Marshal_Interaction 1 1718344737 7 zero_id 1
             target_one zero_id []); [vm_compute; intros H; discriminate H | reflexivity].
  - apply (NewPlot_outcomes sample_json_Marshal_Interaction 10000 1718344737 7 zero_id 1
             target_one zero_id [sample_tx 1 baseKey; sample_tx 2 (replicate 32 x09)]).
    + vm_compute. intros H. discriminate H.
    + eexists. repeat constructor.
    + discriminate.
    + reflexivity.
Defined.

Lemma AddInteraction_count_witness :
  let json := sample_json_Marshal_Interaction in
  let b := {| Header := sample_header work_max 7;
              Interactions := [sample_tx 1 baseKey];
              hasher := Some [] |} in
  let id := sample_id 2 in
  let tx := sample_tx 2 (replicate 32 x09) in
  exists b',
    AddInteraction json b id tx = Some (b', None) /\
    Interactions b' = Interactions b ++ [tx] /\
    HashListRoot (Header b')
      = sha3_Sum256 (sha3_Sum256 (lit "1718344707,1") ++ sha3_Sum256 ([] ++ id)) /\
    hasher b' = Some ([] ++ id) /\
    (Previous (Header b'), HTime (Header b'), Target (Header b'), ThreadWork (Header b'),
     HNonce (Header b'), Height (Header b'))
      = (Previous (Header b), HTime (Header b), Target (Header b), ThreadWork (Header b),
         HNonce (Header b), Height (Header b)) /\
    InteractionCount (Header b') = wrap32 (InteractionCount (Header b) + 1) /\
    (InteractionCount (Header b) = wrap32 (len (Interactions b)) ->
     InteractionCount (Header b') = wrap32 (len (Interactions b'))).
Proof.
  cbv zeta.
  apply (AddInteraction_count sample_json_Marshal_Interaction
           {| Header := sample_header work_max 7;
              Interactions := [sample_tx 1 baseKey];
              hasher := Some [] |}
           (sample_id 2) (sample_tx 2 (replicate 32 x09)) []
           (sample_tx 1 baseKey) [] (sha3_Sum256 (lit "1718344707,1")));
    reflexivity.
Defined.

(** ** Interactions: identity, signature and validity window *)

Section Signing.
Variable json_Marshal_Interaction : Interaction -> Result error (list byte).
Variable ed25519_Sign : list byte -> list byte -> option (list byte).
Variable ed25519_Verify : list byte -> list byte -> list byte -> option bool.

Local Abbreviation ID := (Interaction_ID json_Marshal_Interaction).

(** X10: signing leaves the id and every field but the signature as they
    were, and when the key pair is one for which [ed25519.Verify] accepts
    what [ed25519.Sign] produces, an interaction signed by its sender's
    private key verifies. *)
Theorem Sign_then_Verify (tx : Interaction) (privKey : list byte) (tx' : Interaction) :
  (forall msg sig, ed25519_Sign privKey msg = Some sig ->
                   ed25519_Verify (From tx) msg sig = Some true) ->
  Sign json_Marshal_Interaction ed25519_Sign tx privKey = Some (tx', None) ->
  clear_signature tx' = clear_signature tx /\
  ID tx' = ID tx /\
  Verify json_Marshal_Interaction ed25519_Verify tx' = Some (true, None).
Proof.
  intros Hpair. unfold Sign, Verify.
  destruct (ID tx) as [id | e] eqn:Hid; [| done].
  destruct (ed25519_Sign privKey id) as [sig |] eqn:Hsig; [| done].
  cbn [mbind option_bind]. intros [= <-].
  split; [reflexivity |]. split; [exact Hid |].
  change (ID (set_Signature tx sig)) with (ID tx). rewrite Hid.
  cbn [From Signature set_Signature]. by rewrite (Hpair _ _ Hsig).
Qed.
End Signing.

(** X11: as the code has them, [IsMature] and [IsExpired] make the heights at
    which an interaction may be included downward closed: an interaction
    that is mature and not expired at a height is so at every lower height,
    and one with [Matures] or [Expires] set is never includable above that
    height. *)
Theorem inclusion_window (tx : Interaction) (height : Z) :
  let includable h := IsMature tx h && negb (IsExpired tx h) in
  (forall lower, lower <= height -> includable height = true -> includable lower = true) /\
  (Matures tx <> 0 -> Matures tx < height -> includable height = false) /\
  (Expires tx <> 0 -> Expires tx < height -> includable height = false) /\
  (Matures tx = 0 -> Expires tx = 0 -> includable height = true).
Proof.
  cbv zeta. unfold IsMature, IsExpired.
  destruct (Z.eqb_spec (Matures tx) 0) as [Em | Em];
    destruct (Z.eqb_spec (Expires tx) 0) as [Ee | Ee];
    repeat split; intros;
    repeat match goal with
           | H : context [(?a <=? ?b)] |- _ => destruct (Z.leb_spec a b)
           | |- context [(?a <=? ?b)] => destruct (Z.leb_spec a b)
           | H : context [(?a <? ?b)] |- _ => destruct (Z.ltb_spec a b)
           | |- context [(?a <? ?b)] => destruct (Z.ltb_spec a b)
           end; cbn in *; try done; lia.
Qed.

Lemma Sign_then_Verify_witness :
  let json := sample_json_Marshal_Interaction in
  let tx := sample_tx 1 key_A in
  let tx' := set_Signature tx (key_A ++ sha3_Sum256 (lit "1718344707,1")) in
  clear_signature tx' = clear_signature tx /\
  Interaction_ID json tx' = Interaction_ID json tx /\
  Verify json sample_ed25519_Verify tx' = Some (true, None).
Proof.
  cbv zeta.
  apply (Sign_then_Verify sample_json_Marshal_Interaction sample_ed25519_Sign
           sample_ed25519_Verify (sample_tx 1 key_A) (sample_private_key key_A)).
  - intros msg sig. unfold sample_ed25519_Sign, sample_ed25519_Verify.
    simpl. intros [= <-]. f_equal. apply bool_decide_eq_true. reflexivity.
  - vm_compute. reflexivity.
Defined.

(** ** More on the interaction pool *)

Section PoolReads.
Context {ImbalanceCache : Type}.
Implicit Types (t : InteractionQueueMemory ImbalanceCache).

(** X12: [Get(limit)] returns the whole queue in order for limit 0, the first
    [limit] interactions of the queue (all of them when there are fewer)
    for a positive limit, and panics for a negative limit, whatever the
    queue holds. *)
Theorem Get_limit t (limit : Z) :
  Get t 0 = Some (map Value (txQueue t)) /\
  (0 < limit -> Get t limit = Some (take (Z.to_nat limit) (map Value (txQueue t)))) /\
  (limit < 0 -> Get t limit = None).
Proof.
  unfold Get. split; [reflexivity |]. pose proof (len_nonneg (txQueue t)) as Hlen. split.
  - intros Hpos. destruct (Z.eqb_spec limit 0) as [? | _]; [lia |]. cbn [orb].
    destruct (Z.ltb_spec (len (txQueue t)) limit) as [Hlt | Hge].
    + rewrite take_ge; [done |]. rewrite length_map. unfold len in *. lia.
    + destruct (Z.ltb_spec limit 0); [lia |]. by rewrite <- fmap_take.
  - intros Hneg. destruct (Z.eqb_spec limit 0) as [? | _]; [lia |]. cbn [orb].
    destruct (Z.ltb_spec (len (txQueue t)) limit); [lia |].
    by destruct (Z.ltb_spec limit 0); [| lia].
Qed.
End PoolReads.

Section PoolRemoval.
Context {ImbalanceCache : Type}.
Variable Apply : ImbalanceCache -> Interaction -> ImbalanceCache * Result error bool.
Variable Reset : ImbalanceCache -> ImbalanceCache.
Variable checkInteractionSeries : Interaction -> Z -> bool.
Variable json_Marshal_Interaction : Interaction -> Result error (list byte).
Implicit Types (t s : InteractionQueueMemory ImbalanceCache).

Lemma indexed_under_cons (m : gmap (list byte) Element) (id : InteractionID)
    (ids : list InteractionID) (e : Element) :
  indexed_under m (id :: ids) e <->
  addr <$> (m !! id) = Some (addr e) \/ indexed_under m ids e.
Proof. unfold indexed_under. by rewrite Exists_cons. Qed.

Lemma indexed_under_delete (m : gmap (list byte) Element) (id : InteractionID)
    (ids : list InteractionID) (e x : Element) :
  m !! id = Some e -> addr x <> addr e ->
  indexed_under (delete id m) ids x <-> indexed_under m ids x.
Proof.
  intros Hid Hx. unfold indexed_under. rewrite !Exists_exists.
  split; intros (id' & Hin & Hl); exists id'; (split; [done |]).
  - destruct (decide (id' = id)) as [-> | Hne].
    + by rewrite lookup_delete_eq in Hl.
    + by rewrite lookup_delete_ne in Hl.
  - destruct (decide (id' = id)) as [-> | Hne].
    + rewrite Hid in Hl. cbn in Hl. congruence.
    + by rewrite lookup_delete_ne.
Qed.

Lemma RemoveBatch_loop_cons (id : InteractionID) (ids : list InteractionID) t :
  RemoveBatch_loop (id :: ids) t
    = RemoveBatch_loop ids match txMap t !! id with
                           | None => t
                           | Some e => remove_element t id e
                           end.
Proof. reflexivity. Qed.

(** The loop of [RemoveBatch]: the elements indexed under one of the ids
    leave the queue, the ids leave the index, the rest stays in order. *)
Lemma RemoveBatch_loop_spec (ids : list InteractionID) :
  forall t,
    txQueue (RemoveBatch_loop ids t)
      = filter (fun e => ~ indexed_under (txMap t) ids e) (txQueue t) /\
    (forall id, txMap (RemoveBatch_loop ids t) !! id
                = if decide (id ∈ ids) then None else txMap t !! id) /\
    imbalanceCache (RemoveBatch_loop ids t) = imbalanceCache t /\
    next_addr (RemoveBatch_loop ids t) = next_addr t.
Proof.
  induction ids as [| id ids IH]; intros t.
  - cbn. split; [| by repeat split]. symmetry. apply filter_all.
    intros x. unfold indexed_under. rewrite Exists_nil. tauto.
  - rewrite RemoveBatch_loop_cons. destruct (txMap t !! id) as [e |] eqn:Hid.
    + destruct (IH (remove_element t id e)) as (Hq & Hm & Hc & Hn).
      rewrite Hq, Hc, Hn. cbn [remove_element txQueue txMap imbalanceCache next_addr].
      split; [| split; [| done]].
      * unfold list_Remove. rewrite list_filter_filter. apply list_filter_iff. intros x.
        rewrite indexed_under_cons, Hid. change (addr <$> Some e) with (Some (addr e)). split.
        -- intros [H1 H2] [[= H3] | H3]; [congruence |].
           apply H1. exact (proj2 (indexed_under_delete _ id ids e x Hid H2) H3).
        -- intros H1. assert (H0 : addr x <> addr e) by (intros E; apply H1; left; by rewrite E).
           split; [| done]. intros H2. apply H1. right.
           exact (proj1 (indexed_under_delete _ id ids e x Hid H0) H2).
      * intros id'. rewrite Hm. cbn [remove_element txMap].
        destruct (decide (id' = id)) as [-> | Hne].
        -- rewrite lookup_delete_eq. rewrite (decide_True _ _ (list_elem_of_here _ _)).
           by destruct (decide _).
        -- rewrite lookup_delete_ne by done.
           destruct (decide (id' ∈ ids)) as [Hin | Hin].
           ++ by rewrite decide_True by (by apply list_elem_of_further).
           ++ rewrite decide_False; [done |]. intros Hc'. apply elem_of_cons in Hc'. tauto.
    + destruct (IH t) as (Hq & Hm & Hc & Hn). rewrite Hq, Hc, Hn.
      split; [| split; [| done]].
      * apply list_filter_iff. intros x. rewrite indexed_under_cons, Hid.
        change (addr <$> None) with (@None nat).
        split; [intros H1 [H2 | H2]; [done | tauto] | tauto].
      * intros id'. rewrite Hm.
        destruct (decide (id' = id)) as [-> | Hne].
        -- rewrite (decide_True _ _ (list_elem_of_here _ _)). by destruct (decide _).
        -- destruct (decide (id' ∈ ids)) as [Hin | Hin].
           ++ by rewrite decide_True by (by apply list_elem_of_further).
           ++ rewrite decide_False; [done |]. intros Hc'. apply elem_of_cons in Hc'. tauto.
Qed.

(** X13: [RemoveBatch] with more connections to come never fails: the
    elements indexed under the given ids leave the queue, the others stay
    in their order; the ids leave the index and no other id is touched;
    ids that are not in the queue are skipped; the imbalance cache is left
    alone. *)
Theorem RemoveBatch_more t (ids : list InteractionID) (height : Z) :
  exists t',
    RemoveBatch Apply Reset checkInteractionSeries json_Marshal_Interaction t ids height true
      = Some (t', None) /\
    txQueue t' = filter (fun e => ~ indexed_under (txMap t) ids e) (txQueue t) /\
    (forall id, id ∈ ids -> Exists t' id = false) /\
    (forall id, id ∉ ids -> txMap t' !! id = txMap t !! id) /\
    imbalanceCache t' = imbalanceCache t /\
    Len t' <= Len t.
Proof.
  destruct (RemoveBatch_loop_spec ids t) as (Hq & Hm & Hc & _).
  exists (RemoveBatch_loop ids t). unfold RemoveBatch. split; [reflexivity |].
  split; [exact Hq |]. split; [| split; [| split; [exact Hc |]]].
  - intros id Hin. unfold Exists. rewrite Hm, decide_True by done.
    apply bool_decide_eq_false. by intros [? ?].
  - intros id Hin. by rewrite Hm, decide_False.
  - unfold Len, len. rewrite Hq. pose proof (length_filter
      (fun e => ~ indexed_under (txMap t) ids e) (txQueue t)). lia.
Qed.

Lemma filter_none {A : Type} (P : A -> Prop) `{forall x, Decision (P x)} (l : list A) :
  (forall x, x ∈ l -> ~ P x) -> filter P l = [].
Proof.
  induction l as [| x l IH]; intros HP; [done |].
  rewrite filter_cons_False by (apply HP; left).
  apply IH. intros y Hy. apply HP. by right.
Qed.

Lemma filter_all_in {A : Type} (P : A -> Prop) `{forall x, Decision (P x)} (l : list A) :
  (forall x, x ∈ l -> P x) -> filter P l = l.
Proof.
  induction l as [| x l IH]; intros HP; [done |].
  rewrite filter_cons_True by (apply HP; left).
  f_equal. apply IH. intros y Hy. apply HP. by right.
Qed.

(** The loop of [AddBatch] on ids that are not in the queue: new elements
    in front, indexed under the ids; nothing else moves. *)
Lemma AddBatch_loop_fresh (ids : list InteractionID) (txs : list Interaction) (n : nat) :
  forall s,
    (n <= length ids)%nat -> (n <= length txs)%nat -> NoDup (take n ids) ->
    (forall id, id ∈ take n ids -> txMap s !! id = None) ->
    exists s' news,
      AddBatch_loop n ids txs s = Some s' /\
      txQueue s' = news ++ txQueue s /\
      map Value news = take n txs /\
      (forall e, e ∈ news ->
         (next_addr s <= addr e)%nat /\ exists id, id ∈ take n ids /\ txMap s' !! id = Some e) /\
      (forall id, id ∈ take n ids -> exists e, e ∈ news /\ txMap s' !! id = Some e) /\
      (forall id, id ∉ take n ids -> txMap s' !! id = txMap s !! id) /\
      imbalanceCache s' = imbalanceCache s.
Proof.
  induction n as [| i IH]; intros s Hni Hnt Hnd Hfresh.
  - exists s, []. cbn [AddBatch_loop]. rewrite !take_0. cbn [app map].
    do 3 (split; [done |]).
    do 2 (split; [intros ? Hin; by apply elem_of_nil in Hin |]). by split.
  - destruct (lookup_lt_is_Some_2 ids i ltac:(lia)) as [id Hid].
    destruct (lookup_lt_is_Some_2 txs i ltac:(lia)) as [tx Htx].
    rewrite (take_S_r _ _ _ Hid) in Hnd, Hfresh |- *. rewrite (take_S_r _ _ _ Htx).
    apply NoDup_app in Hnd as (Hnd & Hdisj & _).
    assert (Hid_fresh : id ∉ take i ids).
    { intros Hin. apply (Hdisj _ Hin). by apply list_elem_of_singleton. }
    simpl AddBatch_loop. rewrite Hid, Htx. cbn [mbind option_bind].
    rewrite (Hfresh id) by (apply elem_of_app; right; by apply list_elem_of_singleton).
    set (e := {| addr := next_addr s; Value := tx |}).
    set (s1 := {| txMap := <[id := e]> (txMap s); txQueue := e :: txQueue s;
                  imbalanceCache := imbalanceCache s; next_addr := S (next_addr s) |}).
    destruct (IH s1 ltac:(lia) ltac:(lia) Hnd) as (s' & news & Hs' & Hq & Hv & Hnew & Hids & Hold & Hc).
    { intros id' Hin. cbn [s1 txMap]. rewrite lookup_insert_ne by (by intros ->).
      apply Hfresh, elem_of_app. by left. }
    exists s', (news ++ [e]). split; [exact Hs' |].
    split; [by rewrite Hq, <- app_assoc |].
    split; [by rewrite map_app, Hv |].
    assert (He : txMap s' !! id = Some e).
    { rewrite Hold by done. cbn [s1 txMap]. by rewrite lookup_insert_eq. }
    split; [| split; [| split; [| exact Hc]]].
    + intros x Hx. apply elem_of_app in Hx as [Hx | Hx].
      * destruct (Hnew x Hx) as (Ha & id' & Hin & Hl). cbn [s1 next_addr] in Ha.
        split; [lia |]. exists id'. split; [apply elem_of_app; by left | done].
      * apply list_elem_of_singleton in Hx as ->. split; [cbn; lia |].
        exists id. split; [apply elem_of_app; right; by apply list_elem_of_singleton | done].
    + intros id' Hin. apply elem_of_app in Hin as [Hin | Hin].
      * destruct (Hids id' Hin) as (x & Hx & Hl). exists x.
        split; [apply elem_of_app; by left | done].
      * apply list_elem_of_singleton in Hin as ->. exists e.
        split; [apply elem_of_app; right; by apply list_elem_of_singleton | done].
    + intros id' Hin. rewrite Hold by (intros ?; apply Hin, elem_of_app; by left).
      cbn [s1 txMap]. apply lookup_insert_ne. intros ->. apply Hin, elem_of_app. right.
      by apply list_elem_of_singleton.
Qed.

(** X14: a batch of new ids put in front by [AddBatch] and taken out again by
    [RemoveBatch] (a plot disconnected and connected again) leaves the
    queue, the index and the imbalance cache as they were. *)
Theorem AddBatch_RemoveBatch_round_trip t (ids : list InteractionID)
    (txs : list Interaction) (height height' : Z) :
  queue_ok t -> length ids = length txs -> NoDup ids ->
  (forall id, id ∈ ids -> Exists t id = false) ->
  exists t1 t2,
    AddBatch t ids txs height = Some (t1, None) /\
    Get t1 0 = Some (txs ++ map Value (txQueue t)) /\
    RemoveBatch Apply Reset checkInteractionSeries json_Marshal_Interaction t1 ids height' true
      = Some (t2, None) /\
    txQueue t2 = txQueue t /\ txMap t2 = txMap t /\ imbalanceCache t2 = imbalanceCache t.
Proof.
  intros [Hok _] Hlen Hnd Hfresh.
  assert (Hfresh' : forall id, id ∈ ids -> txMap t !! id = None).
  { intros id Hin. apply Hfresh in Hin. unfold Exists in Hin.
    apply bool_decide_eq_false in Hin. destruct (txMap t !! id); [| done].
    exfalso. apply Hin. eauto. }
  destruct (AddBatch_loop_fresh ids txs (length txs) t)
    as (t1 & news & Ht1 & Hq & Hv & Hnew & Hids & Hold & Hc);
    [lia | lia | by rewrite <- Hlen, firstn_all | by rewrite <- Hlen, firstn_all |].
  rewrite <- Hlen, firstn_all in Hnew, Hids, Hold. rewrite firstn_all in Hv.
  destruct (RemoveBatch_loop_spec ids t1) as (Hq2 & Hm2 & Hc2 & _).
  exists t1, (RemoveBatch_loop ids t1). unfold AddBatch, RemoveBatch. rewrite Ht1.
  cbn [mbind option_bind]. split; [done |]. split; [| split; [done |]].
  { unfold Get. cbn [Z.eqb orb]. by rewrite Hq, map_app, Hv. }
  split; [| split; [| congruence]].
  - rewrite Hq2, Hq, filter_app, filter_none, filter_all_in; [done | |].
    + intros x Hx Hi. unfold indexed_under in Hi. apply Exists_exists in Hi as (id & Hin & Hl).
      destruct (Hids id Hin) as (e & He & Hle).
      rewrite Hle in Hl. cbn in Hl. injection Hl as Hl.
      destruct (Hnew e He) as [Ha _]. apply Hok in Hx. lia.
    + intros x Hx Hn. apply Hn. destruct (Hnew x Hx) as (_ & id & Hin & Hl).
      unfold indexed_under. apply Exists_exists. exists id.
      split; [done |]. by rewrite Hl.
  - apply map_eq. intros id. rewrite Hm2. destruct (decide (id ∈ ids)) as [Hin | Hin].
    + symmetry. by apply Hfresh'.
    + by apply Hold.
Qed.
End PoolRemoval.

Lemma AddBatch_RemoveBatch_round_trip_witness :
  let ids := [sample_id 1; sample_id 2] in
  let txs := [sample_tx 1 (replicate 32 x09); sample_tx 2 (replicate 32 x09)] in
  exists t1 t2,
    AddBatch pool_B ids txs 5 = Some (t1, None) /\
    Get t1 0 = Some (txs ++ map Value (txQueue pool_B)) /\
    RemoveBatch Apply_accept (fun c => c) (fun _ _ => true) sample_json_Marshal_Interaction
                t1 ids 6 true = Some (t2, None) /\
    txQueue t2 = txQueue pool_B /\ txMap t2 = txMap pool_B /\
    imbalanceCache t2 = imbalanceCache pool_B.
Proof.
  cbv zeta.
  apply (AddBatch_RemoveBatch_round_trip Apply_accept (fun c => c) (fun _ _ => true)
           sample_json_Marshal_Interaction pool_B [sample_id 1; sample_id 2]
           [sample_tx 1 (replicate 32 x09); sample_tx 2 (replicate 32 x09)] 5 6).
  - exact pool_B_ok.
  - reflexivity.
  - apply (bool_decide_unpack _). vm_compute. exact I.
  - apply Forall_forall. apply (bool_decide_unpack _). vm_compute. exact I.
Defined.

(** *** Reprocessing the queue *)

Lemma NoDup_addr_inj (l : list Element) (x y : Element) :
  NoDup (addr <$> l) -> x ∈ l -> y ∈ l -> addr x = addr y -> x = y.
Proof.
  induction l as [| z l IH]; intros Hnd Hx Hy Ha; [by apply elem_of_nil in Hx |].
  rewrite fmap_cons in Hnd. apply NoDup_cons in Hnd as [Hz Hnd].
  apply elem_of_cons in Hx as [-> | Hx]; apply elem_of_cons in Hy as [-> | Hy].
  - done.
  - exfalso. apply Hz. rewrite Ha. apply list_elem_of_fmap. eauto.
  - exfalso. apply Hz. rewrite <- Ha. apply list_elem_of_fmap. eauto.
  - by apply IH.
Qed.

Section Reprocess.
Context {ImbalanceCache : Type}.
Variable Apply : ImbalanceCache -> Interaction -> ImbalanceCache * Result error bool.
Variable Reset : ImbalanceCache -> ImbalanceCache.
Variable checkInteractionSeries : Interaction -> Z -> bool.
Variable json_Marshal_Interaction : Interaction -> Result error (list byte).
Implicit Types (t s : InteractionQueueMemory ImbalanceCache).

Local Abbreviation ID := (Interaction_ID json_Marshal_Interaction).
Local Abbreviation by_ID := (queue_by_ID json_Marshal_Interaction).
Local Abbreviation valid := (valid_at checkInteractionSeries).

(** In a queue indexed by id, an interaction sits in one element only. *)
Lemma by_ID_Value_inj t (x y : Element) :
  by_ID t -> x ∈ txQueue t -> y ∈ txQueue t -> Value x = Value y -> x = y.
Proof.
  intros (_ & Hq & Hm) Hx Hy Hv.
  destruct (Hq x Hx) as (idx & Hix). destruct (Hq y Hy) as (idy & Hiy).
  destruct (Hm _ _ Hix) as [_ Ex]. destruct (Hm _ _ Hiy) as [_ Ey].
  rewrite Hv, Ey in Ex. injection Ex as ->. congruence.
Qed.

(** Taking the element of a queued interaction out. *)
Lemma remove_element_by_ID t (id : InteractionID) (e : Element) :
  by_ID t -> txMap t !! id = Some e ->
  by_ID (remove_element t id e) /\
  (forall x, x ∈ txQueue (remove_element t id e) <-> x ∈ txQueue t /\ x <> e) /\
  txQueue (remove_element t id e) `sublist_of` txQueue t.
Proof.
  intros Hinv Hid. pose proof Hinv as (Hnd & Hq & Hm).
  destruct (Hm _ _ Hid) as [He _].
  assert (Hin : forall x, x ∈ txQueue (remove_element t id e) <-> x ∈ txQueue t /\ x <> e).
  { intros x. cbn [remove_element txQueue]. unfold list_Remove. rewrite list_elem_of_filter.
    split.
    - intros [Ha Hx]. split; [done |]. by intros ->.
    - intros [Hx Hne]. split; [| done]. intros Ha. apply Hne.
      by apply (NoDup_addr_inj (txQueue t)). }
  assert (Hsub : txQueue (remove_element t id e) `sublist_of` txQueue t)
    by apply sublist_filter.
  split; [| by split]. split; [| split].
  - eapply sublist_NoDup; [exact Hnd |]. by apply fmap_sublist.
  - intros x Hx. apply Hin in Hx as [Hx Hne]. destruct (Hq x Hx) as (idx & Hix).
    exists idx. cbn [remove_element txMap]. rewrite lookup_delete_ne; [done |].
    intros ->. congruence.
  - intros id' x. cbn [remove_element txMap]. intros Hl.
    destruct (decide (id' = id)) as [-> | Hne]; [by rewrite lookup_delete_eq in Hl |].
    rewrite lookup_delete_ne in Hl by done. destruct (Hm _ _ Hl) as [Hx Ex].
    split; [| done]. apply Hin. split; [done |]. intros ->.
    destruct (Hm _ _ Hid) as [_ Ee]. congruence.
Qed.

Lemma invalidate_by_ID t (e : Element) :
  by_ID t -> e ∈ txQueue t ->
  exists id,
    txMap t !! id = Some e /\
    invalidate json_Marshal_Interaction t (Value e) = Some (remove_element t id e, None).
Proof.
  intros (_ & Hq & Hm) He. destruct (Hq e He) as (id & Hid). exists id.
  destruct (Hm _ _ Hid) as [_ Ee]. split; [done |].
  unfold invalidate. by rewrite Ee, Hid.
Qed.

Lemma New_by_ID (cache : ImbalanceCache) : by_ID (NewInteractionQueueMemory cache).
Proof.
  split; [apply NoDup_nil_2 |]. split.
  - intros e He. by apply elem_of_nil in He.
  - intros id e. cbn. by rewrite lookup_empty.
Qed.

Lemma remove_element_queue_ok t (id : InteractionID) (e : Element) :
  queue_ok t -> queue_ok (remove_element t id e).
Proof.
  intros [Hq Hm]. split; cbn [remove_element txQueue txMap next_addr].
  - intros x Hx. apply Hq. unfold list_Remove in Hx. apply list_elem_of_filter in Hx. tauto.
  - intros id' x Hl. destruct (decide (id' = id)) as [-> | Hne].
    + by rewrite lookup_delete_eq in Hl.
    + rewrite lookup_delete_ne in Hl by done. by apply (Hm id').
Qed.

(** [Add] with the id of the interaction keeps the queue indexed by id. *)
Lemma Add_by_ID t (id : InteractionID) (tx : Interaction) :
  queue_ok t -> by_ID t -> ID tx = Ok id -> by_ID (fst (Add Apply t id tx)).
Proof.
  intros [Hok _] Hinv Htx. pose proof Hinv as (Hnd & Hq & Hm). unfold Add.
  destruct (txMap t !! id) eqn:Hid; [done |].
  destruct (Apply (imbalanceCache t) tx) as [cache [[] | err]]; cbn [fst]; try done.
  set (e := {| addr := next_addr t; Value := tx |}).
  split; [| split]; cbn [txQueue txMap].
  - rewrite fmap_app. apply NoDup_app. split; [done |]. split; [| apply NoDup_singleton].
    intros a Ha Hin. apply list_elem_of_singleton in Hin as ->.
    apply list_elem_of_fmap in Ha as (x & Hax & Hx). apply Hok in Hx. cbn in Hax. lia.
  - intros x Hx. apply elem_of_app in Hx as [Hx | Hx].
    + destruct (Hq x Hx) as (idx & Hix). exists idx.
      rewrite lookup_insert_ne; [done |]. intros ->. congruence.
    + apply list_elem_of_singleton in Hx as ->. exists id. by rewrite lookup_insert_eq.
  - intros id' x. destruct (decide (id' = id)) as [-> | Hne].
    + rewrite lookup_insert_eq. intros [= <-]. split; [| done].
      apply elem_of_app. right. by apply list_elem_of_singleton.
    + rewrite lookup_insert_ne by done. intros Hl. destruct (Hm _ _ Hl) as [Hx Ex].
      split; [| done]. apply elem_of_app. by left.
Qed.

(** The loop of [AddBatch] with the ids of the interactions. *)
Lemma AddBatch_loop_by_ID (ids : list InteractionID) (txs : list Interaction) (n : nat) :
  forall s,
    (n <= length ids)%nat -> (n <= length txs)%nat ->
    (forall i id tx, (i < n)%nat -> ids !! i = Some id -> txs !! i = Some tx -> ID tx = Ok id) ->
    queue_ok s -> by_ID s ->
    exists s', AddBatch_loop n ids txs s = Some s' /\ queue_ok s' /\ by_ID s'.
Proof.
  induction n as [| i IH]; intros s Hni Hnt Hids Hok Hinv; [by exists s |].
  destruct (lookup_lt_is_Some_2 ids i ltac:(lia)) as [id Hid].
  destruct (lookup_lt_is_Some_2 txs i ltac:(lia)) as [tx Htx].
  pose proof (Hids i id tx ltac:(lia) Hid Htx) as Hidtx.
  simpl AddBatch_loop. rewrite Hid, Htx. cbn [mbind option_bind].
  pose proof Hok as [Hoq Hom]. pose proof Hinv as (Hnd & Hq & Hm).
  set (e := {| addr := next_addr s; Value := tx |}).
  set (q1 := match txMap s !! id with
             | Some e0 => list_Remove e0 (txQueue s)
             | None => txQueue s
             end).
  assert (Hq1 : forall x, x ∈ q1 <-> x ∈ txQueue s /\ txMap s !! id <> Some x).
  { intros x. unfold q1. destruct (txMap s !! id) as [e0 |] eqn:He0.
    - unfold list_Remove. rewrite list_elem_of_filter. destruct (Hm _ _ He0) as [Hin0 _].
      split.
      + intros [Ha Hx]. split; [done |]. intros [= ->]. done.
      + intros [Hx Hne]. split; [| done]. intros Ha. apply Hne. f_equal.
        symmetry. by apply (NoDup_addr_inj (txQueue s)).
    - split; [by intros ? | tauto]. }
  assert (Hsub : q1 `sublist_of` txQueue s).
  { unfold q1. destruct (txMap s !! id); [apply sublist_filter | done]. }
  apply IH; [lia | lia | intros j ? ? ?; apply Hids; lia | |].
  - split; cbn [txQueue txMap next_addr].
    + intros x Hx. apply elem_of_cons in Hx as [-> | Hx]; [cbn; lia |].
      apply Hq1 in Hx as [Hx _]. apply Hoq in Hx. lia.
    + intros id' x. rewrite lookup_insert. case_decide.
      * intros [= <-]. cbn. lia.
      * intros Hx. apply Hom in Hx. lia.
  - split; [| split]; cbn [txQueue txMap].
    + rewrite fmap_cons. apply NoDup_cons. split.
      * intros Ha. apply list_elem_of_fmap in Ha as (x & Hax & Hx).
        apply Hq1 in Hx as [Hx _]. apply Hoq in Hx. cbn in Hax. lia.
      * eapply sublist_NoDup; [exact Hnd |]. by apply fmap_sublist.
    + intros x Hx. apply elem_of_cons in Hx as [-> | Hx].
      * exists id. by rewrite lookup_insert_eq.
      * apply Hq1 in Hx as [Hx Hne]. destruct (Hq x Hx) as (idx & Hix). exists idx.
        rewrite lookup_insert_ne; [done |]. intros ->. congruence.
    + intros id' x. destruct (decide (id' = id)) as [-> | Hne].
      * rewrite lookup_insert_eq. intros [= <-]. split; [left | done].
      * rewrite lookup_insert_ne by done. intros Hl. destruct (Hm _ _ Hl) as [Hx Ex].
        split; [| done]. right. apply Hq1. split; [done |]. intros Hl'.
        destruct (Hm _ _ Hl') as [_ Ex']. congruence.
Qed.

(** The loop of [RemoveBatch] keeps the queue indexed by id. *)
Lemma RemoveBatch_loop_by_ID (ids : list InteractionID) :
  forall t, queue_ok t -> by_ID t ->
            queue_ok (RemoveBatch_loop ids t) /\ by_ID (RemoveBatch_loop ids t).
Proof.
  induction ids as [| id ids IH]; intros t Hok Hinv; [done |].
  rewrite RemoveBatch_loop_cons. destruct (txMap t !! id) as [e |] eqn:Hid; [| by apply IH].
  apply IH; [by apply remove_element_queue_ok | by apply remove_element_by_ID].
Qed.

(** The loop of [reprocessQueue] over the interactions still to visit. *)
Lemma reprocess_loop_spec (height : Z) (tmpQueue : list Interaction) :
  forall t,
    by_ID t -> NoDup tmpQueue ->
    (forall tx, tx ∈ tmpQueue -> exists e, e ∈ txQueue t /\ Value e = tx) ->
    exists t' err,
      reprocess_loop Apply checkInteractionSeries json_Marshal_Interaction tmpQueue height t
        = Some (t', err) /\
      by_ID t' /\
      txQueue t' `sublist_of` txQueue t /\
      next_addr t' = next_addr t /\
      (forall e, e ∈ txQueue t -> Value e ∉ tmpQueue -> e ∈ txQueue t') /\
      (err = None ->
       forall e, e ∈ txQueue t' -> Value e ∈ tmpQueue ->
                 valid (Value e) (wrap64 (height + 1)) = true) /\
      (forall e, err = Some e -> exists c tx, tx ∈ tmpQueue /\ snd (Apply c tx) = Err e).
Proof.
  induction tmpQueue as [| tx rest IH]; intros t Hinv Hnd Hall.
  - exists t, None. cbn [reprocess_loop]. do 5 (split; [done |]).
    split; [| done]. intros _ e _ Hin. by apply elem_of_nil in Hin.
  - apply NoDup_cons in Hnd as [Hfresh Hnd].
    destruct (Hall tx (list_elem_of_here _ _)) as (e & He & Hv).
    assert (Hrem : forall s, by_ID s -> txQueue s = txQueue t -> next_addr s = next_addr t ->
              exists s1 t' err,
                invalidate json_Marshal_Interaction s tx = Some (s1, None) /\
                reprocess_loop Apply checkInteractionSeries json_Marshal_Interaction
                               rest height s1 = Some (t', err) /\
                by_ID t' /\
                txQueue t' `sublist_of` txQueue t /\
                next_addr t' = next_addr t /\
                (forall x, x ∈ txQueue t -> Value x ∉ tx :: rest -> x ∈ txQueue t') /\
                (err = None ->
                 forall x, x ∈ txQueue t' -> Value x ∈ tx :: rest ->
                           valid (Value x) (wrap64 (height + 1)) = true) /\
                (forall e, err = Some e ->
                           exists c tx', tx' ∈ tx :: rest /\ snd (Apply c tx') = Err e)).
    { intros s Hs Hqs Hns. rewrite <- Hqs in He.
      destruct (invalidate_by_ID s e Hs He) as (id & Hid & Hinvd). rewrite Hv in Hinvd.
      destruct (remove_element_by_ID s id e Hs Hid) as (Hinv1 & Hin1 & Hsub1).
      destruct (IH (remove_element s id e) Hinv1 Hnd)
        as (t' & err & Hrun & Hinv' & Hsub' & Hnext' & Hun' & Hval' & Herr').
      { intros tx' Hin'. destruct (Hall tx' (list_elem_of_further _ _ _ Hin')) as (e' & He' & Hv').
        exists e'. split; [| done]. apply Hin1. split; [by rewrite Hqs |].
        intros ->. apply Hfresh. by rewrite <- Hv, Hv'. }
      exists (remove_element s id e), t', err.
      split; [exact Hinvd |]. split; [exact Hrun |]. split; [exact Hinv' |].
      split; [rewrite <- Hqs; by etransitivity |].
      split; [by rewrite Hnext', <- Hns |]. split; [| split].
      - intros x Hx Hnot. apply not_elem_of_cons in Hnot as [Hne Hnot].
        apply Hun'; [| done]. apply Hin1. split; [by rewrite Hqs |].
        intros ->. by apply Hne.
      - intros Herr x Hx Hin. apply elem_of_cons in Hin as [Hxv | Hin]; [| by apply Hval'].
        exfalso. apply (elem_of_sublist _ _ _ Hx) in Hsub'.
        apply Hin1 in Hsub' as [Hxs Hne].
        apply Hne. apply (by_ID_Value_inj s); [done | done | done | congruence].
      - intros e0 He0. destruct (Herr' e0 He0) as (c & tx' & Hin' & Ha).
        exists c, tx'. split; [by apply list_elem_of_further | done]. }
    cbn [reprocess_loop].
    destruct (negb (checkInteractionSeries tx (wrap64 (height + 1)))
              || negb (IsMature tx (wrap64 (height + 1)))
              || IsExpired tx (wrap64 (height + 1))) eqn:Hc.
    + destruct (Hrem t Hinv eq_refl eq_refl) as (s1 & t' & err & Hinvd & Hrun & Hrest).
      exists t', err. rewrite Hinvd. cbn [mbind option_bind]. by rewrite Hrun.
    + destruct (Apply (imbalanceCache t) tx) as [cache [[] | err]] eqn:Happly.
      * destruct (IH (set_imbalanceCache t cache) Hinv Hnd)
          as (t' & err & Hrun & Hinv' & Hsub' & Hnext' & Hun' & Hval' & Herr').
        { intros tx' Hin'. apply Hall. by apply list_elem_of_further. }
        exists t', err. split; [exact Hrun |]. split; [exact Hinv' |].
        split; [exact Hsub' |]. split; [exact Hnext' |]. split; [| split].
        -- intros x Hx Hnot. apply not_elem_of_cons in Hnot as [_ Hnot]. by apply Hun'.
        -- intros Herr x Hx Hin. apply elem_of_cons in Hin as [-> | Hin]; [| by apply Hval'].
           unfold valid_at.
           destruct (checkInteractionSeries tx _), (IsMature tx _), (IsExpired tx _);
             done.
        -- intros e0 He0. destruct (Herr' e0 He0) as (c & tx' & Hin' & Ha).
           exists c, tx'. split; [by apply list_elem_of_further | done].
      * destruct (Hrem (set_imbalanceCache t cache) Hinv eq_refl eq_refl)
          as (s1 & t' & err & Hinvd & Hrun & Hrest).
        exists t', err. rewrite Hinvd. cbn [mbind option_bind]. by rewrite Hrun.
      * exists (set_imbalanceCache t cache), (Some err).
        split; [done |]. split; [exact Hinv |]. split; [done |]. split; [done |].
        split; [intros x Hx _; exact Hx |]. split; [done |].
        intros e0 [= <-]. exists (imbalanceCache t), tx.
        split; [apply list_elem_of_here | by rewrite Happly].
Qed.

(** [reprocessQueue] on a queue indexed by id. *)
Lemma reprocessQueue_spec t (height : Z) :
  by_ID t ->
  exists t' err,
    reprocessQueue Apply Reset checkInteractionSeries json_Marshal_Interaction t height
      = Some (t', err) /\
    by_ID t' /\ txQueue t' `sublist_of` txQueue t /\ next_addr t' = next_addr t /\
    (err = None ->
     forall e, e ∈ txQueue t' -> valid (Value e) (wrap64 (height + 1)) = true) /\
    (forall e, err = Some e ->
       exists c tx, tx ∈ map Value (txQueue t) /\ snd (Apply c tx) = Err e).
Proof.
  intros Hinv. unfold reprocessQueue.
  assert (Hnd : NoDup (map Value (txQueue t))).
  { pose proof Hinv as (Hnd & _ & _). apply NoDup_fmap_2_strong.
    - intros x y Hx Hy. by apply (by_ID_Value_inj t).
    - by apply NoDup_fmap_1 in Hnd. }
  destruct (reprocess_loop_spec height (map Value (txQueue t))
              (set_imbalanceCache t (Reset (imbalanceCache t))) Hinv Hnd)
    as (t' & err & Hrun & Hinv' & Hsub & Hnext & _ & Hval & Herr).
  { intros tx Hin. apply list_elem_of_fmap in Hin as (e & -> & He). by exists e. }
  exists t', err. split; [exact Hrun |]. split; [exact Hinv' |]. split; [exact Hsub |].
  split; [exact Hnext |]. split; [| exact Herr].
  intros Hnone e He. apply Hval; [done | done |].
  apply list_elem_of_fmap. exists e. split; [done |]. by apply (elem_of_sublist _ _ _ He).
Qed.

(** X15: on a queue whose index and list agree and whose elements are indexed
    under the ids of their interactions, [reprocessQueue] does not panic;
    it never reorders or adds: what is left is a sub-sequence of the queue;
    the index and the list still agree; when it returns no error, every
    interaction left satisfies the series check, is mature and is not
    expired at [height + 1]; and an error it returns is one the imbalance
    cache returned for a queued interaction. *)
Theorem reprocessQueue_keeps_valid t (height : Z) :
  by_ID t ->
  exists t' err,
    reprocessQueue Apply Reset checkInteractionSeries json_Marshal_Interaction t height
      = Some (t', err) /\
    by_ID t' /\
    txQueue t' `sublist_of` txQueue t /\
    (err = None ->
     exists txs, Get t' 0 = Some txs /\
                 Forall (fun tx => valid tx (wrap64 (height + 1)) = true) txs) /\
    (forall e, err = Some e ->
       exists c tx, tx ∈ map Value (txQueue t) /\ snd (Apply c tx) = Err e).
Proof.
  intros Hinv.
  destruct (reprocessQueue_spec t height Hinv) as (t' & err & Hrun & Hinv' & Hsub & _ & Hval & Herr).
  exists t', err. split; [exact Hrun |]. split; [exact Hinv' |]. split; [exact Hsub |].
  split; [| exact Herr].
  intros Hnone. exists (map Value (txQueue t')). split; [reflexivity |].
  apply Forall_fmap, Forall_forall. intros e He. by apply Hval.
Qed.

(** In a queue indexed by id, there are as many ids as elements. *)
Lemma by_ID_size t : by_ID t -> length (txQueue t) = size (txMap t).
Proof.
  intros (Hnd & Hq & Hm). rewrite <- length_map_to_list.
  rewrite <- (length_fmap snd (map_to_list (txMap t))).
  apply Permutation_length, NoDup_Permutation.
  - by apply NoDup_fmap_1 in Hnd.
  - apply NoDup_fmap_2_strong; [| apply NoDup_map_to_list].
    intros [id1 e1] [id2 e2] H1 H2. cbn. intros <-.
    apply elem_of_map_to_list in H1, H2.
    destruct (Hm _ _ H1) as [_ E1]. destruct (Hm _ _ H2) as [_ E2]. congruence.
  - intros e. rewrite list_elem_of_fmap. split.
    + intros He. destruct (Hq e He) as (id & Hid). exists (id, e).
      split; [done |]. by apply elem_of_map_to_list.
    + intros ([id x] & -> & Hin). apply elem_of_map_to_list in Hin.
      by apply Hm in Hin as [Hin _].
Qed.

(** X16: the pool's invariant.  A new queue is indexed by id: the index and the
    list hold the same elements, each under the id of its interaction.
    [Add] and [AddBatch], called with the ids of the interactions they are
    given, and [RemoveBatch], called with any ids and either value of
    [more], keep it so and do not panic; and in such a queue [Len] is the
    number of ids in the index and [Exists] tells whether an interaction
    with that id is in the list. *)
Theorem pool_invariant t :
  (forall cache : ImbalanceCache, queue_ok (NewInteractionQueueMemory cache) /\
                 by_ID (NewInteractionQueueMemory cache)) /\
  (queue_ok t -> by_ID t ->
   (forall id tx, ID tx = Ok id ->
      queue_ok (fst (Add Apply t id tx)) /\ by_ID (fst (Add Apply t id tx))) /\
   (forall ids txs height, Forall2 (fun tx id => ID tx = Ok id) txs ids ->
      exists t', AddBatch t ids txs height = Some (t', None) /\ queue_ok t' /\ by_ID t') /\
   (forall ids height more,
      exists t' err,
        RemoveBatch Apply Reset checkInteractionSeries json_Marshal_Interaction
                    t ids height more = Some (t', err) /\
        queue_ok t' /\ by_ID t') /\
   Len t = Z.of_nat (size (txMap t)) /\
   (forall id, Exists t id = true <->
               exists e, e ∈ txQueue t /\ ID (Value e) = Ok id)).
Proof.
  split; [intros cache; split; [apply NewInteractionQueueMemory_ok | apply New_by_ID] |].
  intros Hok Hinv. split; [| split; [| split; [| split]]].
  - intros id tx Htx. split; [by apply Add_queue_ok | by apply Add_by_ID].
  - intros ids txs height Hids. pose proof (Forall2_length _ _ _ Hids) as Hlen.
    destruct (AddBatch_loop_by_ID ids txs (length txs) t) as (t' & Ht' & Hok' & Hinv');
      [lia | lia | | done | done |].
    { intros i id tx _ Hid Htx. by apply (Forall2_lookup_lr _ _ _ _ _ _ Hids Htx Hid). }
    exists t'. unfold AddBatch. by rewrite Ht'.
  - intros ids height more. unfold RemoveBatch.
    destruct (RemoveBatch_loop_by_ID ids t Hok Hinv) as [Hok1 Hinv1].
    destruct more; [by exists (RemoveBatch_loop ids t), None |].
    destruct (reprocessQueue_spec (RemoveBatch_loop ids t) height Hinv1)
      as (t' & err & Hrun & Hinv' & Hsub & Hnext & _).
    exists t', err. split; [exact Hrun |]. split; [| exact Hinv'].
    destruct Hok1 as [Hq1 _]. pose proof Hinv' as (_ & _ & Hm').
    split.
    + intros e He. rewrite Hnext. apply Hq1. by apply (elem_of_sublist _ _ _ He).
    + intros id e Hl. apply Hm' in Hl as [He _]. rewrite Hnext. apply Hq1.
      by apply (elem_of_sublist _ _ _ He).
  - unfold Len, len. by rewrite by_ID_size.
  - intros id. unfold Exists. rewrite bool_decide_eq_true.
    destruct Hinv as (_ & Hq & Hm). split.
    + intros [e He]. exists e. by apply Hm.
    + intros (e & He & Ee). destruct (Hq e He) as (id' & Hid').
      destruct (Hm _ _ Hid') as [_ Ee']. assert (id' = id) by congruence. subst. eauto.
Qed.
End Reprocess.

Lemma pool_indexed_ok :
  queue_ok pool_indexed /\ queue_by_ID sample_json_Marshal_Interaction pool_indexed.
Proof.
  unfold pool_indexed. cbv zeta. split.
  - apply Add_queue_ok, Add_queue_ok, NewInteractionQueueMemory_ok.
  - apply Add_by_ID; [apply Add_queue_ok, NewInteractionQueueMemory_ok | | reflexivity].
    apply Add_by_ID; [apply NewInteractionQueueMemory_ok | apply New_by_ID | reflexivity].
Qed.

Lemma reprocessQueue_keeps_valid_witness :
  let json := sample_json_Marshal_Interaction in
  let series := fun (_ : Interaction) (_ : Z) => true in
  exists t' err,
    reprocessQueue Apply_accept (fun c => c) series json pool_indexed 5 = Some (t', err) /\
    queue_by_ID json t' /\
    txQueue t' `sublist_of` txQueue pool_indexed /\
    (err = None ->
     exists txs, Get t' 0 = Some txs /\
                 Forall (fun tx => valid_at series tx (wrap64 (5 + 1)) = true) txs) /\
    (forall e, err = Some e ->
       exists c tx, tx ∈ map Value (txQueue pool_indexed) /\ snd (Apply_accept c tx) = Err e).
Proof.
  cbv zeta.
  apply (reprocessQueue_keeps_valid Apply_accept (fun c => c) (fun _ _ => true)
           sample_json_Marshal_Interaction pool_indexed 5).
  exact (proj2 pool_indexed_ok).
Defined.

(** On the sample pool, reprocessing at height 5 drops the interaction that
    expired after height 3 and keeps the other. *)
Example reprocessQueue_drops_expired :
  (reprocessQueue Apply_accept (fun c => c) (fun _ _ => true) sample_json_Marshal_Interaction
                  pool_indexed 5 ≫= fun r => Get (fst r) 0)
  = Some [sample_tx 1 key_A] /\
  Get pool_indexed 0 = Some [sample_tx 1 key_A; expiring_tx 2 3].
Proof. vm_compute. split; reflexivity. Qed.

Lemma pool_invariant_witness :
  let json := sample_json_Marshal_Interaction in
  let series := fun (_ : Interaction) (_ : Z) => true in
  let t := pool_indexed in
  let tx := sample_tx 7 key_B in
  (queue_ok (fst (Add Apply_accept t (sample_ID tx) tx)) /\
   queue_by_ID json (fst (Add Apply_accept t (sample_ID tx) tx))) /\
  (exists t', AddBatch t [sample_ID tx] [tx] 5 = Some (t', None) /\
              queue_ok t' /\ queue_by_ID json t') /\
  (exists t' err,
     RemoveBatch Apply_accept (fun c => c) series json t [sample_ID tx] 5 false
       = Some (t', err) /\ queue_ok t' /\ queue_by_ID json t') /\
  Len t = Z.of_nat (size (txMap t)).
Proof.
  cbv zeta.
  destruct (pool_invariant Apply_accept (fun c => c) (fun _ _ => true)
              sample_json_Marshal_Interaction pool_indexed) as [_ H].
  destruct (H (proj1 pool_indexed_ok) (proj2 pool_indexed_ok))
    as (HAdd & HAddBatch & HRemove & HLen & _).
  split; [apply HAdd; reflexivity |].
  split; [apply HAddBatch; repeat constructor |].
  split; [apply HRemove | exact HLen].
Defined.

(** ** The graph: linking and reading rankings *)

Lemma NewGraph_ok : graph_ok NewGraph.
Proof.
  split; [| split; [| split]]; cbn.
  - intros name i. by rewrite lookup_empty.
  - intros i nd. by rewrite lookup_empty.
  - intros s out. by rewrite lookup_empty.
  - intros i. rewrite map_size_empty. lia.
Qed.

Lemma next_index_small (g : Graph) :
  (N.of_nat (size (index g)) < 2 ^ 32)%N -> next_index g = N.of_nat (size (index g)).
Proof. intros H. unfold next_index. by apply N.mod_small. Qed.

(** The first two statements of [Link]. *)
Lemma ensure_node_ok (g : Graph) (name : list byte) :
  graph_ok g -> (N.of_nat (size (index g)) < 2 ^ 32)%N ->
  graph_ok (ensure_node g name) /\
  (exists i, index (ensure_node g name) !! name = Some i /\
             outbound <$> (nodes (ensure_node g name) !! i)
             = Some (default 0%float (outbound <$> (index g !! name ≫= fun i => nodes g !! i)))) /\
  (forall name' i, index g !! name' = Some i -> index (ensure_node g name) !! name' = Some i) /\
  (size (index (ensure_node g name)) <= S (size (index g)))%nat /\
  edges (ensure_node g name) = edges g /\
  (forall i nd, nodes g !! i = Some nd -> nodes (ensure_node g name) !! i = Some nd).
Proof.
  intros Hok Hsize. pose proof Hok as (Hidx & Hnodes & Hedges & Hdense). unfold ensure_node.
  destruct (index g !! name) as [i |] eqn:Hname.
  { split; [done |]. split; [| split; [done | split; [lia | done]]].
    exists i. split; [done |]. cbn [mbind option_bind].
    destruct (Hidx _ _ Hname) as (_ & nd & -> & _). reflexivity. }
  rewrite (next_index_small g Hsize). set (i := N.of_nat (size (index g))).
  assert (Hfresh : nodes g !! i = None).
  { destruct (nodes g !! i) as [nd |] eqn:Hnd; [| done].
    apply Hnodes, Hidx in Hnd as [Hlt _]. unfold i in Hlt. lia. }
  cbn [index nodes edges]. split; [| split; [| split; [| split; [| split]]]].
  - split; [| split; [| split]]; cbn [index nodes edges].
    4:{ intros i'. rewrite map_size_insert_None by done. intros Hlt.
        destruct (decide (i' = i)) as [-> | Hne]; [rewrite lookup_insert_eq; eauto |].
        rewrite lookup_insert_ne by done. apply Hdense. unfold i in Hne. lia. }
    + intros name' i'. rewrite map_size_insert_None by done.
      destruct (decide (name' = name)) as [-> | Hne].
      * rewrite lookup_insert_eq. intros [= <-]. split; [unfold i; lia |].
        eexists. by rewrite lookup_insert_eq.
      * rewrite lookup_insert_ne by done. intros Hl.
        destruct (Hidx _ _ Hl) as (Hlt & nd & Hnd & Hlab). split; [lia |].
        exists nd. split; [| done]. rewrite lookup_insert_ne; [done |]. unfold i. lia.
    + intros i' nd. destruct (decide (i' = i)) as [-> | Hne].
      * rewrite lookup_insert_eq. intros [= <-]. cbn. by rewrite lookup_insert_eq.
      * rewrite lookup_insert_ne by done. intros Hnd. pose proof (Hnodes _ _ Hnd) as Hl.
        rewrite lookup_insert_ne; [done |]. intros E. rewrite <- E in Hl. congruence.
    + intros s out Hs. destruct (Hedges _ _ Hs) as [Hsn Hout]. split.
      * apply lookup_insert_is_Some'. by right.
      * intros t w Ht. apply lookup_insert_is_Some'. right. by apply (Hout t w).
  - exists i. by rewrite !lookup_insert_eq.
  - intros name' i' Hl. rewrite lookup_insert_ne; [done |]. intros ->. congruence.
  - by rewrite map_size_insert_None.
  - done.
  - intros i' nd Hnd. rewrite lookup_insert_ne; [done |]. intros <-. congruence.
Qed.

(** What one call of [Link] does to a well-formed graph. *)
Lemma Link_spec (g : Graph) (source target : list byte) (weight : float) :
  graph_ok g -> (N.of_nat (size (index g)) + 2 <= 2 ^ 32)%N ->
  exists g' s t,
    Link g source target weight = Some g' /\ graph_ok g' /\
    index g' !! source = Some s /\ index g' !! target = Some t /\
    (forall name i, index g !! name = Some i -> index g' !! name = Some i) /\
    (size (index g') <= size (index g) + 2)%nat /\
    outbound <$> (nodes g' !! s)
      = Some (default 0 (outbound <$> (index g !! source ≫= fun i => nodes g !! i)) + weight)%float /\
    edges g' !! s
      = Some (<[t := (default 0 (default ∅ (edges g !! s) !! t) + weight)%float]>
                (default ∅ (edges g !! s))) /\
    (forall s', s' <> s -> edges g' !! s' = edges g !! s').
Proof.
  intros Hok Hsize.
  destruct (ensure_node_ok g source Hok ltac:(lia))
    as (Hok1 & (s & Hs1 & Hout1) & Hst1 & Hsz1 & He1 & Hn1).
  destruct (ensure_node_ok (ensure_node g source) target Hok1 ltac:(lia))
    as (Hok2 & (t & Ht2 & _) & Hst2 & Hsz2 & He2 & Hn2).
  remember (ensure_node (ensure_node g source) target) as g2 eqn:Hg2.
  pose proof (Hst2 _ _ Hs1) as Hs2.
  pose proof Hok2 as (Hidx & Hnodes & Hedges & Hdense).
  destruct (Hidx _ _ Hs2) as (_ & nd & Hnd & Hlab).
  destruct (Hidx _ _ Ht2) as (_ & ndt & Hndt & _).
  assert (Hedges_eq : edges g2 = edges g) by (by rewrite He2, He1).
  assert (HLink : Link g source target weight
                  = Some {| index := index g2;
                            nodes := <[s := {| label := label nd; ranking := ranking nd;
                                               outbound := outbound nd + weight |}]> (nodes g2);
                            edges := <[s := <[t := (default 0 (default ∅ (edges g2 !! s) !! t)
                                                    + weight)%float]>
                                              (default ∅ (edges g2 !! s))]> (edges g2) |}).
  { unfold Link. cbv zeta. rewrite <- Hg2, Hs2, Ht2.
    change (default 0%N (Some s)) with s. change (default 0%N (Some t)) with t.
    rewrite Hnd. reflexivity. }
  eexists _, s, t. split; [exact HLink |].
  cbn [index nodes edges]. split; [| split; [done | split; [done | split; [| split; [| split;
    [| split]]]]]].
  - split; [| split; [| split]]; cbn [index nodes edges].
    4:{ intros i Hlt. apply lookup_insert_is_Some'. right. by apply Hdense. }
    + intros name i Hl. destruct (Hidx _ _ Hl) as (Hlt & nd' & Hnd' & Hlab'). split; [done |].
      destruct (decide (i = s)) as [-> | Hne].
      * eexists. rewrite lookup_insert_eq. split; [done |]. cbn. congruence.
      * exists nd'. by rewrite lookup_insert_ne.
    + intros i nd'. destruct (decide (i = s)) as [-> | Hne].
      * rewrite lookup_insert_eq. intros [= <-]. cbn. by apply Hnodes.
      * rewrite lookup_insert_ne by done. apply Hnodes.
    + intros s' out'. destruct (decide (s' = s)) as [-> | Hne].
      * rewrite lookup_insert_eq. intros [= <-]. split.
        -- apply lookup_insert_is_Some'. by left.
        -- intros t' w. destruct (decide (t' = t)) as [-> | Hnt].
           ++ intros _. apply lookup_insert_is_Some'. right. eauto.
           ++ rewrite lookup_insert_ne by done.
              destruct (edges g2 !! s) as [out0 |] eqn:Hout0; cbn [default].
              ** intros Hw. apply lookup_insert_is_Some'. right.
                 destruct (Hedges _ _ Hout0) as [_ Ht']. by apply (Ht' t' w).
              ** by rewrite lookup_empty.
      * rewrite lookup_insert_ne by done. intros Hs'.
        destruct (Hedges _ _ Hs') as [Hsn Ht']. split.
        -- apply lookup_insert_is_Some'. by right.
        -- intros t' w Hw. apply lookup_insert_is_Some'. right. by apply (Ht' t' w).
  - intros name i Hl. by apply Hst2, Hst1.
  - lia.
  - rewrite lookup_insert_eq.
    destruct (nodes (ensure_node g source) !! s) as [nd1 |] eqn:Hnd1; [| done].
    apply Hn2 in Hnd1. rewrite Hnd in Hnd1. injection Hnd1 as ->.
    cbn [fmap option_fmap option_map outbound] in Hout1 |- *. injection Hout1 as <-.
    reflexivity.
  - rewrite lookup_insert_eq. by rewrite Hedges_eq.
  - intros s' Hne. rewrite lookup_insert_ne by done. by rewrite Hedges_eq.
Qed.

(** X17: on a graph built by [Link] with room for two more labels below
    [2^32], [Link] does not panic and keeps the graph well formed: labels
    keep the index they were given when first seen, a new label gets the
    next index, every index has a node carrying its label, and edges join
    nodes of the graph; the outbound weight of the source (0 for a new
    node) and the weight of the edge from source to target (0 for a new
    edge) both grow by the weight given, and no other edge list changes. *)
Theorem Link_keeps_graph_ok (g : Graph) (source target : list byte) (weight : float) :
  graph_ok g -> (N.of_nat (size (index g)) + 2 <= 2 ^ 32)%N ->
  exists g' s t,
    Link g source target weight = Some g' /\ graph_ok g' /\
    index g' !! source = Some s /\ index g' !! target = Some t /\
    (forall name i, index g !! name = Some i -> index g' !! name = Some i) /\
    (size (index g') <= size (index g) + 2)%nat /\
    outbound <$> (nodes g' !! s)
      = Some (default 0 (outbound <$> (index g !! source ≫= fun i => nodes g !! i)) + weight)%float /\
    edges g' !! s
      = Some (<[t := (default 0 (default ∅ (edges g !! s) !! t) + weight)%float]>
                (default ∅ (edges g !! s))) /\
    (forall s', s' <> s -> edges g' !! s' = edges g !! s').
Proof. apply Link_spec. Qed.


Lemma Link_keeps_graph_ok_witness :
  exists g' s t,
    Link NewGraph key_A key_B 1 = Some g' /\ graph_ok g' /\
    index g' !! key_A = Some s /\ index g' !! key_B = Some t /\
    (forall name i, index NewGraph !! name = Some i -> index g' !! name = Some i) /\
    (size (index g') <= size (index NewGraph) + 2)%nat /\
    outbound <$> (nodes g' !! s)
      = Some (default 0 (outbound <$> (index NewGraph !! key_A ≫= fun i => nodes NewGraph !! i))
              + 1)%float /\
    edges g' !! s
      = Some (<[t := (default 0 (default ∅ (edges NewGraph !! s) !! t) + 1)%float]>
                (default ∅ (edges NewGraph !! s))) /\
    (forall s', s' <> s -> edges g' !! s' = edges NewGraph !! s').
Proof.
  apply (Link_keeps_graph_ok NewGraph key_A key_B 1).
  - exact NewGraph_ok.
  - vm_compute. intros H. discriminate H.
Defined.

(** The loop of [indexRepresentations] on a well-formed graph. *)
Lemma indexInteractions_spec (txs : list Interaction) (increment : bool) :
  forall g,
    graph_ok g -> (N.of_nat (size (index g)) + 2 * N.of_nat (length txs) <= 2 ^ 32)%N ->
    exists g',
      indexInteractions g txs increment = Some g' /\ graph_ok g' /\
      (forall name i, index g !! name = Some i -> index g' !! name = Some i) /\
      (forall tx, tx ∈ txs ->
         is_Some (index g' !! pubKeyToString (From tx)) /\
         is_Some (index g' !! pubKeyToString (To tx))).
Proof.
  induction txs as [| tx txs IH]; intros g Hok Hsize.
  - exists g. do 3 (split; [done |]). intros tx Hin. by apply elem_of_nil in Hin.
  - cbn [length] in Hsize. cbn [indexInteractions].
    destruct (Link_spec g (pubKeyToString (From tx)) (pubKeyToString (To tx))
                (if increment then 1 else -1)%float Hok ltac:(lia))
      as (g1 & s & t & HLink & Hok1 & Hs & Ht & Hst & Hsz & _).
    rewrite HLink. cbn [mbind option_bind].
    destruct (IH g1 Hok1 ltac:(lia)) as (g' & Hrun & Hok' & Hst' & Hall).
    exists g'. split; [exact Hrun |]. split; [exact Hok' |]. split.
    + intros name i Hl. by apply Hst', Hst.
    + intros tx' Hin. apply elem_of_cons in Hin as [-> | Hin]; [| by apply Hall].
      split; eexists; by apply Hst'.
Qed.

(** X18: indexing the interactions of a plot, connected or disconnected,
    into a well-formed graph with room for their keys does not panic,
    leaves the graph well formed, keeps every label's index, and leaves
    every sender and recipient with an index. *)
Theorem indexInteractions_ok (txs : list Interaction) (increment : bool) :
  forall g,
    graph_ok g -> (N.of_nat (size (index g)) + 2 * N.of_nat (length txs) <= 2 ^ 32)%N ->
    exists g',
      indexInteractions g txs increment = Some g' /\ graph_ok g' /\
      (forall name i, index g !! name = Some i -> index g' !! name = Some i) /\
      (forall tx, tx ∈ txs ->
         is_Some (index g' !! pubKeyToString (From tx)) /\
         is_Some (index g' !! pubKeyToString (To tx))).
Proof. apply indexInteractions_spec. Qed.


Lemma indexInteractions_ok_witness :
  exists g',
    indexInteractions NewGraph back_and_forth false = Some g' /\ graph_ok g' /\
    (forall name i, index NewGraph !! name = Some i -> index g' !! name = Some i) /\
    (forall tx, tx ∈ back_and_forth ->
       is_Some (index g' !! pubKeyToString (From tx)) /\
       is_Some (index g' !! pubKeyToString (To tx))).
Proof.
  apply (indexInteractions_ok back_and_forth false NewGraph).
  - exact NewGraph_ok.
  - vm_compute. intros H. discriminate H.
Defined.

(** The loop of [rankings] over the keys asked for. *)
Lemma rankings_keys_spec (g : Graph) (keys : list (list byte)) :
  forall m0 : gmap (list byte) float,
    (forall k, k ∈ keys ->
               is_Some (nodes g !! default 0%N (index g !! pubKeyToString k))) ->
    exists m,
      foldM (fun rnks key =>
               let keyStr := pubKeyToString key in
               let index := default 0%N (index g !! keyStr) in
               nd ← nodes g !! index;
               Some (<[keyStr := ranking nd]> rnks)) keys m0 = Some m /\
      forall s, m !! s = if decide (s ∈ pubKeyToString <$> keys)
                         then ranking <$> (nodes g !! default 0%N (index g !! s))
                         else m0 !! s.
Proof.
  induction keys as [| key keys IH]; intros m0 Hall.
  - exists m0. split; [done |]. intros s. rewrite decide_False; [done |].
    intros Hin. by apply elem_of_nil in Hin.
  - destruct (Hall key (list_elem_of_here _ _)) as [nd Hnd].
    cbn [foldM]. cbv zeta. rewrite Hnd. cbn [mbind option_bind].
    destruct (IH (<[pubKeyToString key := ranking nd]> m0)) as (m & Hrun & Hm).
    { intros k Hk. apply Hall. by apply list_elem_of_further. }
    exists m. split; [exact Hrun |]. intros s. rewrite Hm, fmap_cons.
    destruct (decide (s ∈ pubKeyToString <$> keys)) as [Hin | Hin].
    + by rewrite decide_True by (by apply list_elem_of_further).
    + destruct (decide (s = pubKeyToString key)) as [-> | Hne].
      * rewrite lookup_insert_eq, decide_True by apply list_elem_of_here.
        by rewrite Hnd.
      * rewrite lookup_insert_ne by done. rewrite decide_False; [done |].
        intros Hc. apply elem_of_cons in Hc. tauto.
Qed.

(** The loop of [rankings] over the whole index. *)
Lemma rankings_all_spec (g : Graph) (l : list (list byte * N)) :
  forall m0 : gmap (list byte) float,
    NoDup l.*1 -> (forall key id, (key, id) ∈ l -> is_Some (nodes g !! id)) ->
    exists m,
      foldM (fun rnks '(key, id) =>
               nd ← nodes g !! id;
               Some (<[key := ranking nd]> rnks)) l m0 = Some m /\
      (forall key id, (key, id) ∈ l -> m !! key = ranking <$> (nodes g !! id)) /\
      (forall key, key ∉ l.*1 -> m !! key = m0 !! key).
Proof.
  induction l as [| [key id] l IH]; intros m0 Hnd Hall.
  - exists m0. split; [done |]. split; [| done]. intros key id Hin. by apply elem_of_nil in Hin.
  - rewrite fmap_cons in Hnd. apply NoDup_cons in Hnd as [Hfresh Hnd]. cbn [fst] in Hfresh.
    destruct (Hall key id (list_elem_of_here _ _)) as [nd Hn].
    cbn [foldM]. rewrite Hn. cbn [mbind option_bind].
    destruct (IH (<[key := ranking nd]> m0) Hnd) as (m & Hrun & Hin & Hout).
    { intros key' id' Hin'. apply (Hall key' id'). by apply list_elem_of_further. }
    exists m. split; [exact Hrun |]. split.
    + intros key' id' Hin'. apply elem_of_cons in Hin' as [[= -> ->] | Hin'].
      * rewrite Hout by done. by rewrite lookup_insert_eq, Hn.
      * by apply Hin.
    + intros key' Hnot. rewrite fmap_cons in Hnot. apply not_elem_of_cons in Hnot as [Hne Hnot].
      rewrite Hout by done. by rewrite lookup_insert_ne.
Qed.

(** X19: [rankings] on a well-formed graph.  With no keys it returns the
    ranking of every label of the graph.  With keys, on a graph that has a
    node 0, it returns for each key that is a label of the graph the
    ranking of its node, and for each key that is not the ranking of
    node 0, the first label ever linked; on an empty graph it panics. *)
Theorem rankings_spec (g : Graph) :
  graph_ok g ->
  (exists m,
     rankings g [] = Some m /\
     forall name, m !! name = index g !! name ≫= fun i => ranking <$> (nodes g !! i)) /\
  (forall keys, keys <> [] -> nodes g !! 0%N = None -> rankings g keys = None) /\
  (forall keys n0, keys <> [] -> nodes g !! 0%N = Some n0 ->
     exists m,
       rankings g keys = Some m /\
       forall k, k ∈ keys ->
         m !! pubKeyToString k
         = match index g !! pubKeyToString k with
           | Some i => ranking <$> (nodes g !! i)
           | None => Some (ranking n0)
           end).
Proof.
  intros (Hidx & Hnodes & _ & Hdense).
  assert (Hlen : forall keys : list (list byte), keys <> [] -> (0 <? len keys) = true).
  { intros [| key keys] Hne; [done |]. apply Z.ltb_lt. unfold len. cbn [length]. lia. }
  split; [| split].
  - unfold rankings. cbn [len length Z.of_nat Z.ltb Z.compare].
    destruct (rankings_all_spec g (map_to_list (index g)) ∅) as (m & Hrun & Hin & Hout).
    { apply NoDup_fst_map_to_list. }
    { intros key id Hl. apply elem_of_map_to_list in Hl.
      destruct (Hidx _ _ Hl) as (_ & nd & -> & _). eauto. }
    exists m. split; [exact Hrun |]. intros name.
    destruct (index g !! name) as [i |] eqn:Hname; cbn [mbind option_bind].
    + apply Hin. by apply elem_of_map_to_list.
    + rewrite Hout; [by rewrite lookup_empty |].
      intros Hc. apply list_elem_of_fmap in Hc as ([key id] & -> & Hl).
      apply elem_of_map_to_list in Hl. cbn in Hname. congruence.
  - intros keys Hne H0. unfold rankings. rewrite (Hlen keys Hne).
    destruct keys as [| key keys]; [done |]. cbn [foldM]. cbv zeta.
    destruct (index g !! pubKeyToString key) as [i |] eqn:Hk.
    + exfalso. destruct (Hidx _ _ Hk) as (Hlt & _).
      destruct (Hdense 0%N ltac:(lia)) as [n0 Hn0]. congruence.
    + change (default 0%N None) with 0%N. by rewrite H0.
  - intros keys n0 Hne H0. unfold rankings. rewrite (Hlen keys Hne).
    destruct (rankings_keys_spec g keys ∅) as (m & Hrun & Hm).
    { intros k Hk. destruct (index g !! pubKeyToString k) as [i |] eqn:Hi.
      - destruct (Hidx _ _ Hi) as (_ & nd & Hnd & _). change (default 0%N (Some i)) with i.
        eauto.
      - change (default 0%N None) with 0%N. eauto. }
    exists m. split; [exact Hrun |]. intros k Hk. rewrite Hm.
    rewrite decide_True by (apply list_elem_of_fmap; eauto).
    destruct (index g !! pubKeyToString k) as [i |].
    + reflexivity.
    + change (default 0%N None) with 0%N. by rewrite H0.
Qed.

Lemma back_and_forth_graph_ok : graph_ok back_and_forth_graph.
Proof.
  destruct (indexInteractions_spec back_and_forth true NewGraph NewGraph_ok)
    as (g' & Hrun & Hok & _).
  { vm_compute. intros H. discriminate H. }
  rewrite back_and_forth_indexed in Hrun. by injection Hrun as <-.
Qed.

Lemma rankings_spec_witness :
  let g := back_and_forth_graph in
  (exists m,
     rankings g [] = Some m /\
     forall name, m !! name = index g !! name ≫= fun i => ranking <$> (nodes g !! i)) /\
  rankings NewGraph [key_A] = None /\
  (exists m,
     rankings g [key_A; work_max] = Some m /\
     forall k, k ∈ [key_A; work_max] ->
       m !! pubKeyToString k
       = match index g !! pubKeyToString k with
         | Some i => ranking <$> (nodes g !! i)
         | None => Some 0%float
         end).
Proof.
  cbv zeta.
  destruct (rankings_spec back_and_forth_graph back_and_forth_graph_ok) as (Hall & _ & Hkeys).
  destruct (rankings_spec NewGraph NewGraph_ok) as (_ & Hempty & _).
  split; [exact Hall |]. split.
  - apply Hempty; [discriminate | reflexivity].
  - apply (Hkeys [key_A; work_max] {| label := pubKeyToString baseKey; ranking := 0;
                                      outbound := 1 |});
      [discriminate | vm_compute; reflexivity].
Defined.

(** *** Ranking never touches anything but rankings *)










(** ** The pool: batch lengths and signed lookups *)

Section PoolEdges.
Context {ImbalanceCache : Type}.
Variable json_Marshal_Interaction : Interaction -> Result error (list byte).
Implicit Types (t s : InteractionQueueMemory ImbalanceCache).

Lemma AddBatch_loop_take (ids : list InteractionID) (txs : list Interaction) (n m : nat) :
  forall s, (n <= m)%nat -> AddBatch_loop n (take m ids) txs s = AddBatch_loop n ids txs s.
Proof.
  induction n as [| i IH]; intros s Hle; [done |].
  simpl AddBatch_loop. rewrite lookup_take_lt by lia.
  destruct (ids !! i) as [id |]; [| done]. cbn [mbind option_bind].
  destruct (txs !! i) as [tx |]; [| done]. cbn [mbind option_bind].
  apply IH. lia.
Qed.

(** X21: [AddBatch] pairs [ids[i]] with [txs[i]] for the indices of [txs]:
    with fewer ids than interactions it panics on the index out of range;
    with more, the surplus ids are never read. *)
Theorem AddBatch_lengths t (ids : list InteractionID) (txs : list Interaction) (height : Z) :
  ((length ids < length txs)%nat -> AddBatch t ids txs height = None) /\
  ((length txs <= length ids)%nat ->
   AddBatch t ids txs height = AddBatch t (take (length txs) ids) txs height).
Proof.
  split.
  - intros Hlt. unfold AddBatch. destruct txs as [| tx txs' _] using rev_ind.
    + cbn in Hlt. lia.
    + rewrite length_app in *. cbn [length] in *.
      replace (length txs' + 1)%nat with (S (length txs')) by lia.
      simpl AddBatch_loop. rewrite (lookup_ge_None_2 ids) by lia. reflexivity.
  - intros Hle. unfold AddBatch. by rewrite AddBatch_loop_take.
Qed.

(** X22: in a queue indexed by id, [ExistsSigned(id, signature)] is true
    exactly when the queue holds an interaction with that id whose
    signature is the one given; [Exists(id)] is then true as well. *)
Theorem ExistsSigned_spec t (id : InteractionID) (signature : list byte) :
  queue_by_ID json_Marshal_Interaction t ->
  (ExistsSigned t id signature = true <->
   exists e, e ∈ txQueue t /\ Interaction_ID json_Marshal_Interaction (Value e) = Ok id /\
             Signature (Value e) = signature) /\
  (ExistsSigned t id signature = true -> Exists t id = true).
Proof.
  intros (_ & Hq & Hm). unfold ExistsSigned, Exists. split; [split |].
  - destruct (txMap t !! id) as [e |] eqn:Hid; [| done].
    intros Hsig. apply bytes_Equal_true in Hsig. exists e.
    destruct (Hm _ _ Hid). done.
  - intros (e & He & Ee & Hsig). destruct (Hq e He) as (id' & Hid').
    destruct (Hm _ _ Hid') as [_ Ee']. assert (id' = id) by congruence. subst id'.
    rewrite Hid'. by apply bytes_Equal_true.
  - destruct (txMap t !! id) as [e |] eqn:Hid; [| done].
    intros _. apply bool_decide_eq_true. eauto.
Qed.
End PoolEdges.

Lemma AddBatch_lengths_witness :
  let tx1 := sample_tx 1 (replicate 32 x09) in
  let tx2 := sample_tx 2 (replicate 32 x09) in
  AddBatch pool_B [sample_id 1] [tx1; tx2] 5 = None /\
  AddBatch pool_B [sample_id 1; sample_id 2; sample_id 3] [tx1; tx2] 5
    = AddBatch pool_B (take 2 [sample_id 1; sample_id 2; sample_id 3]) [tx1; tx2] 5.
Proof.
  cbv zeta. split.
  - destruct (AddBatch_lengths pool_B [sample_id 1]
                [sample_tx 1 (replicate 32 x09); sample_tx 2 (replicate 32 x09)] 5) as [H _].
    apply H. simpl. lia.
  - destruct (AddBatch_lengths pool_B [sample_id 1; sample_id 2; sample_id 3]
                [sample_tx 1 (replicate 32 x09); sample_tx 2 (replicate 32 x09)] 5) as [_ H].
    apply H. simpl. lia.
Defined.

Lemma ExistsSigned_spec_witness :
  let json := sample_json_Marshal_Interaction in
  let id := sample_ID (sample_tx 1 key_A) in
  (ExistsSigned pool_indexed id [] = true <->
   exists e, e ∈ txQueue pool_indexed /\ Interaction_ID json (Value e) = Ok id /\
             Signature (Value e) = []) /\
  (ExistsSigned pool_indexed id [] = true -> Exists pool_indexed id = true).
Proof.
  cbv zeta.
  apply (ExistsSigned_spec sample_json_Marshal_Interaction pool_indexed
           (sample_ID (sample_tx 1 key_A)) []).
  exact (proj2 pool_indexed_ok).
Defined.

(** ** The header hasher and the fields it takes as fixed *)




(** The two headers of the example above, which differ in height, have
    different ids: the second [Update] returned the id of the first. *)
Example Update_returns_first_id :
  PlotHeader_ID (scribing_header_at 8 zero_id 1718344737 5 1)
  <> PlotHeader_ID (scribing_header zero_id 1718344737 5 1).
Proof. vm_compute. intros H. discriminate H. Qed.
